(** * Bibtex-Enricher: the resolution engine, its providers, matcher and cleaner

    A shallow embedding of the decision logic of the [bibtex_enricher]
    package, and the properties its specification states of it.

    The model:
    - [Difflib]   : [difflib.SequenceMatcher(None, a, b)], which the title
                    matcher delegates to, after CPython's [Lib/difflib.py],
                    over any countable element type;
    - [Text]      : a Python [str] as the list of its code points, the
                    character classes and the [re.sub] the package uses;
    - [Matcher]   : [clean_title] and [title_similarity], which the four
                    provider classes share word for word;
    - [Cleaner]   : [BibTeXCleaner.clean_abstract];
    - [Json], [Net] : the values [response.json()] returns, exceptions, and
                    the network as an oracle that answers or fails, with the
                    requests made and the seconds slept on record;
    - [CrossrefAPI], [SemanticScholarAPI] : the two clients every
                    [BibTeXEnricher] has;
    - [Engine]    : [BibTeXEnricher.enrich_entry] and [enrich_file], over
                    any four clients (PubMed and Elsevier are optional);
    - [Policy]    : the fallback policy as the specification words it;
    - [Wiring], [Fixtures] : the engine on the modelled clients, and
                    records and networks to run it on.

    Conventions.  Python integers that index or count are natural numbers.
    The similarity ratio, the float [2.0 * M / T], is the rational [2M/T]:
    for the lengths [T] of titles the comparisons of the source give the same
    answer on both.  A record is a [gmap] from field names to text.  What
    the package takes from the Unicode database and from [html] on text
    that is not ASCII is a parameter, [Text.unicode_db].  Logging, the
    progress bar and the optional HTTP cache are left out: no decision of
    the engine reads them. *)

From stdpp Require Import gmap strings list sorting.
From Stdlib Require Import QArith.

Local Open Scope nat_scope.

(* ===================================================================== *)
(** ** difflib.SequenceMatcher(None, a, b) *)
(* ===================================================================== *)

Module Difflib.

(** A matching block [Match(a=i, b=j, size=k)]. *)
Definition block : Type := nat * nat * nat.

Definition block_size (m : block) : nat := m.2.

(** Tuple comparison, as [list.sort] uses it on the triples. *)
Definition block_leb (x y : block) : bool :=
  let '(i1, j1, k1) := x in
  let '(i2, j2, k2) := y in
  if i1 <? i2 then true else if i2 <? i1 then false
  else if j1 <? j2 then true else if j2 <? j1 then false
  else k1 <=? k2.

Fixpoint insert_block (x : block) (l : list block) : list block :=
  match l with
  | [] => [x]
  | y :: l' => if block_leb x y then x :: l else y :: insert_block x l'
  end.

Fixpoint sort_blocks (l : list block) : list block :=
  match l with
  | [] => []
  | x :: l' => insert_block x (sort_blocks l')
  end.

(** [_calculate_ratio(matches, length)]. *)
Definition calculate_ratio (matches length : nat) : Q :=
  if length =? 0 then 1%Q
  else (2 * inject_Z (Z.of_nat matches) / inject_Z (Z.of_nat length))%Q.

Section SequenceMatcher.
Context {A : Type} `{Countable A}.

(** [__chain_b]: the first loop, [b2j[elt]] lists the positions of [elt]
    in [b] in increasing order. *)
Fixpoint chain_positions (i : nat) (b : list A) (b2j : gmap A (list nat))
  : gmap A (list nat) :=
  match b with
  | [] => b2j
  | elt :: b' =>
      chain_positions (S i) b' (<[elt := default [] (b2j !! elt) ++ [i]]> b2j)
  end.

(** [__chain_b] with [isjunk = None] and [autojunk = True]: no junk; when
    [len(b) >= 200] the elements occurring more than [n // 100 + 1] times
    are popular and leave [b2j]. *)
Definition chain_b (b : list A) : gmap A (list nat) :=
  let b2j := chain_positions 0 b ∅ in
  let n := length b in
  if 200 <=? n then
    let ntest := n / 100 + 1 in
    filter (λ kv : A * list nat, length kv.2 ≤ ntest) b2j
  else b2j.

(** [j2len.get(j-1, 0)]: the key [-1] is never in the dictionary. *)
Definition j2lenget_pred (j2len : gmap nat nat) (j : nat) : nat :=
  match j with
  | 0 => 0
  | S j' => default 0 (j2len !! j')
  end.

(** The inner [for j in b2j.get(a[i], nothing)] of [find_longest_match];
    [best] is [(besti, bestj, bestsize)]. *)
Fixpoint scan_positions (i blo bhi : nat) (js : list nat)
    (j2len newj2len : gmap nat nat) (best : block)
  : gmap nat nat * block :=
  match js with
  | [] => (newj2len, best)
  | j :: js' =>
      if j <? blo then scan_positions i blo bhi js' j2len newj2len best
      else if bhi <=? j then (newj2len, best)
      else
        let k := j2lenget_pred j2len j + 1 in
        let best' := if block_size best <? k then (i + 1 - k, j + 1 - k, k)
                     else best in
        scan_positions i blo bhi js' j2len (<[j := k]> newj2len) best'
  end.

(** The outer [for i in range(alo, ahi)]. *)
Fixpoint scan_rows (a : list A) (b2j : gmap A (list nat)) (blo bhi : nat)
    (rows : list nat) (j2len : gmap nat nat) (best : block) : block :=
  match rows with
  | [] => best
  | i :: rows' =>
      let js := match a !! i with
                | Some x => default [] (b2j !! x)
                | None => []
                end in
      let '(newj2len, best') := scan_positions i blo bhi js j2len ∅ best in
      scan_rows a b2j blo bhi rows' newj2len best'
  end.

(** First [while]: extend the block to the left while the elements before
    it agree ([isbjunk] is constantly false: there is no junk). *)
Fixpoint extend_left (a b : list A) (alo blo besti bestj bestsize : nat)
  : block :=
  match besti, bestj with
  | S i', S j' =>
      if (alo <? besti) && (blo <? bestj)
         && bool_decide (a !! i' = b !! j')
      then extend_left a b alo blo i' j' (S bestsize)
      else (besti, bestj, bestsize)
  | _, _ => (besti, bestj, bestsize)
  end.

(** Second [while]: extend to the right; [room] is
    [ahi - (besti + bestsize)], which the loop test
    [besti+bestsize < ahi] counts down. *)
Fixpoint extend_right (room : nat) (a b : list A)
    (bhi besti bestj bestsize : nat) : nat :=
  match room with
  | 0 => bestsize
  | S room' =>
      if (bestj + bestsize <? bhi)
         && bool_decide (a !! (besti + bestsize) = b !! (bestj + bestsize))
      then extend_right room' a b bhi besti bestj (S bestsize)
      else bestsize
  end.

(** [find_longest_match(alo, ahi, blo, bhi)].  The two last [while] loops
    of the source only fire on junk elements and there are none. *)
Definition find_longest_match (a b : list A) (b2j : gmap A (list nat))
    (alo ahi blo bhi : nat) : block :=
  let '(besti, bestj, bestsize) :=
    scan_rows a b2j blo bhi (seq alo (ahi - alo)) ∅ (alo, blo, 0) in
  let '(besti, bestj, bestsize) :=
    extend_left a b alo blo besti bestj bestsize in
  let bestsize :=
    extend_right (ahi - (besti + bestsize)) a b bhi besti bestj bestsize in
  (besti, bestj, bestsize).

(** The [while queue:] loop of [get_matching_blocks].  The Python list
    [queue] is kept with its last element first, so [queue.pop()] is the
    head and [queue.append] is a cons.  Every turn of the loop takes one
    unit of [fuel]. *)
Fixpoint blocks_loop (fuel : nat) (a b : list A) (b2j : gmap A (list nat))
    (queue : list (nat * nat * nat * nat)) (matching_blocks : list block)
  : option (list block) :=
  match queue with
  | [] => Some matching_blocks
  | (alo, ahi, blo, bhi) :: queue' =>
      match fuel with
      | 0 => None
      | S fuel' =>
          let '(i, j, k) := find_longest_match a b b2j alo ahi blo bhi in
          if k =? 0 then blocks_loop fuel' a b b2j queue' matching_blocks
          else
            let q1 := if (alo <? i) && (blo <? j)
                      then (alo, i, blo, j) :: queue' else queue' in
            let q2 := if (i + k <? ahi) && (j + k <? bhi)
                      then (i + k, ahi, j + k, bhi) :: q1 else q1 in
            blocks_loop fuel' a b b2j q2 (matching_blocks ++ [(i, j, k)])
      end
  end.

(** The collapsing [for i2, j2, k2 in matching_blocks], with the pending
    block [(i1, j1, k1)] and the output list. *)
Fixpoint collapse (pending : block) (non_adjacent : list block)
    (matching_blocks : list block) : block * list block :=
  match matching_blocks with
  | [] => (pending, non_adjacent)
  | (i2, j2, k2) :: rest =>
      let '(i1, j1, k1) := pending in
      if (i1 + k1 =? i2) && (j1 + k1 =? j2)
      then collapse (i1, j1, k1 + k2) non_adjacent rest
      else
        collapse (i2, j2, k2)
          (if k1 =? 0 then non_adjacent else non_adjacent ++ [(i1, j1, k1)])
          rest
  end.

Definition blocks_fuel (a : list A) : nat := 2 * length a + 1.

(** [get_matching_blocks()].  [None] would mean the loop outlived its
    fuel; [blocks_loop_total] below shows it does not. *)
Definition get_matching_blocks_opt (a b : list A) : option (list block) :=
  let la := length a in
  let lb := length b in
  match blocks_loop (blocks_fuel a) a b (chain_b b) [(0, la, 0, lb)] [] with
  | None => None
  | Some matching_blocks =>
      let '((i1, j1, k1), non_adjacent) :=
        collapse (0, 0, 0) [] (sort_blocks matching_blocks) in
      let non_adjacent :=
        if k1 =? 0 then non_adjacent else non_adjacent ++ [(i1, j1, k1)] in
      Some (non_adjacent ++ [(la, lb, 0)])
  end.

Definition get_matching_blocks (a b : list A) : list block :=
  default [] (get_matching_blocks_opt a b).

(** [ratio()]. *)
Definition ratio (a b : list A) : Q :=
  let matches := sum_list_with block_size (get_matching_blocks a b) in
  calculate_ratio matches (length a + length b).

End SequenceMatcher.

End Difflib.

(* ===================================================================== *)
(** ** Python text *)
(* ===================================================================== *)

Module Text.

(** A Python [str] is its sequence of code points. *)
Abbreviation pystr := (list N).

(** An ASCII literal as a [str]. *)
Definition py (s : string) : pystr :=
  Ascii.N_of_ascii <$> String.list_ascii_of_string s.

(** What the package takes from Python's Unicode database and from the
    [html] module, on text that is not plain ASCII.  The package ships none
    of it: it is a parameter of the model. *)
Record unicode_db := {
  (** [str.isalnum()] of one code point above U+007F. *)
  uni_isalnum : N → bool;
  (** [str.isspace()] of one code point above U+007F. *)
  uni_isspace : N → bool;
  (** [str.lower()] of a string that is not all ASCII. *)
  uni_lower : pystr → pystr;
  (** [unicodedata.normalize('NFKC', s)] of a string that is not all ASCII. *)
  uni_nfkc : pystr → pystr;
  (** [unicodedata.normalize('NFKD', s)]. *)
  uni_nfkd : pystr → pystr;
  (** [html.unescape(s)] of a string that contains an ampersand. *)
  html_charref_sub : pystr → pystr
}.

Definition in_range (lo hi c : N) : bool := ((lo <=? c) && (c <=? hi))%N.

Definition is_ascii (c : N) : bool := (c <? 128)%N.

Definition ascii_letter (c : N) : bool := in_range 65 90 c || in_range 97 122 c.

Definition ascii_alnum (c : N) : bool := in_range 48 57 c || ascii_letter c.

(** ASCII white space for [str]: TAB LF VT FF CR, FS GS RS US, SPACE. *)
Definition ascii_space (c : N) : bool :=
  in_range 9 13 c || in_range 28 31 c || (c =? 32)%N.

(** [\s] in a [str] pattern, and the white space of [split()] and
    [strip()]. *)
Definition is_space (u : unicode_db) (c : N) : bool :=
  if is_ascii c then ascii_space c else uni_isspace u c.

(** [\w] in a [str] pattern: alphanumeric or underscore. *)
Definition is_word (u : unicode_db) (c : N) : bool :=
  (if is_ascii c then ascii_alnum c else uni_isalnum u c) || (c =? 95)%N.

Definition ascii_lower (c : N) : N := if in_range 65 90 c then (c + 32)%N else c.

(** [s.lower()]. *)
Definition lower (u : unicode_db) (s : pystr) : pystr :=
  if forallb is_ascii s then ascii_lower <$> s else uni_lower u s.

(** [s.split()]: the maximal runs of non-space characters; [cur] is the run
    being read, last character first. *)
Fixpoint split_from (u : unicode_db) (cur : pystr) (s : pystr) : list pystr :=
  match s with
  | [] => match cur with [] => [] | _ => [reverse cur] end
  | c :: s' =>
      if is_space u c
      then match cur with
           | [] => split_from u [] s'
           | _ => reverse cur :: split_from u [] s'
           end
      else split_from u (c :: cur) s'
  end.

Definition split (u : unicode_db) (s : pystr) : list pystr := split_from u [] s.

(** [sep.join(parts)]. *)
Fixpoint join (sep : pystr) (parts : list pystr) : pystr :=
  match parts with
  | [] => []
  | [p] => p
  | p :: rest => p ++ sep ++ join sep rest
  end.

(** Drop the longest prefix whose characters satisfy [p]. *)
Fixpoint dropwhile (p : N → bool) (s : pystr) : pystr :=
  match s with
  | c :: s' => if p c then dropwhile p s' else s
  | [] => []
  end.

(** The length of the longest prefix whose characters satisfy [p], which is
    what a greedy [p*] or [p+] consumes. *)
Fixpoint run (p : N → bool) (s : pystr) : nat :=
  match s with
  | c :: s' => if p c then S (run p s') else 0
  | [] => 0
  end.

(** [s.strip()]. *)
Definition strip (u : unicode_db) (s : pystr) : pystr :=
  reverse (dropwhile (is_space u) (reverse (dropwhile (is_space u) s))).

(** [re.sub(pattern, repl, s)] for a pattern that never matches the empty
    string.  [m pos rest] is the length of the match of the pattern that
    starts at position [pos], where [rest] is the text from there on;
    [skip] counts the characters of a match still to be passed over. *)
Fixpoint re_sub_from (m : nat → pystr → option nat) (repl : pystr → pystr)
    (pos skip : nat) (s : pystr) : pystr :=
  match s with
  | [] => []
  | c :: rest =>
      match skip with
      | S k => re_sub_from m repl (S pos) k rest
      | 0 =>
          match m pos s with
          | Some (S n) => repl (take (S n) s) ++ re_sub_from m repl (S pos) n rest
          | _ => c :: re_sub_from m repl (S pos) 0 rest
          end
      end
  end.

Definition re_sub (m : nat → pystr → option nat) (repl : pystr → pystr)
    (s : pystr) : pystr :=
  re_sub_from m repl 0 0 s.

End Text.

(* ===================================================================== *)
(** ** The title matcher: [clean_title] and [title_similarity]

    The four provider classes carry the same two methods, character for
    character. *)
(* ===================================================================== *)

Module Matcher.
Import Text.

(** [re.sub(r'[^\w\s-]', ' ', title)]: one character at a time. *)
Definition blank_special (u : unicode_db) (title : pystr) : pystr :=
  (λ c, if is_word u c || is_space u c || (c =? 45)%N then c else 32%N)
    <$> title.

(** [clean_title(title)]. *)
Definition clean_title (u : unicode_db) (title : pystr) : pystr :=
  let title := blank_special u title in
  let title := join (py " ") (split u title) in
  lower u title.

(** [title_similarity(title1, title2)]:
    [SequenceMatcher(None, clean_title(title1), clean_title(title2)).ratio()]. *)
Definition title_similarity (u : unicode_db) (title1 title2 : pystr) : Q :=
  Difflib.ratio (clean_title u title1) (clean_title u title2).

End Matcher.

(* ===================================================================== *)
(** ** The record cleaner: [BibTeXCleaner.clean_abstract] *)
(* ===================================================================== *)

Module Cleaner.
Import Text.

(** [html.unescape(text)]: the text itself when it has no ampersand. *)
Definition html_unescape (u : unicode_db) (text : pystr) : pystr :=
  if bool_decide (38%N ∈ text) then html_charref_sub u text else text.

(** [unicodedata.normalize('NFKC', text)]: ASCII text is already normal. *)
Definition nfkc (u : unicode_db) (text : pystr) : pystr :=
  if forallb is_ascii text then text else uni_nfkc u text.

(** [<[^>]+>] *)
Definition m_tag (_ : nat) (s : pystr) : option nat :=
  match s with
  | 60%N :: rest =>
      let n := run (λ c, negb (c =? 62)%N) rest in
      match n, drop n rest with
      | S _, 62%N :: _ => Some (n + 2)
      | _, _ => None
      end
  | _ => None
  end.

(** [\\[a-zA-Z]+(\{[^}]*\})?] *)
Definition m_latex (_ : nat) (s : pystr) : option nat :=
  match s with
  | 92%N :: rest =>
      let n := run ascii_letter rest in
      match n with
      | 0 => None
      | S _ =>
          match drop n rest with
          | 123%N :: inner =>
              let k := run (λ c, negb (c =? 125)%N) inner in
              match drop k inner with
              | 125%N :: _ => Some (1 + n + 1 + k + 1)
              | _ => Some (1 + n)
              end
          | _ => Some (1 + n)
          end
      end
  | _ => None
  end.

(** [\s+] *)
Definition m_spaces (u : unicode_db) (_ : nat) (s : pystr) : option nat :=
  match run (is_space u) s with 0 => None | n => Some n end.

(** [[\x00-\x08\x0B\x0C\x0E-\x1F\x7F]] *)
Definition m_control (_ : nat) (s : pystr) : option nat :=
  match s with
  | c :: _ =>
      if in_range 0 8 c || (c =? 11)%N || (c =? 12)%N || in_range 14 31 c
         || (c =? 127)%N
      then Some 1 else None
  | [] => None
  end.

(** [[^\x00-\x7F]+] *)
Definition m_non_ascii (_ : nat) (s : pystr) : option nat :=
  match run (λ c, negb (is_ascii c)) s with 0 => None | n => Some n end.

(** [^\s*[\[\{\(]|\[\{\)]\s*$]: at the very start, white space and one
    opening bracket; or, anywhere, the four characters [[{)]] followed by
    white space up to the end of the text. *)
Definition m_brackets (u : unicode_db) (pos : nat) (s : pystr) : option nat :=
  let n := run (is_space u) s in
  match pos, drop n s with
  | 0, c :: _ =>
      if (c =? 91)%N || (c =? 123)%N || (c =? 40)%N then Some (n + 1)
      else None
  | _, _ => None
  end
  ∪
  match s with
  | 91%N :: 123%N :: 41%N :: 93%N :: rest =>
      if forallb (is_space u) rest then Some (length s) else None
  | _ => None
  end.

Definition to_space (_ : pystr) : pystr := py " ".
Definition to_nothing (_ : pystr) : pystr := [].

(** [clean_abstract(text)]. *)
Definition clean_abstract (u : unicode_db) (text : option pystr)
  : option pystr :=
  match text with
  | None | Some [] => None
  | Some text =>
      let text := html_unescape u text in
      let text := re_sub m_tag to_space text in
      let text := re_sub m_latex to_space text in
      let text := nfkc u text in
      let text := (λ c, if (c =? 10)%N then 32%N else c) <$> text in
      let text := re_sub (m_spaces u) to_space text in
      let text := re_sub m_control to_nothing text in
      let text := re_sub m_non_ascii (uni_nfkd u) text in
      let text := re_sub (m_brackets u) to_nothing text in
      let text := strip u text in
      Some text
  end.

End Cleaner.

(* ===================================================================== *)
(** ** Python values decoded from JSON, and exceptions *)
(* ===================================================================== *)

Module Json.
Import Text.

(** The exceptions the provider clients raise, catch or let through. *)
Inductive exn :=
| RequestException   (* requests.exceptions.RequestException and subclasses *)
| KeyError
| IndexError
| TypeError
| AttributeError
| UnboundLocalError
| OSError.

Global Instance exn_eq_dec : EqDecision exn.
Proof. solve_decision. Defined.

(** A computation that returns a value or raises. *)
Inductive result (A : Type) :=
| Val (a : A)
| Raise (e : exn).
Global Arguments Val {A} a.
Global Arguments Raise {A} e.

Global Instance result_ret : MRet result := λ A a, Val a.
Global Instance result_bind : MBind result := λ A B f m,
  match m with
  | Val a => f a
  | Raise e => Raise e
  end.

(** What [response.json()] returns.  [JNull] is Python's [None]; [JNum] is
    an [int] or a finite [float], by its value; a [JDict] lists the items of
    the [dict] in their order, with distinct keys. *)
#[warnings="-register-all"]
Inductive json :=
| JNull
| JBool (b : bool)
| JNum (q : Q)
| JStr (s : pystr)
| JList (l : list json)
| JDict (d : list (string * json)).

(** [d.get(k)] on the items of a [dict]. *)
Fixpoint dict_get (k : string) (d : list (string * json)) : option json :=
  match d with
  | [] => None
  | (k', v) :: d' => if bool_decide (k' = k) then Some v else dict_get k d'
  end.

(** Truth value of a Python object: [if x:]. *)
Definition truthy (j : json) : bool :=
  match j with
  | JNull => false
  | JBool b => b
  | JNum q => negb (Qeq_bool q 0)
  | JStr s => negb (bool_decide (s = []))
  | JList l => negb (bool_decide (l = []))
  | JDict d => match d with [] => false | _ => true end
  end.

Fixpoint prefixb (p s : pystr) : bool :=
  match p, s with
  | [], _ => true
  | x :: p', y :: s' => (x =? y)%N && prefixb p' s'
  | _ :: _, [] => false
  end.

(** [p in s] on two [str]. *)
Fixpoint infixb (p s : pystr) : bool :=
  prefixb p s || match s with [] => false | _ :: s' => infixb p s' end.

Definition is_str (k : pystr) (j : json) : bool :=
  match j with JStr s => bool_decide (s = k) | _ => false end.

(** [k in j] for a string literal [k]: a key of a [dict], an element of a
    [list], a substring of a [str]; anything else is not iterable. *)
Definition contains (k : string) (j : json) : result bool :=
  match j with
  | JDict d => Val (bool_decide (is_Some (dict_get k d)))
  | JList l => Val (existsb (is_str (py k)) l)
  | JStr s => Val (infixb (py k) s)
  | _ => Raise TypeError
  end.

(** [j[k]] for a string literal [k]. *)
Definition getitem (j : json) (k : string) : result json :=
  match j with
  | JDict d => match dict_get k d with Some v => Val v | None => Raise KeyError end
  | _ => Raise TypeError
  end.

(** [j[0]]. *)
Definition getitem0 (j : json) : result json :=
  match j with
  | JList (x :: _) => Val x
  | JStr (c :: _) => Val (JStr [c])
  | JList [] | JStr [] => Raise IndexError
  | JDict _ => Raise KeyError
  | _ => Raise TypeError
  end.

(** The elements [for x in j] visits. *)
Definition iterate (j : json) : result (list json) :=
  match j with
  | JList l => Val l
  | JDict d => Val ((λ kv, JStr (py kv.1)) <$> d)
  | JStr s => Val ((λ c, JStr [c]) <$> s)
  | _ => Raise TypeError
  end.

(** A value used where the source declares [str].  [re.sub] raises
    [TypeError] on anything else; where Python would carry a value of
    another type along (into a URL, into the record) the model stops with
    the same [TypeError]: the records are [Dict[str, str]]. *)
Definition as_str (j : json) : result pystr :=
  match j with
  | JStr s => Val s
  | _ => Raise TypeError
  end.

(** A value returned where the source declares [Optional[str]]: text or
    [None], and a [TypeError] for anything else, as for [as_str]. *)
Definition as_optional_str (j : json) : result (option pystr) :=
  match j with
  | JStr s => Val (Some s)
  | JNull => Val None
  | _ => Raise TypeError
  end.

End Json.

(* ===================================================================== *)
(** ** The network *)
(* ===================================================================== *)

Module Net.
Import Text Json.

(** [session.get(url, params=params)]. *)
Record request := Get {
  url : pystr;
  params : list (string * pystr)
}.

(** What comes back: a [RequestException] (no connection, a time-out, or an
    error status seen by [raise_for_status()]), or a body that
    [response.json()] decodes. *)
Inductive reply :=
| Fails
| Answers (body : json).

(** The world outside: [answers n req] is the reply to [req] when it is the
    [n]-th request of the run; [sent] and [slept] record, oldest first, the
    requests made and the seconds passed to [time.sleep]. *)
Record world := World {
  answers : nat → request → reply;
  sent : list request;
  slept : list nat
}.

(** A client method: it may talk to the network, and returns or raises. *)
Definition net (A : Type) : Type := world → result A * world.

Global Instance net_ret : MRet net := λ A a w, (Val a, w).
Global Instance net_bind : MBind net := λ A B f m w,
  match m w with
  | (Val a, w') => f a w'
  | (Raise e, w') => (Raise e, w')
  end.

Definition raise {A} (e : exn) : net A := λ w, (Raise e, w).

Definition lift {A} (r : result A) : net A := λ w, (r, w).

(** [try: body  except (handled...): handler]. *)
Definition try_except {A} (body : net A) (handled : list exn)
    (handler : net A) : net A := λ w,
  match body w with
  | (Val a, w') => (Val a, w')
  | (Raise e, w') =>
      if bool_decide (e ∈ handled) then handler w' else (Raise e, w')
  end.

(** [response = session.get(...); response.raise_for_status()] followed,
    where the source reads it, by [response.json()]. *)
Definition fetch (req : request) : net json := λ w,
  let w' := World (answers w) (sent w ++ [req]) (slept w) in
  match answers w (length (sent w)) req with
  | Fails => (Raise RequestException, w')
  | Answers body => (Val body, w')
  end.

(** [time.sleep(seconds)]. *)
Definition sleep (seconds : nat) : net unit := λ w,
  (Val (), World (answers w) (sent w) (slept w ++ [seconds])).

Definition max_retries : nat := 3.
Definition retry_delay : nat := 1.

(** The retry loop the clients repeat around a request:
<<
    for attempt in range(max_retries):
        try:
            response = self.session.get(...)
            response.raise_for_status()
            break                         # or: return response.json()
        except requests.exceptions.RequestException as e:
            if attempt == max_retries - 1:
                raise
            time.sleep(retry_delay * (attempt + 1))
>>
    [attempts] is what is left of [range(max_retries)]; [None] is the loop
    running out of attempts without a reply. *)
Fixpoint fetch_retrying (attempts : list nat) (req : request)
  : net (option json) :=
  match attempts with
  | [] => mret None
  | attempt :: rest =>
      try_except (body ← fetch req; mret (Some body)) [RequestException]
        (if attempt =? max_retries - 1 then raise RequestException
         else _ ← sleep (retry_delay * (attempt + 1));
              fetch_retrying rest req)
  end.

End Net.

(* ===================================================================== *)
(** ** crossref_api.py *)
(* ===================================================================== *)

Module CrossrefAPI.
Import Text Json Net.

Definition BASE_URL : pystr := py "https://api.crossref.org/works".

(** [similarity > best_similarity] and [best_similarity >= min_similarity]
    on the ratios. *)
Definition Qgtb (x y : Q) : bool := negb (Qle_bool x y).
Definition Qgeb (x y : Q) : bool := Qle_bool y x.

(** [get_by_doi(doi)]: one request, no retry loop. *)
Definition get_by_doi (doi : pystr) : net json :=
  try_except
    (body ← fetch (Get (BASE_URL ++ py "/" ++ doi) []);
     lift (getitem body "message"))
    [RequestException]
    (mret JNull).

(** The title a search result is scored by; [None] is the [continue] of
<<
    if 'title' not in result or not result['title']:
        continue
    result_title = result['title'][0] if isinstance(result['title'], list)
                   else result['title']
>> *)
Definition result_title (result : json) : Json.result (option json) :=
  has ← contains "title" result;
  if negb has then Val None
  else
    t ← getitem result "title";
    if negb (truthy t) then Val None
    else match t with
         | JList _ => t0 ← getitem0 t; Val (Some t0)
         | _ => Val (Some t)
         end.

(** [title_similarity(title, result_title)] of a search result: [None] when
    the result is passed over. *)
Definition similarity_of (u : unicode_db) (title : pystr) (result : json)
  : Json.result (option Q) :=
  t ← result_title result;
  match t with
  | None => Val None
  | Some t => s ← as_str t; Val (Some (Matcher.title_similarity u title s))
  end.

(** The loop [for result in results] with its two variables. *)
Fixpoint best_match_loop (u : unicode_db) (title : pystr) (results : list json)
    (best_match : json) (best_similarity : Q) : Json.result (json * Q) :=
  match results with
  | [] => Val (best_match, best_similarity)
  | result :: rest =>
      similarity ← similarity_of u title result;
      match similarity with
      | None => best_match_loop u title rest best_match best_similarity
      | Some similarity =>
          if Qgtb similarity best_similarity
          then best_match_loop u title rest result similarity
          else best_match_loop u title rest best_match best_similarity
      end
  end.

(** From [if not results] to the end of [search_by_title]: the choice among
    the candidates the search returned. *)
Definition select_match (u : unicode_db) (title : pystr) (min_similarity : Q)
    (results : json) : Json.result json :=
  if negb (truthy results) then Val JNull
  else
    items ← iterate results;
    best ← best_match_loop u title items JNull 0%Q;
    if Qgeb best.2 min_similarity then Val best.1 else Val JNull.

(** [search_by_title(title, min_similarity)]. *)
Definition search_by_title (u : unicode_db) (title : pystr) (min_similarity : Q)
  : net json :=
  try_except
    (let search_title := Matcher.clean_title u title in
     let params := [("query.title"%string, search_title);
                    ("rows"%string, py "5");
                    ("select"%string, py "DOI,title,abstract")] in
     response ← fetch_retrying (seq 0 max_retries) (Get BASE_URL params);
     match response with
     | None => raise UnboundLocalError
     | Some body =>
         lift (message ← getitem body "message";
               results ← getitem message "items";
               select_match u title min_similarity results)
     end)
    [RequestException; KeyError; IndexError]
    (mret JNull).

(** [get_abstract(entry)]. *)
Definition get_abstract (entry : json) : Json.result (option pystr) :=
  has ← contains "abstract" entry;
  if negb has then Val None
  else v ← getitem entry "abstract"; as_optional_str v.

End CrossrefAPI.

(* ===================================================================== *)
(** ** semantic_scholar_api.py *)
(* ===================================================================== *)

Module SemanticScholarAPI.
Import Text Json Net.

Definition BASE_URL : pystr := py "https://api.semanticscholar.org/v1".

(** [get_by_doi(doi)]. *)
Definition get_by_doi (doi : pystr) : net json :=
  try_except
    (response ← fetch_retrying (seq 0 max_retries)
                  (Get (BASE_URL ++ py "/paper/" ++ doi) []);
     mret (default JNull response))
    [RequestException]
    (mret JNull).

(** [x == 0]. *)
Definition equals_zero (j : json) : bool :=
  match j with
  | JNum q => Qeq_bool q 0
  | JBool b => negb b
  | _ => false
  end.

(** The score of one paper of the search; [None] is the [continue] of
    [if 'title' not in paper]. *)
Definition similarity_of (u : unicode_db) (title : pystr) (paper : json)
  : Json.result (option Q) :=
  has ← contains "title" paper;
  if negb has then Val None
  else
    t ← getitem paper "title";
    s ← as_str t;
    Val (Some (Matcher.title_similarity u title s)).

(** The loop [for paper in data['papers']]. *)
Fixpoint best_match_loop (u : unicode_db) (title : pystr) (papers : list json)
    (best_match : json) (best_similarity : Q) : Json.result (json * Q) :=
  match papers with
  | [] => Val (best_match, best_similarity)
  | paper :: rest =>
      similarity ← similarity_of u title paper;
      match similarity with
      | None => best_match_loop u title rest best_match best_similarity
      | Some similarity =>
          if CrossrefAPI.Qgtb similarity best_similarity
          then best_match_loop u title rest paper similarity
          else best_match_loop u title rest best_match best_similarity
      end
  end.

(** [best_match.get('paperId')]. *)
Definition get_paper_id (best_match : json) : Json.result json :=
  match best_match with
  | JDict d => Val (default JNull (dict_get "paperId" d))
  | _ => Raise AttributeError
  end.

(** [search_by_title(title, min_similarity)]; the request for the details of
    the paper found is made once, outside the retry loop. *)
Definition search_by_title (u : unicode_db) (title : pystr) (min_similarity : Q)
  : net json :=
  try_except
    (let search_title := Matcher.clean_title u title in
     let params := [("query"%string, search_title); ("limit"%string, py "5")] in
     response ← fetch_retrying (seq 0 max_retries)
                  (Get (BASE_URL ++ py "/paper/search") params);
     match response with
     | None => raise UnboundLocalError
     | Some data =>
         total ← lift (getitem data "total");
         if equals_zero total then mret JNull
         else
           papers ← lift (papers ← getitem data "papers"; iterate papers);
           best ← lift (best_match_loop u title papers JNull 0%Q);
           if CrossrefAPI.Qgeb best.2 min_similarity then
             paper_id ← lift (get_paper_id best.1);
             if truthy paper_id then
               id ← lift (as_str paper_id);
               fetch (Get (BASE_URL ++ py "/paper/" ++ id) [])
             else mret best.1
           else mret JNull
     end)
    [RequestException; KeyError; IndexError]
    (mret JNull).

(** [get_abstract(entry)]: [entry.get('abstract')]. *)
Definition get_abstract (entry : json) : Json.result (option pystr) :=
  match entry with
  | JDict d => as_optional_str (default JNull (dict_get "abstract" d))
  | _ => Raise AttributeError
  end.

End SemanticScholarAPI.

(* ===================================================================== *)
(** ** enrich.py: the enrichment engine *)
(* ===================================================================== *)

Module Engine.
Import Text Json.

(** A BibTeX entry, [Dict[str, str]]. *)
Abbreviation entry := (gmap string pystr).

Inductive provider := Elsevier | PubMed | Crossref | SemanticScholar.

Global Instance provider_eq_dec : EqDecision provider.
Proof. solve_decision. Defined.

(** The two operations of a client: [get_by_doi] ([get_by_pmid] for PubMed)
    and [search_by_title]. *)
Inductive operation := ById | ByTitle.

Global Instance operation_eq_dec : EqDecision operation.
Proof. solve_decision. Defined.

(** One call of the engine to a provider client. *)
Record call := Call {
  call_provider : provider;
  call_operation : operation;
  call_argument : pystr
}.

(** [stats], the dictionary [enrich_file] returns. *)
Record stats := Stats {
  total : nat;
  enriched : nat;
  failed : nat;
  already_had_abstract : nat
}.

Section Engine.
(** [W] is whatever the clients act on: the network, a cache, a mock. *)
Context {W : Type}.

(** A provider client as the engine uses it.  [search_by_title] is called
    with the title alone, so with [min_similarity = 0.85]. *)
Record client := Client {
  get_by_id : pystr → W → result json * W;
  search_by_title : pystr → W → result json * W;
  get_abstract : json → result (option pystr)
}.

(** The attributes of a [BibTeXEnricher]: PubMed is there when an email was
    given, Elsevier when an API key was. *)
Record enricher := Enricher {
  crossref : client;
  semantic_scholar : client;
  pubmed : option client;
  elsevier : option client
}.

(** [BibTeXEnricher(...)], given the four client objects its arguments
    build: [self.pubmed] and [self.elsevier] are [None] without the email
    or the key. *)
Definition new_enricher (crossref_api semantic_scholar_api : client)
    (pubmed_api elsevier_api : client)
    (pubmed_email elsevier_api_key : option pystr) : enricher :=
  Enricher crossref_api semantic_scholar_api
    (match pubmed_email with Some (_ :: _) => Some pubmed_api | _ => None end)
    (match elsevier_api_key with Some (_ :: _) => Some elsevier_api | _ => None end).

(** What a run of the engine changes: what the clients act on, the calls made to
    the clients (oldest first), and the files, each holding the entries of
    a BibTeX database. *)
Record state := State {
  outside : W;
  calls : list call;
  files : gmap string (list entry)
}.

Definition eng (A : Type) : Type := state → result A * state.

#[global] Instance eng_ret : MRet eng := λ A a st, (Val a, st).
#[global] Instance eng_bind : MBind eng := λ A B f m st,
  match m st with
  | (Val a, st') => f a st'
  | (Raise e, st') => (Raise e, st')
  end.

Definition lift {A} (r : result A) : eng A := λ st, (r, st).

(** The client method an operation names. *)
Definition method (op : operation) (c : client)
  : pystr → W → result json * W :=
  match op with
  | ById => get_by_id c
  | ByTitle => search_by_title c
  end.

(** A call to a client method. *)
Definition invoke (p : provider) (op : operation) (c : client) (arg : pystr)
  : eng json := λ st,
  let '(r, w) := method op c arg (outside st) in
  (r, State w (calls st ++ [Call p op arg]) (files st)).

(** [if s:] on an optional string. *)
Definition nonempty (s : option pystr) : bool :=
  match s with
  | Some (_ :: _) => true
  | _ => false
  end.

(** ['abstract' in entry and entry['abstract']]. *)
Definition has_abstract (e : entry) : bool := nonempty (e !! "abstract").

(** One provider step, the block the source repeats eight times:
<<
    data = client.get_by_doi(doi)          # or search_by_title(entry['title'])
    if data:
        abstract = client.get_abstract(data)
        if abstract:
            entry['abstract'] = abstract
            return entry
>>
    [Some entry'] is the [return entry]; [None] falls through. *)
Definition attempt (p : provider) (op : operation) (c : client) (arg : pystr)
    (e : entry) : eng (option entry) :=
  data ← invoke p op c arg;
  if truthy data then
    abstract ← lift (get_abstract c data);
    match abstract with
    | Some (x :: a) => mret (Some (<["abstract" := x :: a]> e))
    | _ => mret None
    end
  else mret None.

(** [step; rest] where [step] may have executed [return entry]. *)
Definition unless_returned (step : eng (option entry)) (rest : eng entry)
  : eng entry :=
  r ← step;
  match r with
  | Some e => mret e
  | None => rest
  end.

(** [if cond: step], for a step that may return. *)
Definition when (cond : bool) (step : eng (option entry)) : eng (option entry) :=
  if cond then step else mret None.

(** [if doi: step(doi)]: the text is there and not empty. *)
Definition with_text (s : option pystr) (step : pystr → eng (option entry))
  : eng (option entry) :=
  match s with
  | Some (x :: s') => step (x :: s')
  | _ => mret None
  end.

(** [if key in entry: step(entry[key])]. *)
Definition with_field (key : string) (e : entry)
    (step : pystr → eng (option entry)) : eng (option entry) :=
  match e !! key with
  | Some v => step v
  | None => mret None
  end.

(** The first lines of [enrich_entry] after the two early returns: the DOI of
    the entry or, failing that, the one a Crossref title search finds, which
    is also written to the entry.  Returns [(doi, entry)].  The entry is a
    [Dict[str, str]]: a ['DOI'] that is not text has no place in it, and the
    model raises [TypeError] there. *)
Definition discover_doi (self : enricher) (e : entry)
  : eng (option pystr * entry) :=
  let doi := e !! "doi" in
  match e !! "title" with
  | Some title =>
      if negb (nonempty doi) then
        crossref_data ← invoke Crossref ByTitle (crossref self) title;
        if truthy crossref_data then
          has ← lift (contains "DOI" crossref_data);
          if negb has then mret (doi, e)
          else
            doi ← lift (v ← getitem crossref_data "DOI"; as_str v);
            mret (Some doi, <["doi" := doi]> e)
        else mret (doi, e)
      else mret (doi, e)
  | None => mret (doi, e)
  end.

(** The provider blocks of [enrich_entry], in the order of the source. *)
Definition try_elsevier (self : enricher) (use_elsevier : bool)
    (doi : option pystr) (e : entry) : eng (option entry) :=
  match elsevier self with
  | Some c =>
      when use_elsevier
        (r ← with_text doi (λ doi, attempt Elsevier ById c doi e);
         match r with
         | Some e' => mret (Some e')
         | None => with_field "title" e (λ title, attempt Elsevier ByTitle c title e)
         end)
  | None => mret None
  end.

Definition try_pubmed (self : enricher) (use_pubmed : bool) (e : entry)
  : eng (option entry) :=
  match pubmed self with
  | Some c =>
      when use_pubmed
        (r ← with_field "pmid" e (λ pmid, attempt PubMed ById c pmid e);
         match r with
         | Some e' => mret (Some e')
         | None => with_field "title" e (λ title, attempt PubMed ByTitle c title e)
         end)
  | None => mret None
  end.

Definition try_crossref (self : enricher) (doi : option pystr) (e : entry)
  : eng (option entry) :=
  r ← with_text doi (λ doi, attempt Crossref ById (crossref self) doi e);
  match r with
  | Some e' => mret (Some e')
  | None =>
      with_field "title" e
        (λ title, attempt Crossref ByTitle (crossref self) title e)
  end.

Definition try_semantic_scholar (self : enricher) (use_semantic_scholar : bool)
    (doi : option pystr) (e : entry) : eng (option entry) :=
  when use_semantic_scholar
    (r ← with_text doi
           (λ doi, attempt SemanticScholar ById (semantic_scholar self) doi e);
     match r with
     | Some e' => mret (Some e')
     | None =>
         with_field "title" e
           (λ title, attempt SemanticScholar ByTitle (semantic_scholar self)
                       title e)
     end).

(** [enrich_entry(entry, use_semantic_scholar, use_pubmed, use_elsevier,
    dry_run)].  The entry is a dictionary changed in place; the model
    returns the changed entry. *)
Definition enrich_entry (self : enricher) (e : entry)
    (use_semantic_scholar use_pubmed use_elsevier dry_run : bool)
  : eng entry :=
  if dry_run then mret e
  else if has_abstract e then mret e
  else
    found ← discover_doi self e;
    let '(doi, e) := found in
    unless_returned (try_elsevier self use_elsevier doi e)
      (unless_returned (try_pubmed self use_pubmed e)
         (unless_returned (try_crossref self doi e)
            (unless_returned
               (try_semantic_scholar self use_semantic_scholar doi e)
               (mret e)))).

(** [BibIO.load_bibtex(path)]: the entries of the file, in file order.
    A path without a file is one that [open] refuses, with an [OSError];
    a file that cannot be decoded or parsed is not among the files of this
    model. *)
Definition load_bibtex (path : string) : eng (list entry) := λ st,
  match files st !! path with
  | Some entries => (Val entries, st)
  | None => (Raise OSError, st)
  end.

(** [BibIO.save_bibtex(database, path)].  The store keeps, for a path, the
    records of the database written there, as the database lists them: the
    order in which the writer prints them (by author, year and title) and
    the failures of the file system while writing are not modelled. *)
Definition save_bibtex (entries : list entry) (path : string) : eng unit :=
  λ st, (Val (), State (outside st) (calls st) (<[path := entries]> (files st))).

(** The body of [for i, entry in enumerate(bib_db.entries, 1)]: the counters
    after the entry, and the entry as the call left it. *)
Definition process_entry (self : enricher)
    (use_semantic_scholar use_pubmed use_elsevier dry_run : bool)
    (st : stats) (e : entry) : eng (stats * entry) :=
  let had_abstract := has_abstract e in
  enriched_entry ← enrich_entry self e use_semantic_scholar use_pubmed
                     use_elsevier dry_run;
  let st' :=
    if had_abstract then
      Stats (total st) (enriched st) (failed st) (already_had_abstract st + 1)
    else if has_abstract enriched_entry then
      Stats (total st) (enriched st + 1) (failed st) (already_had_abstract st)
    else
      Stats (total st) (enriched st) (failed st + 1) (already_had_abstract st) in
  mret (st', enriched_entry).

(** The loop over the entries; [done] are the entries already processed. *)
Fixpoint process_entries (self : enricher)
    (use_semantic_scholar use_pubmed use_elsevier dry_run : bool)
    (st : stats) (done todo : list entry) : eng (stats * list entry) :=
  match todo with
  | [] => mret (st, done)
  | e :: todo' =>
      r ← process_entry self use_semantic_scholar use_pubmed use_elsevier
            dry_run st e;
      process_entries self use_semantic_scholar use_pubmed use_elsevier dry_run
        r.1 (done ++ [r.2]) todo'
  end.

(** [enrich_file(input_path, output_path, use_semantic_scholar, use_pubmed,
    use_elsevier, dry_run)]. *)
Definition enrich_file (self : enricher) (input_path output_path : string)
    (use_semantic_scholar use_pubmed use_elsevier dry_run : bool)
  : eng stats :=
  let st := Stats 0 0 0 0 in
  entries ← load_bibtex input_path;
  let st := Stats (length entries) (enriched st) (failed st)
              (already_had_abstract st) in
  r ← process_entries self use_semantic_scholar use_pubmed use_elsevier dry_run
        st [] entries;
  _ ← (if negb dry_run then save_bibtex r.2 output_path else mret ());
  mret r.1.

End Engine.

Global Arguments client : clear implicits.
Global Arguments enricher : clear implicits.
Global Arguments state : clear implicits.
Global Arguments eng : clear implicits.

End Engine.

(* ===================================================================== *)
(** ** The fallback policy in the words of the specification

    "Fixed provider priority: Elsevier, PubMed, Crossref, Semantic Scholar;
    within each provider, identifier lookup first, then title search; the
    first provider step yielding a non-empty abstract wins and the
    remaining ones are skipped."  [enrich_entry] is compared with this
    below. *)
(* ===================================================================== *)

Module Policy.
Import Text Json Engine.

Section Policy.
Context {W : Type}.

(** One provider step: which client, which operation, on what. *)
Record step := Step {
  step_provider : provider;
  step_operation : operation;
  step_client : client W;
  step_argument : pystr
}.

Definition step_call (s : step) : call :=
  Call (step_provider s) (step_operation s) (step_argument s).

(** The rank of a provider in the fixed priority. *)
Definition priority (p : provider) : nat :=
  match p with
  | Elsevier => 0
  | PubMed => 1
  | Crossref => 2
  | SemanticScholar => 3
  end.

(** [s1] comes before [s2]: a provider of higher priority, or the
    identifier lookup and the title search of one provider. *)
Definition before (s1 s2 : step) : Prop :=
  priority (step_provider s1) < priority (step_provider s2)
  ∨ (step_provider s1 = step_provider s2
     ∧ step_operation s1 = ById ∧ step_operation s2 = ByTitle).

(** The steps of one provider for one record: the identifier lookup when an
    identifier is known, then the title search when there is a title. *)
Definition provider_steps (p : provider) (c : client W)
    (identifier title : option pystr) : list step :=
  option_list (Step p ById c <$> identifier)
  ++ option_list (Step p ByTitle c <$> title).

(** A text that is present and not empty. *)
Definition known (s : option pystr) : option pystr :=
  match s with
  | Some (x :: s') => Some (x :: s')
  | _ => None
  end.

(** The steps for a record, in priority order; a provider that is switched
    off or was not constructed has none. *)
Definition priority_steps (self : enricher W)
    (use_semantic_scholar use_pubmed use_elsevier : bool)
    (doi : option pystr) (e : entry) : list step :=
  (match elsevier self with
   | Some c => if use_elsevier
               then provider_steps Elsevier c (known doi) (e !! "title")
               else []
   | None => []
   end)
  ++ (match pubmed self with
      | Some c => if use_pubmed
                  then provider_steps PubMed c (e !! "pmid") (e !! "title")
                  else []
      | None => []
      end)
  ++ provider_steps Crossref (crossref self) (known doi) (e !! "title")
  ++ (if use_semantic_scholar
      then provider_steps SemanticScholar (semantic_scholar self) (known doi)
             (e !! "title")
      else []).

(** The switch of a provider among the arguments of [enrich_entry]:
    Crossref has none. *)
Definition switched_on (use_semantic_scholar use_pubmed use_elsevier : bool)
    (p : provider) : bool :=
  match p with
  | Elsevier => use_elsevier
  | PubMed => use_pubmed
  | Crossref => true
  | SemanticScholar => use_semantic_scholar
  end.

(** The client object of a provider, when the enricher has one. *)
Definition provider_client (self : enricher W) (p : provider)
  : option (client W) :=
  match p with
  | Elsevier => elsevier self
  | PubMed => pubmed self
  | Crossref => Some (crossref self)
  | SemanticScholar => Some (semantic_scholar self)
  end.

(** No call of the list goes to provider [p]. *)
Definition never_calls (p : provider) (cs : list call) : Prop :=
  ∀ c, c ∈ cs → call_provider c ≠ p.

(** Go through the steps in order; the first one that yields a non-empty
    abstract writes it to the record and ends the search. *)
Fixpoint first_abstract_wins (steps : list step) (e : entry) : eng W entry :=
  match steps with
  | [] => mret e
  | s :: rest =>
      unless_returned
        (attempt (step_provider s) (step_operation s) (step_client s)
           (step_argument s) e)
        (first_abstract_wins rest e)
  end.

End Policy.

Global Arguments step : clear implicits.

End Policy.

(* ===================================================================== *)
(** ** The engine on the two clients modelled above *)
(* ===================================================================== *)

Module Wiring.
Import Text Json Engine.

(** [min_similarity = 0.85], the default of every [search_by_title].  The
    float [0.85] and the rational [17/20] separate the same ratios
    [2*M/T] for every total length [T] a title pair can have. *)
Definition default_min_similarity : Q := 17 # 20.

Definition crossref_client (u : unicode_db) : client Net.world :=
  Client CrossrefAPI.get_by_doi
    (λ title, CrossrefAPI.search_by_title u title default_min_similarity)
    CrossrefAPI.get_abstract.

Definition semantic_scholar_client (u : unicode_db) : client Net.world :=
  Client SemanticScholarAPI.get_by_doi
    (λ title, SemanticScholarAPI.search_by_title u title default_min_similarity)
    SemanticScholarAPI.get_abstract.

(** [BibTeXEnricher()] with no PubMed email and no Elsevier key. *)
Definition plain_enricher (u : unicode_db) : enricher Net.world :=
  Enricher (crossref_client u) (semantic_scholar_client u) None None.

End Wiring.

(* ===================================================================== *)
(** ** Records, clients and networks to run the model on *)
(* ===================================================================== *)

Module Fixtures.
Import Text Json Net Engine.

(** A Unicode database that is never asked: the texts below are ASCII. *)
Definition ascii_only : unicode_db :=
  {| uni_isalnum := λ _, false;
     uni_isspace := λ _, false;
     uni_lower := λ s, s;
     uni_nfkc := λ s, s;
     uni_nfkd := λ s, s;
     html_charref_sub := λ s, s |}.

(** A client that never finds anything, and one that answers every call
    with a payload carrying [text] as its abstract. *)
Definition silent : client unit :=
  Client (λ _ w, (Val JNull, w)) (λ _ w, (Val JNull, w)) (λ _, Val None).

Definition helpful (text : pystr) : client unit :=
  Client (λ _ w, (Val (JDict [("abstract"%string, JStr text)]), w))
         (λ _ w, (Val (JDict [("abstract"%string, JStr text)]), w))
         CrossrefAPI.get_abstract.

(** All four providers constructed, none of them finding anything. *)
Definition all_silent : enricher unit :=
  Enricher silent silent (Some silent) (Some silent).

(** Elsevier and PubMed find nothing, Crossref has the abstract. *)
Definition crossref_helps (text : pystr) : enricher unit :=
  Enricher (helpful text) silent (Some silent) (Some silent).

(** Crossref finds a DOI for every title and has no abstract for it. *)
Definition doi_finder : client unit :=
  Client (λ _ w, (Val JNull, w))
         (λ _ w, (Val (JDict [("DOI"%string, JStr (py "10.1/x"))]), w))
         CrossrefAPI.get_abstract.

Definition only_doi_found : enricher unit :=
  Enricher doi_finder silent (Some silent) (Some silent).

Definition start : state unit := State () [] ∅.

Definition title_only : entry := {[ "title"%string := py "T" ]}.
Definition doi_only : entry := {[ "doi"%string := py "10.1/x" ]}.
Definition with_abstract : entry :=
  {[ "title"%string := py "T"; "abstract"%string := py "A" ]}.

(** A network that gives the replies of [script] in turn, then fails. *)
Definition scripted (script : list reply) : world :=
  World (λ n _, nth n script Fails) [] [].

Definition online (script : list reply) : state world :=
  State (scripted script) [] ∅.

(** A Crossref work whose abstract carries markup. *)
Definition tagged_work : reply :=
  Answers (JDict [("message"%string,
                   JDict [("abstract"%string, JStr (py "<p>Foo</p>"))])]).

(** The scenario of the specification: one record with a title; the
    Crossref searches find the DOI and no abstract, Semantic Scholar has
    the abstract for the DOI. *)
Definition attention : entry :=
  {[ "title"%string := py "Attention Is All You Need" ]}.

Definition attention_work : json :=
  JDict [("DOI"%string, JStr (py "10.5555/attn"));
         ("title"%string, JList [JStr (py "Attention Is All You Need")])].

Definition attention_script : list reply :=
  [ Answers (JDict [("message"%string,
                     JDict [("items"%string, JList [attention_work])])]);
    Answers (JDict [("message"%string, attention_work)]);
    Answers (JDict [("message"%string,
                     JDict [("items"%string, JList [attention_work])])]);
    Answers (JDict [("abstract"%string, JStr (py "We propose..."))]) ].

Definition attention_library : state world :=
  State (scripted attention_script) [] {[ "in.bib"%string := [attention] ]}.

(** Three search results: the second and the third tie for the best score
    with the query [deep learning], the first is further away. *)
Definition candidate (title : string) (doi : string) : json :=
  JDict [("DOI"%string, JStr (py doi)); ("title"%string, JList [JStr (py title)])].

Definition three_candidates : list json :=
  [ candidate "Deep Earning" "10.1/a";
    candidate "Deep Learning!" "10.1/b";
    candidate "deep learning" "10.1/c" ].

End Fixtures.

(* ===================================================================== *)
(** ** What the loops of the model keep true

    The predicates and measures the proofs below are stated with. *)
(* ===================================================================== *)

(* ===================================================================== *)
(** ** elsevier_api.py *)
(* ===================================================================== *)

Module ElsevierAPI.
Import Text Json Net.

Definition ABSTRACT_URL : pystr :=
  py "https://api.elsevier.com/content/abstract/doi/".

Definition SEARCH_URL : pystr :=
  py "https://api.elsevier.com/content/search/scopus".

(** [try: body  except (handled...): return handler] around code that does
    not talk to the network. *)
Definition catching {A} (body : Json.result A) (handled : list exn)
    (handler : Json.result A) : Json.result A :=
  match body with
  | Val a => Val a
  | Raise e => if bool_decide (e ∈ handled) then handler else Raise e
  end.

(** The retry loop of the clients around a whole body, as [search_by_title]
    has it here: the request and what is done with the reply are both
    inside the inner [try]. *)
Fixpoint retrying {A} (attempts : list nat) (body : net A) : net (option A) :=
  match attempts with
  | [] => mret None
  | attempt :: rest =>
      try_except (a ← body; mret (Some a)) [RequestException]
        (if attempt =? max_retries - 1 then raise RequestException
         else _ ← sleep (retry_delay * (attempt + 1));
              retrying rest body)
  end.

(** [get_by_doi(doi)]: the Abstract Retrieval API, in the retry loop. *)
Definition get_by_doi (doi : pystr) : net json :=
  try_except
    (response ← fetch_retrying (seq 0 max_retries)
                  (Get (ABSTRACT_URL ++ doi) [("view"%string, py "FULL")]);
     mret (default JNull response))
    [RequestException]
    (mret JNull).

(** The score of one entry of the search; [None] is the [continue] of
    [if 'dc:title' not in entry]. *)
Definition similarity_of (u : unicode_db) (title : pystr) (entry : json)
  : Json.result (option Q) :=
  has ← contains "dc:title" entry;
  if negb has then Val None
  else
    t ← getitem entry "dc:title";
    s ← as_str t;
    Val (Some (Matcher.title_similarity u title s)).

(** The loop [for entry in data['search-results']['entry']]. *)
Fixpoint best_match_loop (u : unicode_db) (title : pystr) (entries : list json)
    (best_match : json) (best_similarity : Q) : Json.result (json * Q) :=
  match entries with
  | [] => Val (best_match, best_similarity)
  | entry :: rest =>
      similarity ← similarity_of u title entry;
      match similarity with
      | None => best_match_loop u title rest best_match best_similarity
      | Some similarity =>
          if CrossrefAPI.Qgtb similarity best_similarity
          then best_match_loop u title rest entry similarity
          else best_match_loop u title rest best_match best_similarity
      end
  end.

(** The request of the Scopus search: [title("...")] around the title as
    given, not the cleaned one. *)
Definition search_request (title : pystr) : request :=
  Get SEARCH_URL
    [("query"%string, py "title(" ++ [34%N] ++ title ++ [34%N] ++ py ")");
     ("field"%string, py "doi,title,abstract");
     ("count"%string, py "5")].

(** What the search does with a reply, from [data = response.json()] to
    the two [return]s. *)
Definition pick_and_fetch (u : unicode_db) (title : pystr) (min_similarity : Q)
    (data : json) : net json :=
  has ← lift (contains "search-results" data);
  if negb has then mret JNull
  else
    results ← lift (getitem data "search-results");
    has ← lift (contains "entry" results);
    if negb has then mret JNull
    else
      entries ← lift (entries ← getitem results "entry"; iterate entries);
      best ← lift (best_match_loop u title entries JNull 0%Q);
      if negb (CrossrefAPI.Qgeb best.2 min_similarity && truthy best.1)
      then mret JNull
      else
        has ← lift (contains "prism:doi" best.1);
        if negb has then mret JNull
        else
          doi ← lift (doi ← getitem best.1 "prism:doi"; as_str doi);
          get_by_doi doi.

(** [search_by_title(title, min_similarity)]. *)
Definition search_by_title (u : unicode_db) (title : pystr) (min_similarity : Q)
  : net json :=
  try_except
    (response ← retrying (seq 0 max_retries)
                  (data ← fetch (search_request title);
                   pick_and_fetch u title min_similarity data);
     mret (default JNull response))
    [RequestException]
    (mret JNull).

(** The [coredata] description of one of the two responses. *)
Definition description_of (entry : json) (response : string)
  : Json.result (option pystr) :=
  r ← getitem entry response;
  core_data ← getitem r "coredata";
  has ← contains "dc:description" core_data;
  if negb has then Val None
  else v ← getitem core_data "dc:description"; as_optional_str v.

(** The [elif 'full-text-retrieval-response' in entry] of [get_abstract]. *)
Definition full_text_description (entry : json)
  : Json.result (option pystr) :=
  has ← contains "full-text-retrieval-response" entry;
  if negb has then Val None
  else description_of entry "full-text-retrieval-response".

(** [get_abstract(entry)]. *)
Definition get_abstract (entry : json) : Json.result (option pystr) :=
  catching
    (has ← contains "abstracts-retrieval-response" entry;
     if negb has then full_text_description entry
     else description_of entry "abstracts-retrieval-response")
    [KeyError; IndexError]
    (Val None).

End ElsevierAPI.

(* ===================================================================== *)
(** ** pubmed_api.py: [get_abstract]

    The two requests of this client go through [Bio.Entrez], which is not
    part of the package; what it extracts from a record is. *)
(* ===================================================================== *)

Module PubMedAPI.
Import Text Json.

(** [get_abstract(entry)]. *)
Definition get_abstract (entry : json) : Json.result (option pystr) :=
  ElsevierAPI.catching
    (citation ← getitem entry "MedlineCitation";
     article ← getitem citation "Article";
     has ← contains "Abstract" article;
     if negb has then Val None
     else
       abstract ← getitem article "Abstract";
       text ← getitem abstract "AbstractText";
       first ← getitem0 text;
       as_optional_str first)
    [KeyError; IndexError]
    (Val None).

End PubMedAPI.

(* ===================================================================== *)
(** ** cleaner.py: [clean_title], [clean_author], [clean_entry] *)
(* ===================================================================== *)

Module BibTeXCleaner.
Import Text Cleaner.

(** [clean_title(text)]. *)
Definition clean_title (u : unicode_db) (text : option pystr)
  : option pystr :=
  match text with
  | None | Some [] => None
  | Some text =>
      let text := html_unescape u text in
      let text := re_sub m_tag to_space text in
      let text := nfkc u text in
      let text := re_sub (m_spaces u) to_space text in
      let text := strip u text in
      Some text
  end.

(** [\s*,\s*] *)
Definition m_comma (u : unicode_db) (_ : nat) (s : pystr) : option nat :=
  let n := run (is_space u) s in
  match drop n s with
  | 44%N :: rest => Some (n + 1 + run (is_space u) rest)
  | _ => None
  end.

(** [\s*and\s*] *)
Definition m_and (u : unicode_db) (_ : nat) (s : pystr) : option nat :=
  let n := run (is_space u) s in
  match drop n s with
  | 97%N :: 110%N :: 100%N :: rest => Some (n + 3 + run (is_space u) rest)
  | _ => None
  end.

(** [clean_author(text)]. *)
Definition clean_author (u : unicode_db) (text : option pystr)
  : option pystr :=
  match text with
  | None | Some [] => None
  | Some text =>
      let text := html_unescape u text in
      let text := re_sub m_tag to_space text in
      let text := nfkc u text in
      let text := re_sub (m_spaces u) to_space text in
      let text := re_sub (m_comma u) (λ _, py ", ") text in
      let text := re_sub (m_and u) (λ _, py " and ") text in
      let text := strip u text in
      Some text
  end.

(** [if key in cleaned: cleaned[key] = clean(cleaned[key])]; a field of the
    copy holds a text or, once cleaned, [None]. *)
Definition clean_field (key : string) (clean : option pystr → option pystr)
    (cleaned : gmap string (option pystr)) : gmap string (option pystr) :=
  match cleaned !! key with
  | Some v => <[key := clean v]> cleaned
  | None => cleaned
  end.

(** [v is not None and v != ''] *)
Definition kept (v : option pystr) : option pystr :=
  match v with
  | Some (x :: s) => Some (x :: s)
  | _ => None
  end.

(** [clean_entry(entry)]. *)
Definition clean_entry (u : unicode_db) (entry : gmap string pystr)
  : gmap string pystr :=
  let cleaned : gmap string (option pystr) := Some <$> entry in
  let cleaned := clean_field "abstract" (clean_abstract u) cleaned in
  let cleaned := clean_field "title" (clean_title u) cleaned in
  let cleaned := clean_field "author" (clean_author u) cleaned in
  omap kept cleaned.

End BibTeXCleaner.

(* ===================================================================== *)
(** ** bibio.py: [get_entry_identifier] *)
(* ===================================================================== *)

Module BibIO.
Import Text.

(** [get_entry_identifier(entry)]. *)
Definition get_entry_identifier (entry : gmap string pystr) : pystr :=
  match entry !! "doi" with
  | Some doi => py "DOI:" ++ doi
  | None => py "Title:" ++ default (py "Unknown") (entry !! "title")
  end.

End BibIO.

(* ===================================================================== *)
(** ** app.py: [StreamlitLogHandler] *)
(* ===================================================================== *)

Module StreamlitLogHandler.
Import Text.

(** The handler: the messages it keeps, and what its container shows
    ([None] before the first message). *)
Record handler := Handler {
  log_text : list pystr;
  container : option pystr
}.

(** [StreamlitLogHandler(container)]. *)
Definition new : handler := Handler [] None.

(** [emit(record)], for the formatted record [log_entry]. *)
Definition emit (self : handler) (log_entry : pystr) : handler :=
  let log_text := log_text self ++ [log_entry] in
  let log_text := if 10 <? length log_text then tail log_text else log_text in
  let log_message := join [10%N] log_text in
  Handler log_text (Some log_message).

End StreamlitLogHandler.

(* ===================================================================== *)
(** ** The engine with the Elsevier client *)
(* ===================================================================== *)

Module ElsevierWiring.
Import Text Json Engine Wiring.

Definition elsevier_client (u : unicode_db) : client Net.world :=
  Client ElsevierAPI.get_by_doi
    (λ title, ElsevierAPI.search_by_title u title default_min_similarity)
    ElsevierAPI.get_abstract.

(** [BibTeXEnricher(elsevier_api_key=key)] for a key that is not empty, and
    no PubMed email. *)
Definition keyed_enricher (u : unicode_db) : enricher Net.world :=
  Enricher (crossref_client u) (semantic_scholar_client u) None
    (Some (elsevier_client u)).

End ElsevierWiring.

(* ===================================================================== *)
(** ** What the properties of the files and of the costs speak of *)
(* ===================================================================== *)

Module Accounts.
Import Text Json Engine Policy.

(** How many records of a list have an abstract. *)
Definition with_abstracts (l : list entry) : nat :=
  length (filter (λ e, has_abstract e = true) l).

Section Accounts.
Context {W : Type}.

(** [e'] is what some call of [enrich_entry] made of [e]. *)
Definition outcome_of (self : enricher W) (uss upm uel dry : bool)
    (e e' : entry) : Prop :=
  ∃ st1 st2, enrich_entry self e uss upm uel dry st1 = (Val e', st2).

(** Every method of client [c] adds at most [cost op] to the measure
    [size] of what the clients act on. *)
Definition costs_at_most (size : W → nat) (cost : operation → nat)
    (c : client W) : Prop :=
  ∀ op arg w, size (method op c arg w).2 ≤ size w + cost op.

(** The price of every call a record can lead to: the search for a DOI and
    the two operations of every provider that is constructed and switched
    on. *)
Definition budget (self : enricher W) (uss upm uel : bool)
    (cost : provider → operation → nat) : nat :=
  cost Crossref ByTitle
  + (if elsevier self is Some _
     then if uel then cost Elsevier ById + cost Elsevier ByTitle else 0
     else 0)
  + (if pubmed self is Some _
     then if upm then cost PubMed ById + cost PubMed ByTitle else 0
     else 0)
  + (cost Crossref ById + cost Crossref ByTitle)
  + (if uss then cost SemanticScholar ById + cost SemanticScholar ByTitle
     else 0).

(** What the calls of a list of steps cost together. *)
Definition steps_cost (cost : provider → operation → nat)
    (steps : list (step W)) : nat :=
  sum_list_with (λ s, cost (step_provider s) (step_operation s)) steps.

(** Client [c] never raises [x], neither from its two operations nor from
    [get_abstract]. *)
Definition client_never_raises (x : exn) (c : client W) : Prop :=
  (∀ op arg w, (method op c arg w).1 ≠ Raise x)
  ∧ (∀ data, get_abstract c data ≠ Raise x).

End Accounts.

(** Between two states of the network at most [r] requests were sent and at
    most [s] seconds slept. *)
Definition within (r s : nat) (w w' : Net.world) : Prop :=
  length (Net.sent w') ≤ length (Net.sent w) + r
  ∧ sum_list (Net.slept w') ≤ sum_list (Net.slept w) + s.

(** A client method that sends at most [r] requests and sleeps at most [s]
    seconds, whatever the network answers. *)
Definition net_within {A} (r s : nat) (m : Net.net A) : Prop :=
  ∀ w, within r s w (m w).2.

(** A client method that never raises [x]. *)
Definition never_raises {A} (x : exn) (m : Net.net A) : Prop :=
  ∀ w, (m w).1 ≠ Raise x.

(** A computation that raises nothing but the exceptions of [allowed]. *)
Definition raises_only {A} (allowed : list exn) (r : result A) : Prop :=
  ∀ x, r = Raise x → x ∈ allowed.

Definition net_raises_only {A} (allowed : list exn) (m : Net.net A) : Prop :=
  ∀ w, raises_only allowed (m w).1.

(** What a reply that is not shaped as the client expects can raise. *)
Definition malformed : list exn := [KeyError; TypeError; AttributeError].

(** The requests and the seconds each operation of each client can cost. *)
Definition requests_of (p : provider) (op : operation) : nat :=
  match p, op with
  | Crossref, ById => 1
  | Crossref, ByTitle => 3
  | SemanticScholar, ById => 3
  | SemanticScholar, ByTitle => 4
  | Elsevier, ById => 3
  | Elsevier, ByTitle => 6
  | PubMed, _ => 0
  end.

Definition seconds_of (p : provider) (op : operation) : nat :=
  match p, op with
  | Crossref, ById => 0
  | Elsevier, ByTitle => 6
  | PubMed, _ => 0
  | _, _ => 3
  end.

(** One record with a DOI in the input file, and a scripted network. *)
Definition shelf (script : list Net.reply) : state Net.world :=
  State (Fixtures.scripted script) []
    {[ "in.bib"%string := [Fixtures.doi_only] ]}.

(** A library of three records, for a mock client. *)
Definition library : state unit :=
  State () [] {[ "in.bib"%string :=
                   [Fixtures.title_only; Fixtures.with_abstract;
                    Fixtures.doi_only] ]}.

End Accounts.

(* ===================================================================== *)
(** ** A sequence matched against itself: what the search for the longest
       block keeps true *)
(* ===================================================================== *)

Module Diagonal.
Import Difflib.

Section Diagonal.
Context {A : Type} `{Countable A}.
Implicit Types (a b : list A) (b2j : gmap A (list nat)).

(** The element at position [i] of [a] has an entry in [b2j]: it is not
    one of the popular elements that left the dictionary. *)
Definition indexed a b2j (i : nat) : bool :=
  match a !! i with
  | Some x => bool_decide (is_Some (b2j !! x))
  | None => false
  end.

(** The length of the run of indexed elements of [a] that ends at [i]. *)
Fixpoint run_to a b2j (i : nat) : nat :=
  match i with
  | 0 => if indexed a b2j 0 then 1 else 0
  | S i' => if indexed a b2j (S i') then S (run_to a b2j i') else 0
  end.

Definition prev_run a b2j (i : nat) : nat :=
  match i with
  | 0 => 0
  | S i' => run_to a b2j i'
  end.

(** [b2j] lists, for each element it has, the positions of the element in
    [b], in increasing order. *)
Definition positions_ok b b2j : Prop :=
  ∀ x js, b2j !! x = Some js →
    StronglySorted lt js ∧ ∀ j, j ∈ js ↔ b !! j = Some x.

(** The same for the dictionary [__chain_b] has built from the first [i]
    elements of [b], which has an entry for each of them. *)
Definition positions_upto b (i : nat) b2j : Prop :=
  (∀ x js, b2j !! x = Some js →
     StronglySorted lt js ∧ ∀ j, j ∈ js ↔ j < i ∧ b !! j = Some x)
  ∧ (∀ j x, j < i → b !! j = Some x → is_Some (b2j !! x)).

(** The dictionary [j2len] as row [i] finds it, when [a] is matched against
    itself: no run is longer than the run of indexed elements that ends in
    its row, or in its column, and on the diagonal it is that run. *)
Definition prev_ok a b2j (i : nat) (j2len : gmap nat nat) : Prop :=
  (∀ j k, j2len !! j = Some k → k ≤ prev_run a b2j i ∧ k ≤ run_to a b2j j)
  ∧ j2lenget_pred j2len i = prev_run a b2j i.

End Diagonal.

End Diagonal.

(* ===================================================================== *)
(** ** Words: what [split] returns and what [clean_title] keeps *)
(* ===================================================================== *)

Module Words.
Import Text.

(** A character [clean_title] leaves alone in an ASCII title. *)
Definition plain (u : unicode_db) (c : N) : bool :=
  is_ascii c && (is_word u c || is_space u c || (c =? 45)%N).

(** A word: not empty, and without white space. *)
Definition word (u : unicode_db) (w : pystr) : Prop :=
  w ≠ [] ∧ Forall (λ c, is_space u c = false) w.

End Words.

(* ===================================================================== *)
(** ** The fallback policy, in the words of the specification

    "Fixed provider priority.  The first provider step yielding a
    non-empty abstract wins: the engine assigns it to the record, skipping
    all remaining providers for this record."  The definitions of this
    module are not taken from [enrich.py]: they say what a walk through the
    steps of a record is to be, for [enrich_entry] to be compared with. *)
(* ===================================================================== *)

Module Fallback.
Import Text Json Engine Policy.

Section Fallback.
Context {W : Type}.

(** What a step yields when its client is asked on [w]: the abstract of
    what the client found, when it found something and the abstract is not
    empty; nothing otherwise. *)
Definition consult (s : step W) (w : W) : result (option pystr) * W :=
  match method (step_operation s) (step_client s) (step_argument s) w with
  | (Raise x, w') => (Raise x, w')
  | (Val data, w') =>
      if truthy data then
        match get_abstract (step_client s) data with
        | Val (Some (x :: a)) => (Val (Some (x :: a)), w')
        | Val _ => (Val None, w')
        | Raise x => (Raise x, w')
        end
      else (Val None, w')
  end.

(** The steps are consulted in order; the first one that yields wins, and
    the steps after it are skipped.  The result is what the walk ends with
    (an abstract, nothing, or the exception of a client), the number of
    steps consulted, and what the clients act on as the walk leaves it. *)
Fixpoint first_yield (steps : list (step W)) (w : W)
  : result (option pystr) * nat * W :=
  match steps with
  | [] => (Val None, 0, w)
  | s :: rest =>
      match consult s w with
      | (Val None, w') =>
          let '(r, n, w'') := first_yield rest w' in (r, S n, w'')
      | (r, w') => (r, 1, w')
      end
  end.

(** What the [i]-th step is consulted on, the steps before it having been
    consulted in turn. *)
Fixpoint world_after (steps : list (step W)) (w : W) (i : nat) : W :=
  match i, steps with
  | S i', s :: rest => world_after rest (consult s w).2 i'
  | _, _ => w
  end.

(** The record a walk ends with. *)
Definition settle (e : entry) (r : result (option pystr)) : result entry :=
  match r with
  | Val (Some a) => Val (<["abstract" := a]> e)
  | Val None => Val e
  | Raise x => Raise x
  end.

End Fallback.

End Fallback.

Module Invariants.
Import Text Json Engine Policy.
Import Difflib.

(** *** [find_longest_match] and [get_matching_blocks] *)

(** A block lies in the window it was searched in. *)
Definition in_window (alo ahi blo bhi : nat) (m : block) : Prop :=
  let '(i, j, k) := m in
  alo ≤ i ∧ i + k ≤ ahi ∧ blo ≤ j ∧ j + k ≤ bhi.

(** What [find_longest_match] keeps true of a [j2len] dictionary built while
    scanning row [row]: a run ending at column [j] has not started before
    [alo] or [blo]. *)
Definition runs_ok (alo blo bhi row : nat) (d : gmap nat nat) : Prop :=
  ∀ j k, d !! j = Some k → 1 ≤ k ∧ k ≤ row + 1 - alo ∧ k ≤ j + 1 - blo ∧ j < bhi.

(** A window [(alo, ahi, blo, bhi)] of the queue is well formed. *)
Definition window_ok (w : nat * nat * nat * nat) : Prop :=
  let '(alo, ahi, blo, bhi) := w in alo ≤ ahi ∧ blo ≤ bhi.

(** The elements of [a], and of [b], the windows of the queue still cover. *)
Definition a_room (q : list (nat * nat * nat * nat)) : nat :=
  sum_list_with (λ w, w.1.1.2 - w.1.1.1) q.

Definition b_room (q : list (nat * nat * nat * nat)) : nat :=
  sum_list_with (λ w, w.2 - w.1.2) q.

(** The number of elements a list of blocks matches. *)
Definition matched (l : list block) : nat := sum_list_with block_size l.

(** *** The selection loop of a title search *)

(** The loop [for result in results] of a [search_by_title], for any way
    [score] of scoring a candidate ([None]: the candidate is passed over).
    The loops of the clients are instances of it. *)
Fixpoint selection_loop (score : json → result (option Q))
    (results : list json) (best_match : json) (best_similarity : Q)
  : result (json * Q) :=
  match results with
  | [] => Val (best_match, best_similarity)
  | c :: rest =>
      similarity ← score c;
      match similarity with
      | None => selection_loop score rest best_match best_similarity
      | Some similarity =>
          if CrossrefAPI.Qgtb similarity best_similarity
          then selection_loop score rest c similarity
          else selection_loop score rest best_match best_similarity
      end
  end.

(** Candidate [c] has a title, which scores [s] against the query. *)
Definition scores (score : json → result (option Q)) (c : json) (s : Q)
  : Prop :=
  score c = Val (Some s).

(** What the two variables of the loop mean once the candidates [seen] have
    been looked at: nothing selected and no positive score so far; or the
    first candidate with the highest score, which is positive. *)
Definition best_so_far (score : json → result (option Q)) (seen : list json)
    (best_match : json) (best_similarity : Q) : Prop :=
  (best_match = JNull ∧ best_similarity = 0%Q
   ∧ ∀ j c s, seen !! j = Some c → scores score c s → (s <= 0)%Q)
  ∨ (∃ i, seen !! i = Some best_match
          ∧ scores score best_match best_similarity
          ∧ (0 < best_similarity)%Q
          ∧ ∀ j c s, seen !! j = Some c → scores score c s →
                     (s <= best_similarity)%Q
                     ∧ (j < i → (s < best_similarity)%Q)).

(** *** The engine *)

Section Engine.
Context {W : Type}.

(** Two computations that agree on every state. *)
Definition same {A} (f g : eng W A) : Prop := ∀ st, f st = g st.

(** Run the steps, then [rest] when none of them returned. *)
Fixpoint steps_then (steps : list (step W)) (e : entry) (rest : eng W entry)
  : eng W entry :=
  match steps with
  | [] => rest
  | s :: tl =>
      unless_returned
        (attempt (step_provider s) (step_operation s) (step_client s)
           (step_argument s) e)
        (steps_then tl e rest)
  end.

Definition counted (s : stats) : nat :=
  already_had_abstract s + enriched s + failed s.

End Engine.

End Invariants.

(* ===================================================================== *)
(** * Properties *)
(* ===================================================================== *)

(** ** The matching blocks stay inside both sequences *)

Module DifflibFacts.
Import Difflib Invariants.

Section Bounds.
Context {A : Type} `{Countable A}.
Implicit Types (a b : list A) (b2j : gmap A (list nat)).

Lemma runs_ok_empty alo blo bhi row : runs_ok alo blo bhi row ∅.
Proof. intros j k Hjk. by rewrite lookup_empty in Hjk. Qed.

Lemma j2lenget_pred_empty j : j2lenget_pred ∅ j = 0.
Proof. destruct j as [|j']; [done|]. unfold j2lenget_pred. by rewrite lookup_empty. Qed.

Lemma j2lenget_pred_bound alo blo bhi row d j :
  runs_ok alo blo bhi row d → blo ≤ j →
  j2lenget_pred d j ≤ row + 1 - alo ∧ j2lenget_pred d j ≤ j - blo.
Proof.
  intros Hd Hj. destruct j as [|j']; simpl; [lia|].
  destruct (d !! j') as [k|] eqn:E; simpl; [|lia].
  destruct (Hd _ _ E) as (? & ? & ? & ?). lia.
Qed.

Lemma scan_positions_ok alo blo bhi i js j2len newj2len best :
  alo ≤ i →
  (i = alo ∨ runs_ok alo blo bhi (i - 1) j2len) →
  (i = alo → j2len = ∅) →
  runs_ok alo blo bhi i newj2len →
  in_window alo (S i) blo bhi best →
  let r := scan_positions i blo bhi js j2len newj2len best in
  runs_ok alo blo bhi i r.1 ∧ in_window alo (S i) blo bhi r.2.
Proof.
  intros Hi Hold Hfirst. revert newj2len best.
  induction js as [|j js IH]; intros newj2len best Hnew Hbest; simpl; [done|].
  destruct (Nat.ltb_spec j blo); [by apply IH|].
  destruct (Nat.leb_spec bhi j); [done|].
  assert (j2lenget_pred j2len j ≤ i - alo ∧ j2lenget_pred j2len j ≤ j - blo)
    as [Hk1 Hk2].
  { destruct (decide (i = alo)) as [Heq|Hne].
    - rewrite Hfirst by done. rewrite j2lenget_pred_empty. lia.
    - destruct Hold as [?|Hold]; [done|].
      destruct (j2lenget_pred_bound _ _ _ _ _ j Hold) as [? ?]; [done|]. lia. }
  apply IH.
  - intros j0 k0. rewrite lookup_insert. case_decide; [|by apply Hnew].
    intros [= <-]. subst j0. lia.
  - destruct best as [[bi bj] bk]. unfold block_size; simpl.
    destruct (Nat.ltb_spec bk (j2lenget_pred j2len j + 1)); [|done].
    simpl. lia.
Qed.

Lemma scan_rows_ok a b2j alo ahi blo bhi n : ∀ s j2len best,
  alo ≤ s → s + n ≤ ahi →
  (s = alo ∨ runs_ok alo blo bhi (s - 1) j2len) →
  (s = alo → j2len = ∅) →
  in_window alo s blo bhi best →
  in_window alo ahi blo bhi (scan_rows a b2j blo bhi (seq s n) j2len best).
Proof.
  induction n as [|n IH]; intros s j2len best Hs Hn Hold Hfirst Hbest; simpl.
  - destruct best as [[bi bj] bk]. simpl in *. lia.
  - set (js := match a !! s with Some x => default [] (b2j !! x) | None => [] end).
    pose proof (scan_positions_ok alo blo bhi s js j2len ∅ best Hs Hold Hfirst
      (runs_ok_empty _ _ _ _)) as Hrow.
    destruct (scan_positions s blo bhi js j2len ∅ best) as [newj2len best'].
    simpl in Hrow. destruct Hrow as [Hnew Hbest'].
    { destruct best as [[bi bj] bk]. simpl in *. lia. }
    apply IH; [lia | lia | | lia | done].
    right. by replace (S s - 1) with s by lia.
Qed.

Lemma extend_left_ok a b alo blo bhi ahi : ∀ besti bestj bestsize,
  in_window alo ahi blo bhi (besti, bestj, bestsize) →
  in_window alo ahi blo bhi (extend_left a b alo blo besti bestj bestsize).
Proof.
  induction besti as [|i' IH]; intros bestj bestsize Hw; simpl; [done|].
  destruct bestj as [|j']; [done|].
  destruct (_ && _) eqn:E; [|done].
  apply andb_prop in E as [E _]. apply andb_prop in E as [E1 E2].
  apply Nat.ltb_lt in E1, E2. apply IH. simpl in *. lia.
Qed.

Lemma extend_right_ok a b bhi besti bestj : ∀ room bestsize ahi,
  besti + bestsize + room ≤ ahi → bestj + bestsize ≤ bhi →
  let k := extend_right room a b bhi besti bestj bestsize in
  bestsize ≤ k ∧ besti + k ≤ ahi ∧ bestj + k ≤ bhi.
Proof.
  induction room as [|room IH]; intros bestsize ahi Hr Hb; simpl; [lia|].
  destruct (_ && _) eqn:E; [|lia].
  apply andb_prop in E as [E _]. apply Nat.ltb_lt in E.
  destruct (IH (S bestsize) ahi) as (? & ? & ?); lia.
Qed.

(** [find_longest_match] answers inside the window it is given. *)
Lemma find_longest_match_ok a b b2j alo ahi blo bhi :
  alo ≤ ahi → blo ≤ bhi →
  in_window alo ahi blo bhi (find_longest_match a b b2j alo ahi blo bhi).
Proof.
  intros Ha Hb. unfold find_longest_match.
  pose proof (scan_rows_ok a b2j alo ahi blo bhi (ahi - alo) alo ∅ (alo, blo, 0))
    as Hscan.
  destruct (scan_rows _ _ _ _ _ _ _) as [[i1 j1] k1].
  assert (in_window alo ahi blo bhi (i1, j1, k1)) as Hw1.
  { apply Hscan; simpl; auto; lia. }
  pose proof (extend_left_ok a b alo blo bhi ahi i1 j1 k1 Hw1) as Hleft.
  destruct (extend_left _ _ _ _ _ _ _) as [[i2 j2] k2].
  simpl in Hleft.
  destruct (extend_right_ok a b bhi i2 j2 (ahi - (i2 + k2)) k2 ahi)
    as (? & ? & ?); [lia | lia |].
  simpl. lia.
Qed.

(** *** The queue loop ends within its fuel and never matches more than
    either sequence holds *)

Lemma matched_app l1 l2 : matched (l1 ++ l2) = matched l1 + matched l2.
Proof. apply sum_list_with_app. Qed.

Lemma blocks_loop_ok a b b2j : ∀ fuel q acc,
  Forall window_ok q → 2 * a_room q + length q ≤ fuel →
  ∃ mb, blocks_loop fuel a b b2j q acc = Some mb
        ∧ matched mb ≤ matched acc + a_room q
        ∧ matched mb ≤ matched acc + b_room q.
Proof.
  induction fuel as [|fuel IH]; intros q acc Hq Hfuel.
  - destruct q as [|w q]; simpl in *; [|lia].
    exists acc. split; [done|lia].
  - destruct q as [|[[[alo ahi] blo] bhi] q]; simpl.
    { exists acc. split; [done|lia]. }
    apply Forall_cons in Hq as [[Ha Hb] Hq].
    pose proof (find_longest_match_ok a b b2j alo ahi blo bhi Ha Hb) as Hw.
    destruct (find_longest_match a b b2j alo ahi blo bhi) as [[i j] k].
    simpl in Hw. unfold a_room, b_room in *. simpl in Hfuel.
    destruct (Nat.eqb_spec k 0) as [->|Hk].
    + destruct (IH q acc Hq) as (mb & -> & ? & ?); [lia|].
      exists mb. simpl. split; [done|]. lia.
    + set (q1 := if (alo <? i) && (blo <? j) then (alo, i, blo, j) :: q else q).
      set (q2 := if (i + k <? ahi) && (j + k <? bhi)
                 then (i + k, ahi, j + k, bhi) :: q1 else q1).
      assert (Forall window_ok q2 ∧ length q2 ≤ 2 + length q
              ∧ a_room q2 + k ≤ (ahi - alo) + a_room q
              ∧ b_room q2 + k ≤ (bhi - blo) + b_room q) as (Hq2 & Hl & Har & Hbr).
      { subst q2 q1. unfold a_room, b_room.
        destruct (Nat.ltb_spec alo i), (Nat.ltb_spec blo j),
          (Nat.ltb_spec (i + k) ahi), (Nat.ltb_spec (j + k) bhi); simpl.
        all: split; [repeat (apply Forall_cons_2; [simpl; lia|]); done|].
        all: lia. }
      destruct (IH q2 (acc ++ [(i, j, k)]) Hq2) as (mb & -> & Hma & Hmb).
      { unfold a_room in *. lia. }
      exists mb. split; [done|]. rewrite matched_app in *.
      change (matched [(i, j, k)]) with (k + 0) in *.
      unfold a_room, b_room in *. simpl. lia.
Qed.

Lemma matched_insert x l : matched (insert_block x l) = block_size x + matched l.
Proof.
  induction l as [|y l IH]; simpl; [done|].
  destruct (block_leb x y); unfold matched in *; simpl in *; lia.
Qed.

Lemma matched_sort l : matched (sort_blocks l) = matched l.
Proof.
  induction l as [|x l IH]; simpl; [done|].
  rewrite matched_insert. unfold matched in *. simpl. lia.
Qed.

Lemma matched_collapse rest : ∀ pending non_adjacent,
  let r := collapse pending non_adjacent rest in
  block_size r.1 + matched r.2
  = block_size pending + matched non_adjacent + matched rest.
Proof.
  induction rest as [|[[i2 j2] k2] rest IH]; intros [[i1 j1] k1] na; simpl.
  { unfold matched. simpl. lia. }
  destruct (_ && _).
  - specialize (IH (i1, j1, k1 + k2) na). simpl in IH. rewrite IH.
    unfold matched, block_size. simpl. lia.
  - specialize (IH (i2, j2, k2) (if k1 =? 0 then na else na ++ [(i1, j1, k1)])).
    simpl in IH. rewrite IH.
    destruct (Nat.eqb_spec k1 0); rewrite ?matched_app;
      unfold matched, block_size; simpl; lia.
Qed.

(** [get_matching_blocks] returns: the fuel it is run with is enough, and the
    blocks it returns cover at most [len(a)] and at most [len(b)] elements. *)
Lemma get_matching_blocks_total a b :
  ∃ l, get_matching_blocks_opt a b = Some l
       ∧ get_matching_blocks a b = l
       ∧ matched l ≤ length a ∧ matched l ≤ length b.
Proof.
  unfold get_matching_blocks, get_matching_blocks_opt.
  destruct (blocks_loop_ok a b (chain_b b) (blocks_fuel a)
              [(0, length a, 0, length b)] []) as (mb & -> & Ha & Hb).
  { apply Forall_cons. split; [simpl; lia | apply Forall_nil_2]. }
  { unfold a_room, blocks_fuel. simpl. lia. }
  pose proof (matched_collapse (sort_blocks mb) (0, 0, 0) []) as Hc.
  destruct (collapse (0, 0, 0) [] (sort_blocks mb)) as [[[i1 j1] k1] na].
  simpl in Hc. rewrite matched_sort in Hc.
  eexists. split; [done|]. split; [done|].
  unfold a_room, b_room in *. simpl in *.
  rewrite matched_app.
  destruct (Nat.eqb_spec k1 0); rewrite ?matched_app;
    unfold matched, block_size in *; simpl in *; lia.
Qed.

Lemma calculate_ratio_range (m n : nat) :
  2 * m ≤ n → (0 <= calculate_ratio m n)%Q ∧ (calculate_ratio m n <= 1)%Q.
Proof.
  intros Hmn. unfold calculate_ratio.
  destruct (Nat.eqb_spec n 0) as [->|Hn]; [split; discriminate|].
  assert (0 < inject_Z (Z.of_nat n))%Q as Hpos.
  { change 0%Q with (inject_Z 0). rewrite <- Zlt_Qlt. lia. }
  split.
  - apply Qle_shift_div_l; [done|]. rewrite Qmult_0_l.
    change 2%Q with (inject_Z 2). rewrite <- inject_Z_mult.
    change 0%Q with (inject_Z 0). rewrite <- Zle_Qle. lia.
  - apply Qle_shift_div_r; [done|]. rewrite Qmult_1_l.
    change 2%Q with (inject_Z 2). rewrite <- inject_Z_mult.
    rewrite <- Zle_Qle. lia.
Qed.

(** [ratio()] is a number of [[0, 1]]. *)
Lemma ratio_range a b : (0 <= ratio a b)%Q ∧ (ratio a b <= 1)%Q.
Proof.
  unfold ratio.
  destruct (get_matching_blocks_total a b) as (l & _ & -> & Ha & Hb).
  apply calculate_ratio_range. unfold matched in *. lia.
Qed.

End Bounds.
End DifflibFacts.

(** ** The title matcher *)

Module MatcherFacts.
Import Text Matcher.

(** C7 (as amended).  The similarity of two titles is a number of [[0, 1]],
    whatever the titles. *)
Theorem title_similarity_in_unit_interval u (a b : pystr) :
  (0 <= title_similarity u a b)%Q ∧ (title_similarity u a b <= 1)%Q.
Proof. apply DifflibFacts.ratio_range. Qed.

(** The similarity depends on the order of its arguments: from [tide] to
    [diet] the matcher finds the [t] and nothing after it, from [diet] to
    [tide] it finds the [d] and then the [e]. *)
Lemma title_similarity_is_not_symmetric :
  (∀ u, title_similarity u (py "tide") (py "diet") == 1 # 4)%Q
  ∧ (∀ u, title_similarity u (py "diet") (py "tide") == 1 # 2)%Q
  ∧ ¬ ∃ u, (title_similarity u (py "tide") (py "diet")
            == title_similarity u (py "diet") (py "tide"))%Q.
Proof.
  split; [intros u; vm_compute; reflexivity|].
  split; [intros u; vm_compute; reflexivity|].
  intros [u Hu]. vm_compute in Hu. discriminate.
Qed.

(** Case and punctuation do not count. *)
Example similarity_ignores_case_and_punctuation u :
  (title_similarity u (py "Deep Learning!") (py "deep learning") == 1)%Q.
Proof. vm_compute. reflexivity. Qed.

End MatcherFacts.

(** ** Choosing among the candidates of a title search *)

Module SelectionFacts.
Import Text Json Invariants.

Lemma Qgtb_true (x y : Q) : CrossrefAPI.Qgtb x y = true → (y < x)%Q.
Proof.
  unfold CrossrefAPI.Qgtb. intros Hb. apply Qnot_le_lt. intros Hle.
  apply Qle_bool_iff in Hle. rewrite Hle in Hb. discriminate.
Qed.

Lemma Qgtb_false (x y : Q) : CrossrefAPI.Qgtb x y = false → (x <= y)%Q.
Proof.
  unfold CrossrefAPI.Qgtb. intros Hb. apply Qle_bool_iff.
  by destruct (Qle_bool x y).
Qed.

Section Loop.
Context (score : json → result (option Q)).

Local Abbreviation scores := (Invariants.scores score).
Local Abbreviation best_so_far := (Invariants.best_so_far score).

Lemma best_so_far_nonneg seen bm bs : best_so_far seen bm bs → (0 <= bs)%Q.
Proof.
  intros [(_ & -> & _)|(_ & _ & _ & ? & _)];
    [apply Qle_refl|by apply Qlt_le_weak].
Qed.

Lemma best_so_far_bound seen bm bs j c s :
  best_so_far seen bm bs → seen !! j = Some c → scores c s → (s <= bs)%Q.
Proof.
  intros [(_ & -> & Hall)|(i & _ & _ & _ & Hall)] Hj Hs; by eapply Hall.
Qed.

(** A candidate that is passed over, or does not beat the best, changes
    nothing. *)
Lemma best_so_far_keep seen bm bs c :
  best_so_far seen bm bs →
  (∀ s, scores c s → (s <= bs)%Q) →
  best_so_far (seen ++ [c]) bm bs.
Proof.
  intros [(-> & -> & Hall)|(i & Hi & Hsc & Hpos & Hall)] Hc.
  - left. repeat split; auto.
    intros j c' s' [[Hj Hl]|[-> <-]]%lookup_snoc_Some Hs'; [by eapply Hall|].
    by apply Hc.
  - right. exists i. split; [by apply lookup_app_l_Some|].
    split; [done|]. split; [done|].
    intros j c' s' [[Hj Hl]|[-> <-]]%lookup_snoc_Some Hs'; [by eapply Hall|].
    split; [by apply Hc|]. apply lookup_lt_Some in Hi. lia.
Qed.

(** A candidate that beats the best becomes the best. *)
Lemma best_so_far_replace seen bm bs c sim :
  best_so_far seen bm bs → scores c sim → (bs < sim)%Q →
  best_so_far (seen ++ [c]) c sim.
Proof.
  intros Hinv Hc Hgt. right. exists (length seen).
  split; [by apply list_lookup_middle|]. split; [done|].
  split; [eapply Qle_lt_trans; [by eapply best_so_far_nonneg|done]|].
  intros j c' s' [[Hj Hl]|[-> <-]]%lookup_snoc_Some Hs'.
  - assert (s' <= bs)%Q as Hle by (by eapply best_so_far_bound).
    split; [apply Qlt_le_weak|intros _]; by eapply Qle_lt_trans.
  - unfold Invariants.scores in Hs', Hc. rewrite Hc in Hs'.
    injection Hs' as <-. split; [apply Qle_refl|lia].
Qed.

Lemma selection_loop_inv rest : ∀ seen best_match best_similarity r,
  selection_loop score rest best_match best_similarity = Val r →
  best_so_far seen best_match best_similarity →
  best_so_far (seen ++ rest) r.1 r.2.
Proof.
  induction rest as [|c rest IH]; intros seen bm bs r; simpl.
  { intros [= <-]. by rewrite app_nil_r. }
  destruct (score c) as [[sim|]|x] eqn:Hc; simpl; [| |done].
  - destruct (CrossrefAPI.Qgtb sim bs) eqn:Hgt; intros Hrun Hinv;
      replace (seen ++ c :: rest) with ((seen ++ [c]) ++ rest)
        by (by rewrite <- app_assoc);
      apply (IH _ _ _ _ Hrun).
    + apply Qgtb_true in Hgt. by eapply best_so_far_replace.
    + apply Qgtb_false in Hgt. apply best_so_far_keep; [done|].
      intros s Hs. unfold Invariants.scores in Hs. rewrite Hc in Hs.
      by injection Hs as <-.
  - intros Hrun Hinv.
    replace (seen ++ c :: rest) with ((seen ++ [c]) ++ rest)
      by (by rewrite <- app_assoc).
    apply (IH _ _ _ _ Hrun). apply best_so_far_keep; [done|].
    intros s Hs. unfold Invariants.scores in Hs. rewrite Hc in Hs.
    discriminate.
Qed.

(** From an empty start. *)
Lemma selection_loop_best results r :
  selection_loop score results JNull 0%Q = Val r →
  best_so_far results r.1 r.2.
Proof.
  intros Hrun. apply (selection_loop_inv _ []) in Hrun; [done|].
  left. repeat split; auto. intros j c s Hj. done.
Qed.

End Loop.

(** The loop of Semantic Scholar's [search_by_title] is the selection loop:
    when it ends, [best_match] is the first paper with the highest score,
    or [None] when no paper has a positive score. *)
Lemma semantic_scholar_loop_is_selection u title papers : ∀ bm bs,
  SemanticScholarAPI.best_match_loop u title papers bm bs
  = selection_loop (SemanticScholarAPI.similarity_of u title) papers bm bs.
Proof.
  induction papers as [|c rest IH]; intros bm bs; simpl; [done|].
  destruct (SemanticScholarAPI.similarity_of u title c) as [[sim|]|x]; simpl;
    rewrite ?IH; done.
Qed.

Lemma semantic_scholar_best_match u title papers r :
  SemanticScholarAPI.best_match_loop u title papers JNull 0%Q = Val r →
  Invariants.best_so_far (SemanticScholarAPI.similarity_of u title) papers
    r.1 r.2.
Proof.
  rewrite semantic_scholar_loop_is_selection. apply selection_loop_best.
Qed.

End SelectionFacts.

(** ** The Crossref client *)

Module CrossrefFacts.
Import Text Json Net CrossrefAPI Invariants.

Section Selection.
Context (u : unicode_db) (title : pystr).

Lemma best_match_loop_is_selection results : ∀ bm bs,
  best_match_loop u title results bm bs
  = selection_loop (similarity_of u title) results bm bs.
Proof.
  induction results as [|c rest IH]; intros bm bs; simpl; [done|].
  destruct (similarity_of u title c) as [[sim|]|x]; simpl; rewrite ?IH; done.
Qed.

(** C6.  Among the candidates a title search returned, [search_by_title]
    selects one with the highest score, the first of them in the order of
    the list when several tie, and returns it only when that score reaches
    [min_similarity]; it returns no match ([None]) only when no candidate
    has a positive score that reaches [min_similarity]. *)
Theorem selected_match_is_first_maximum (min_similarity : Q)
    (candidates : list json) (selected : json) :
  select_match u title min_similarity (JList candidates) = Val selected →
  (∃ i s, candidates !! i = Some selected
          ∧ similarity_of u title selected = Val (Some s)
          ∧ (min_similarity <= s)%Q
          ∧ ∀ j c s', candidates !! j = Some c →
                      similarity_of u title c = Val (Some s') →
                      (s' <= s)%Q ∧ (j < i → (s' < s)%Q))
  ∨ (selected = JNull
     ∧ ∀ j c s', candidates !! j = Some c →
                 similarity_of u title c = Val (Some s') →
                 ¬ ((min_similarity <= s')%Q ∧ (0 < s')%Q)).
Proof.
  unfold select_match. destruct candidates as [|c0 rest].
  { intros [= <-]. right. split; [done|]. intros j c s' Hj. done. }
  set (candidates := c0 :: rest).
  change (truthy (JList candidates)) with true.
  change (iterate (JList candidates)) with (Val candidates).
  cbn [negb mbind result_bind].
  destruct (best_match_loop u title candidates JNull 0%Q) as [[bm bs]|x] eqn:Hrun;
    [|done].
  rewrite best_match_loop_is_selection in Hrun.
  apply SelectionFacts.selection_loop_best in Hrun.
  cbn [mbind result_bind fst snd] in *.
  destruct (Qgeb bs min_similarity) eqn:Hge; intros [= Hsel];
    subst selected.
  - apply Qle_bool_iff in Hge.
    destruct Hrun as [(-> & -> & Hall)|(i & Hi & Hsc & Hpos & Hall)].
    + right. split; [done|]. intros j c s' Hj Hs' [_ Hpos].
      apply (Qlt_not_le _ _ Hpos). by eapply Hall.
    + left. exists i, bs. auto.
  - right. split; [done|]. intros j c s' Hj Hs' [Hmin _].
    assert (s' <= bs)%Q as Hle
      by (by eapply SelectionFacts.best_so_far_bound).
    unfold Qgeb in Hge.
    assert (Qle_bool min_similarity bs = true) as Habs.
    { apply Qle_bool_iff. by eapply Qle_trans. }
    congruence.
Qed.

End Selection.

End CrossrefFacts.

(** ** Retries *)

Module RetryFacts.
Import Text Json Net.

(** A request that is answered at once is made once. *)
Lemma fetch_retrying_first_reply req w body :
  answers w (length (sent w)) req = Answers body →
  fetch_retrying (seq 0 max_retries) req w
  = (Val (Some body), World (answers w) (sent w ++ [req]) (slept w)).
Proof.
  intros Hr. simpl. unfold try_except, mbind, net_bind, fetch. by rewrite Hr.
Qed.

(** A request that fails three times running is made three times, with
    waits of 1 and 2 seconds in between, and then raises. *)
Lemma fetch_retrying_gives_up req w :
  (∀ k, k < 3 → answers w (length (sent w) + k) req = Fails) →
  fetch_retrying (seq 0 max_retries) req w
  = (Raise RequestException,
     World (answers w) (sent w ++ [req; req; req]) (slept w ++ [1; 2])).
Proof.
  intros Hfail.
  pose proof (Hfail 0) as H0. pose proof (Hfail 1) as H1.
  pose proof (Hfail 2) as H2. rewrite Nat.add_0_r in H0.
  simpl. unfold try_except, mbind, net_bind, fetch, sleep, raise. simpl.
  rewrite H0 by lia. simpl.
  rewrite length_app. simpl. rewrite H1 by lia. simpl.
  rewrite !length_app. simpl. rewrite <- Nat.add_assoc. simpl.
  rewrite H2 by lia. simpl.
  by rewrite <- !app_assoc.
Qed.

(** The retry loop in general: it makes one, two or three requests, stops at
    the first reply, waits [1] second after the first failure and [2] after
    the second, and raises when the third request fails too. *)
Lemma fetch_retrying_spec req w :
  ∃ n, 1 ≤ n ≤ 3
       ∧ sent (fetch_retrying (seq 0 max_retries) req w).2
         = sent w ++ replicate n req
       ∧ slept (fetch_retrying (seq 0 max_retries) req w).2
         = slept w ++ seq 1 (n - 1)
       ∧ (∀ k, k < n - 1 → answers w (length (sent w) + k) req = Fails)
       ∧ match answers w (length (sent w) + (n - 1)) req with
         | Answers body =>
             (fetch_retrying (seq 0 max_retries) req w).1 = Val (Some body)
         | Fails =>
             n = 3
             ∧ (fetch_retrying (seq 0 max_retries) req w).1
               = Raise RequestException
         end.
Proof.
  destruct (answers w (length (sent w)) req) as [|b0] eqn:H0.
  2: { exists 1. rewrite fetch_retrying_first_reply with (body := b0) by done.
       simpl. rewrite Nat.add_0_r, H0, app_nil_r.
       repeat split; auto; intros; lia. }
  destruct (answers w (length (sent w) + 1) req) as [|b1] eqn:H1.
  2: { exists 2. simpl.
       unfold try_except, mbind, net_bind, fetch, sleep, raise. simpl.
       rewrite H0. simpl. rewrite length_app. simpl. rewrite H1. simpl.
       rewrite <- app_assoc. repeat split; auto; try lia.
       intros k Hk. replace k with 0 by lia. by rewrite Nat.add_0_r. }
  destruct (answers w (length (sent w) + 2) req) as [|b2] eqn:H2.
  - exists 3. rewrite fetch_retrying_gives_up.
    + simpl. rewrite H2. repeat split; auto; try lia.
      intros k Hk. destruct k as [|[|k]]; [by rewrite Nat.add_0_r|done|lia].
    + intros k Hk. destruct k as [|[|[|k]]]; [by rewrite Nat.add_0_r|done|done|lia].
  - exists 3. simpl.
    unfold try_except, mbind, net_bind, fetch, sleep, raise. simpl.
    rewrite H0. simpl. rewrite length_app. simpl. rewrite H1. simpl.
    rewrite !length_app. simpl. rewrite <- Nat.add_assoc. simpl. rewrite H2.
    simpl. rewrite <- !app_assoc. repeat split; auto; try lia.
    intros k Hk. destruct k as [|[|k]]; [by rewrite Nat.add_0_r|done|lia].
Qed.

(** The title search of Crossref goes through the retry loop. *)
Lemma crossref_search_retries u title min_similarity w :
  let req := Get CrossrefAPI.BASE_URL
               [("query.title"%string, Matcher.clean_title u title);
                ("rows"%string, py "5");
                ("select"%string, py "DOI,title,abstract")] in
  (∀ k, k < 3 → answers w (length (sent w) + k) req = Fails) →
  CrossrefAPI.search_by_title u title min_similarity w
  = (Val JNull,
     World (answers w) (sent w ++ [req; req; req]) (slept w ++ [1; 2])).
Proof.
  intros req Hfail. unfold CrossrefAPI.search_by_title.
  unfold try_except at 1. unfold mbind at 1, net_bind at 1.
  fold req. by rewrite fetch_retrying_gives_up.
Qed.

(** The identifier lookup of Semantic Scholar goes through the retry loop:
    on a network that keeps failing it makes three requests, waits 1 and 2
    seconds, and reports no result. *)
Lemma semantic_scholar_lookup_retries doi w :
  let req := Get (SemanticScholarAPI.BASE_URL ++ py "/paper/" ++ doi) [] in
  (∀ k, k < 3 → answers w (length (sent w) + k) req = Fails) →
  SemanticScholarAPI.get_by_doi doi w
  = (Val JNull,
     World (answers w) (sent w ++ [req; req; req]) (slept w ++ [1; 2])).
Proof.
  intros req Hfail. unfold SemanticScholarAPI.get_by_doi.
  unfold try_except at 1. unfold mbind at 1, net_bind at 1.
  fold req. by rewrite fetch_retrying_gives_up.
Qed.

(** C3 (the code departs from it).  [CrossrefAPI.get_by_doi] makes one
    request and never waits, whatever the network answers; when that one
    request fails it reports no result at once. *)
Theorem crossref_lookup_is_not_retried doi w :
  let req := Get (CrossrefAPI.BASE_URL ++ py "/" ++ doi) [] in
  sent (CrossrefAPI.get_by_doi doi w).2 = sent w ++ [req]
  ∧ slept (CrossrefAPI.get_by_doi doi w).2 = slept w
  ∧ (answers w (length (sent w)) req = Fails →
     (CrossrefAPI.get_by_doi doi w).1 = Val JNull).
Proof.
  intros req. unfold CrossrefAPI.get_by_doi, try_except, mbind, net_bind,
    fetch, lift. fold req.
  destruct (answers w (length (sent w)) req) as [|body]; simpl; [done|].
  destruct (getitem body "message") as [v|[]]; simpl; done.
Qed.

(** The same transient failure, seen by the two identifier lookups: the
    network fails once and would answer the second request.  Crossref gives
    up; Semantic Scholar waits a second, asks again and gets the reply. *)
Example one_transient_failure :
  let w := Fixtures.scripted [Fails; Fixtures.tagged_work] in
  CrossrefAPI.get_by_doi (py "10.1/x") w
  = (Val JNull,
     World (answers w) [Get (py "https://api.crossref.org/works/10.1/x") []] [])
  ∧ (SemanticScholarAPI.get_by_doi (py "10.1/x") w).1
    = Val (JDict [("message"%string,
                   JDict [("abstract"%string, JStr (py "<p>Foo</p>"))])])
  ∧ length (sent (SemanticScholarAPI.get_by_doi (py "10.1/x") w).2) = 2
  ∧ slept (SemanticScholarAPI.get_by_doi (py "10.1/x") w).2 = [1].
Proof. repeat split. Qed.

End RetryFacts.

(** ** The engine *)

Module EngineFacts.
Import Text Json Engine Policy Invariants.

Section Facts.
Context {W : Type}.
Implicit Types (self : enricher W) (c : client W) (e : entry) (st : state W)
  (steps : list (step W)).

Lemma unless_returned_same step (r1 r2 : eng W entry) :
  same r1 r2 → same (unless_returned step r1) (unless_returned step r2).
Proof.
  intros Hr st. unfold unless_returned, mbind, eng_bind.
  destruct (step st) as [[[e'|]|x] st1]; simpl; auto.
Qed.

(** *** One provider step *)

Lemma attempt_inv p op c arg e st r st' :
  attempt p op c arg e st = (r, st') →
  calls st' = calls st ++ [Call p op arg] ∧ files st' = files st
  ∧ match r with
    | Val (Some e') =>
        ∃ data x a,
          method op c arg (outside st) = (Val data, outside st')
          ∧ get_abstract c data = Val (Some (x :: a))
          ∧ e' = <["abstract" := x :: a]> e
    | _ => True
    end.
Proof.
  unfold attempt, invoke, mbind, eng_bind, lift.
  destruct (method op c arg (outside st)) as [[data|x] w] eqn:Hm; simpl.
  - destruct (truthy data); simpl.
    + destruct (get_abstract c data) as [[[|y a]|]|x] eqn:Ha; simpl;
        intros [= <- <-]; simpl; repeat split; eauto 10.
    + intros [= <- <-]; simpl; repeat split; eauto.
  - intros [= <- <-]; simpl; repeat split; eauto.
Qed.

(** *** Identifier discovery *)

Lemma discover_doi_inv self e st r st' :
  discover_doi self e st = (r, st') →
  files st' = files st
  ∧ (calls st' = calls st
     ∨ ∃ title, e !! "title" = Some title ∧ nonempty (e !! "doi") = false
                ∧ calls st' = calls st ++ [Call Crossref ByTitle title])
  ∧ match r with
    | Val (doi, e1) =>
        (doi = e !! "doi" ∧ e1 = e)
        ∨ (∃ d, doi = Some d ∧ e1 = <["doi" := d]> e
                ∧ nonempty (e !! "doi") = false ∧ is_Some (e !! "title"))
    | Raise _ => True
    end.
Proof.
  unfold discover_doi.
  destruct (e !! "title") as [title|] eqn:Ht; simpl.
  2: { intros [= <- <-]. repeat split; auto. }
  destruct (nonempty (e !! "doi")) eqn:Hd; simpl.
  { intros [= <- <-]. repeat split; auto. }
  unfold invoke, mbind, eng_bind, lift.
  destruct (method ByTitle (crossref self) title (outside st)) as [[data|x] w];
    simpl.
  2: { intros [= <- <-]; simpl. repeat split; eauto. }
  destruct (truthy data); simpl.
  2: { intros [= <- <-]; simpl. repeat split; eauto. }
  destruct (contains "DOI" data) as [[|]|x]; simpl.
  2,3: intros [= <- <-]; simpl; repeat split; eauto.
  destruct (getitem data "DOI") as [v|x]; simpl.
  2: { intros [= <- <-]; simpl. repeat split; eauto. }
  destruct (as_str v) as [d|x]; simpl; intros [= <- <-]; simpl;
    repeat split; eauto 10.
Qed.

(** *** The provider blocks are their steps, in order *)

Lemma steps_then_same steps e (r1 r2 : eng W entry) :
  same r1 r2 → same (steps_then steps e r1) (steps_then steps e r2).
Proof.
  intros Hr. induction steps as [|s tl IH]; simpl; [done|].
  by apply unless_returned_same.
Qed.

Lemma first_abstract_wins_then steps e :
  same (first_abstract_wins steps e) (steps_then steps e (mret e)).
Proof.
  induction steps as [|s tl IH]; simpl; [done|]. by apply unless_returned_same.
Qed.

Lemma steps_then_app (l1 l2 : list (step W)) e rest :
  same (steps_then (l1 ++ l2) e rest) (steps_then l1 e (steps_then l2 e rest)).
Proof.
  induction l1 as [|s tl IH]; simpl; [done|]. by apply unless_returned_same.
Qed.

Local Arguments attempt : simpl never.

Local Ltac run_attempts :=
  repeat match goal with
    | |- context [attempt ?p ?op ?c ?a ?e ?s] =>
        destruct (attempt p op c a e s) as [[[?|]|?] ?]; simpl
    end.

Local Ltac block st :=
  intros st;
  repeat progress
    (simpl;
     unfold unless_returned, when, with_text, with_field, provider_steps, known,
       mbind, eng_bind, mret, eng_ret).

Lemma try_elsevier_steps self use_elsevier doi e rest :
  same (unless_returned (try_elsevier self use_elsevier doi e) rest)
       (steps_then
          (match elsevier self with
           | Some c => if use_elsevier
                       then provider_steps Elsevier c (known doi) (e !! "title")
                       else []
           | None => []
           end) e rest).
Proof.
  unfold try_elsevier.
  destruct (elsevier self) as [c|], use_elsevier, doi as [[|x d]|],
    (e !! "title") as [t|] eqn:Ht; block st; rewrite ?Ht; simpl;
    run_attempts; done.
Qed.

Lemma try_pubmed_steps self use_pubmed e rest :
  same (unless_returned (try_pubmed self use_pubmed e) rest)
       (steps_then
          (match pubmed self with
           | Some c => if use_pubmed
                       then provider_steps PubMed c (e !! "pmid") (e !! "title")
                       else []
           | None => []
           end) e rest).
Proof.
  unfold try_pubmed.
  destruct (pubmed self) as [c|], use_pubmed, (e !! "pmid") as [i|] eqn:Hi,
    (e !! "title") as [t|] eqn:Ht; block st; rewrite ?Hi, ?Ht; simpl;
    run_attempts; done.
Qed.

Lemma try_crossref_steps self doi e rest :
  same (unless_returned (try_crossref self doi e) rest)
       (steps_then
          (provider_steps Crossref (crossref self) (known doi) (e !! "title"))
          e rest).
Proof.
  unfold try_crossref.
  destruct doi as [[|x d]|], (e !! "title") as [t|] eqn:Ht; block st;
    rewrite ?Ht; simpl; run_attempts; done.
Qed.

Lemma try_semantic_scholar_steps self use_semantic_scholar doi e rest :
  same (unless_returned (try_semantic_scholar self use_semantic_scholar doi e)
          rest)
       (steps_then
          (if use_semantic_scholar
           then provider_steps SemanticScholar (semantic_scholar self)
                  (known doi) (e !! "title")
           else []) e rest).
Proof.
  unfold try_semantic_scholar.
  destruct use_semantic_scholar, doi as [[|x d]|], (e !! "title") as [t|] eqn:Ht;
    block st; rewrite ?Ht; simpl; run_attempts; done.
Qed.

(** After the two early returns and the discovery of the identifier,
    [enrich_entry] is the walk through the priority steps. *)
Lemma provider_blocks_are_steps self uss upm uel doi e :
  same
    (unless_returned (try_elsevier self uel doi e)
       (unless_returned (try_pubmed self upm e)
          (unless_returned (try_crossref self doi e)
             (unless_returned (try_semantic_scholar self uss doi e)
                (mret e)))))
    (first_abstract_wins (priority_steps self uss upm uel doi e) e).
Proof.
  intros st. rewrite first_abstract_wins_then. unfold priority_steps.
  rewrite steps_then_app, try_elsevier_steps. apply steps_then_same.
  clear st. intros st.
  rewrite steps_then_app, try_pubmed_steps. apply steps_then_same.
  clear st. intros st.
  rewrite steps_then_app, try_crossref_steps. apply steps_then_same.
  apply try_semantic_scholar_steps.
Qed.

(** *** What a walk through a list of steps does *)

Lemma first_abstract_wins_inv steps : ∀ e st r st',
  first_abstract_wins steps e st = (r, st') →
  ∃ n, n ≤ length steps
       ∧ calls st' = calls st ++ (step_call <$> take n steps)
       ∧ files st' = files st
       ∧ match r with
         | Val e' =>
             (e' = e ∧ n = length steps)
             ∨ (∃ s w data x a,
                  0 < n ∧ steps !! (n - 1) = Some s
                  ∧ method (step_operation s) (step_client s) (step_argument s) w
                    = (Val data, outside st')
                  ∧ get_abstract (step_client s) data = Val (Some (x :: a))
                  ∧ e' = <["abstract" := x :: a]> e)
         | Raise _ => True
         end.
Proof.
  induction steps as [|s tl IH]; intros e st r st'; simpl.
  - intros [= <- <-]. exists 0. rewrite app_nil_r. repeat split; auto.
  - unfold unless_returned, mbind, eng_bind.
    destruct (attempt _ _ _ _ e st) as [[[e1|]|x] st1] eqn:Ha;
      apply attempt_inv in Ha as (Hc & Hf & Hr); simpl.
    + intros [= <- <-]. exists 1. simpl.
      split; [lia|]. repeat split; auto.
      destruct Hr as (data & x & a & Hm & Hg & ->).
      right. exists s, (outside st), data, x, a. repeat split; auto.
    + intros Hrest. apply IH in Hrest as (n & Hn & Hc' & Hf' & Hr').
      exists (S n). simpl. split; [lia|].
      split; [rewrite Hc', Hc, <- app_assoc; done|].
      split; [congruence|].
      destruct r as [e'|x]; [|done].
      destruct Hr' as [[-> ->]|(s' & w & data & x & a & Hpos & Hs & Hm & Hg & ->)].
      * by left.
      * right. exists s', w, data, x, a.
        split; [lia|]. split; [|done].
        destruct n as [|n]; [lia|]. simpl in *.
        by rewrite Nat.sub_0_r in *.
    + intros [= <- <-]. exists 1. simpl.
      split; [lia|]. repeat split; auto.
Qed.

(** *** [enrich_entry] as a whole *)

Lemma enrich_entry_walk self e uss upm uel st :
  has_abstract e = false →
  enrich_entry self e uss upm uel false st
  = (found ← discover_doi self e;
     first_abstract_wins (priority_steps self uss upm uel found.1 found.2)
       found.2) st.
Proof.
  intros Hno. unfold enrich_entry. rewrite Hno. simpl.
  unfold mbind, eng_bind.
  destruct (discover_doi self e st) as [[[doi e1]|x] st1]; [|done].
  apply provider_blocks_are_steps.
Qed.

Lemma provider_steps_sorted p c identifier title :
  StronglySorted before (provider_steps p c identifier title).
Proof.
  destruct identifier, title; simpl;
    repeat first [apply SSorted_nil | apply SSorted_cons
                 | apply Forall_nil_2 | apply Forall_cons_2].
  by right.
Qed.

Lemma provider_steps_provider p c identifier title s :
  s ∈ provider_steps p c identifier title → step_provider s = p.
Proof.
  unfold provider_steps. intros Hs.
  destruct identifier, title; simpl in Hs;
    repeat (apply elem_of_cons in Hs as [->|Hs]; [done|]);
    by apply elem_of_nil in Hs.
Qed.

Lemma sorted_app (l1 l2 : list (step W)) :
  StronglySorted before l1 → StronglySorted before l2 →
  (∀ s1 s2, s1 ∈ l1 → s2 ∈ l2 → before s1 s2) →
  StronglySorted before (l1 ++ l2).
Proof.
  intros H1 H2 H12. induction H1 as [|s l1 Hs IH Hall]; simpl; [done|].
  constructor.
  - apply IH. intros s1 s2 ? ?. apply H12; [by right|done].
  - apply Forall_app. split; [done|].
    apply Forall_forall. intros s2 ?. apply H12; [by left|done].
Qed.

(** The steps of a provider that may be switched off or missing. *)
Lemma optional_steps_provider p (oc : option (client W)) (use : bool)
    identifier title s :
  s ∈ match oc with
      | Some c => if use then provider_steps p c identifier title else []
      | None => []
      end →
  step_provider s = p.
Proof.
  destruct oc, use; try (intros Hs; by apply elem_of_nil in Hs).
  apply provider_steps_provider.
Qed.

Lemma optional_steps_sorted p (oc : option (client W)) (use : bool)
    identifier title :
  StronglySorted before
    match oc with
    | Some c => if use then provider_steps p c identifier title else []
    | None => []
    end.
Proof. destruct oc, use; auto using provider_steps_sorted; constructor. Qed.

Lemma priority_steps_sorted self uss upm uel doi e :
  StronglySorted before (priority_steps self uss upm uel doi e).
Proof.
  unfold priority_steps.
  pose proof (optional_steps_provider Elsevier (elsevier self) uel
                (known doi) (e !! "title")) as HE.
  pose proof (optional_steps_provider PubMed (pubmed self) upm
                (e !! "pmid") (e !! "title")) as HP.
  pose proof (provider_steps_provider Crossref (crossref self)
                (known doi) (e !! "title")) as HC.
  pose proof (optional_steps_provider SemanticScholar
                (Some (semantic_scholar self)) uss (known doi) (e !! "title"))
    as HS.
  pose proof (optional_steps_sorted SemanticScholar
                (Some (semantic_scholar self)) uss (known doi) (e !! "title"))
    as SS.
  simpl in HS, SS.
  apply sorted_app; [apply optional_steps_sorted| |].
  1: apply sorted_app; [apply optional_steps_sorted| |].
  1: apply sorted_app; [apply provider_steps_sorted|done|].
  all: intros s1 s2 H1 H2; left;
    rewrite ?elem_of_app in H2;
    repeat match type of H2 with _ ∨ _ => destruct H2 as [H2|H2] end;
    try (apply HE in H1); try (apply HP in H1); try (apply HC in H1);
    try (apply HP in H2); try (apply HC in H2); try (apply HS in H2);
    rewrite H1, H2; simpl; lia.
Qed.

Local Arguments Fallback.consult : simpl never.

(** One block of the source against one step of the specification. *)
Lemma attempt_consult (s : step W) e st :
  attempt (step_provider s) (step_operation s) (step_client s)
    (step_argument s) e st
  = (match (Fallback.consult s (outside st)).1 with
     | Val (Some a) => Val (Some (<["abstract" := a]> e))
     | Val None => Val None
     | Raise x => Raise x
     end,
     State (Fallback.consult s (outside st)).2 (calls st ++ [step_call s])
       (files st)).
Proof.
  unfold attempt, invoke, Fallback.consult, mbind, eng_bind, lift, step_call.
  destruct (method _ _ _ (outside st)) as [[data|x] w]; simpl; [|done].
  destruct (truthy data); simpl; [|done].
  destruct (get_abstract (step_client s) data) as [[[|y a]|]|x]; done.
Qed.

Lemma first_abstract_wins_yield steps : ∀ e st,
  first_abstract_wins steps e st
  = (Fallback.settle e (Fallback.first_yield steps (outside st)).1.1,
     State (Fallback.first_yield steps (outside st)).2
       (calls st
        ++ (step_call <$> take (Fallback.first_yield steps (outside st)).1.2
                            steps))
       (files st)).
Proof.
  induction steps as [|s tl IH]; intros e st; simpl.
  { rewrite app_nil_r. by destruct st. }
  unfold unless_returned, mbind, eng_bind. rewrite attempt_consult.
  destruct (Fallback.consult s (outside st)) as [[[a|]|x] w]; simpl; try done.
  rewrite IH. simpl.
  destruct (Fallback.first_yield tl w) as [[r n] w']. simpl.
  by rewrite <- app_assoc.
Qed.

(** The walk of the specification, step by step: the steps before the last
    one consulted yielded nothing, and the last one consulted is the one
    that yielded, or raised, unless the steps ran out. *)
Lemma first_yield_steps steps : ∀ w,
  (Fallback.first_yield steps w).1.2 ≤ length steps
  ∧ (∀ i s, i < (Fallback.first_yield steps w).1.2 - 1 → steps !! i = Some s →
            (Fallback.consult s (Fallback.world_after steps w i)).1 = Val None)
  ∧ match (Fallback.first_yield steps w).1.1 with
    | Val None =>
        (Fallback.first_yield steps w).1.2 = length steps
        ∧ ∀ i s, steps !! i = Some s →
                 (Fallback.consult s (Fallback.world_after steps w i)).1
                 = Val None
    | r =>
        0 < (Fallback.first_yield steps w).1.2
        ∧ ∃ s, steps !! ((Fallback.first_yield steps w).1.2 - 1) = Some s
               ∧ Fallback.consult s
                   (Fallback.world_after steps w
                      ((Fallback.first_yield steps w).1.2 - 1))
                 = (r, (Fallback.first_yield steps w).2)
    end.
Proof.
  induction steps as [|s tl IH]; intros w; simpl.
  { split; [lia|]. split; [intros; lia|]. split; [done|]. intros i s Hi. done. }
  destruct (Fallback.consult s w) as [[[a|]|x] w'] eqn:Hs; simpl.
  - split; [lia|]. split; [intros; lia|]. split; [lia|]. by exists s.
  - destruct (IH w') as (Hn & Hbefore & Hlast).
    destruct (Fallback.first_yield tl w') as [[r n] w''] eqn:Hw.
    cbn [fst snd] in *.
    split; [lia|]. split.
    { intros [|i] s' Hi Hs'; simpl in Hs'.
      - injection Hs' as <-. by rewrite Hs.
      - apply Hbefore; [lia|done]. }
    assert (∀ s', tl !! (n - 1) = Some s' → 0 < n →
                  (s :: tl) !! (S n - 1) = Some s'
                  ∧ match S n - 1 with
                    | 0 => w
                    | S i' => Fallback.world_after tl w' i'
                    end = Fallback.world_after tl w' (n - 1)) as Hshift.
    { intros s' Hs' Hpos. destruct n as [|n]; [lia|].
      replace (S (S n) - 1) with (S n) by lia.
      replace (S n - 1) with n in * by lia. done. }
    destruct r as [[a|]|x].
    + destruct Hlast as (Hpos & s' & Hs' & Hc). split; [lia|].
      exists s'. destruct (Hshift s' Hs' Hpos) as [-> ->]. done.
    + destruct Hlast as (-> & Hall). split; [done|].
      intros [|i] s' Hs'; simpl in Hs'.
      * injection Hs' as <-. by rewrite Hs.
      * by apply Hall.
    + destruct Hlast as (Hpos & s' & Hs' & Hc). split; [lia|].
      exists s'. destruct (Hshift s' Hs' Hpos) as [-> ->]. done.
  - split; [lia|]. split; [intros; lia|]. split; [lia|]. by exists s.
Qed.

(** C1.  For a record with no non-empty abstract (and outside dry-run),
    [enrich_entry] first looks for an identifier, and then does what the
    specification says of the provider steps of the record, which are in the
    order Elsevier, PubMed, Crossref, Semantic Scholar, the identifier
    lookup of a provider before its title search.  It consults the steps in
    that order: the first step that yields a non-empty abstract has it
    written to the record, which is returned; the steps before it were
    consulted and yielded nothing; the steps after it are skipped, as the
    calls made are those of the steps up to it and no other.  When no step
    yields, every step was consulted and the record comes back without
    abstract. *)
Theorem enrich_entry_priority_order self e uss upm uel st :
  has_abstract e = false →
  match discover_doi self e st with
  | (Raise x, st1) =>
      enrich_entry self e uss upm uel false st = (Raise x, st1)
  | (Val (doi, e1), st1) =>
      let steps := priority_steps self uss upm uel doi e1 in
      let walk := Fallback.first_yield steps (outside st1) in
      let consulted := walk.1.2 in
      StronglySorted before steps
      ∧ enrich_entry self e uss upm uel false st
        = (match walk.1.1 with
           | Val (Some a) => Val (<["abstract" := a]> e1)
           | Val None => Val e1
           | Raise x => Raise x
           end,
           State walk.2 (calls st1 ++ (step_call <$> take consulted steps))
             (files st))
      ∧ consulted ≤ length steps
      ∧ (∀ i s, i < consulted - 1 → steps !! i = Some s →
                (Fallback.consult s
                   (Fallback.world_after steps (outside st1) i)).1
                = Val None)
      ∧ match walk.1.1 with
        | Val None =>
            consulted = length steps
            ∧ ∀ i s, steps !! i = Some s →
                     (Fallback.consult s
                        (Fallback.world_after steps (outside st1) i)).1
                     = Val None
        | r =>
            0 < consulted
            ∧ ∃ s, steps !! (consulted - 1) = Some s
                   ∧ Fallback.consult s
                       (Fallback.world_after steps (outside st1)
                          (consulted - 1))
                     = (r, walk.2)
        end
  end.
Proof.
  intros Hno. rewrite enrich_entry_walk by done. unfold mbind, eng_bind.
  destruct (discover_doi self e st) as [[[doi e1]|x] st1] eqn:Hd; [|done].
  apply discover_doi_inv in Hd as (Hfiles & _). simpl.
  split; [apply priority_steps_sorted|].
  split.
  { rewrite first_abstract_wins_yield, Hfiles. unfold Fallback.settle.
    by destruct (Fallback.first_yield _ _).1.1 as [[a|]|x]. }
  apply first_yield_steps.
Qed.

(** What one call of [enrich_entry] can do, whatever its arguments. *)
Lemma enrich_entry_inv self e uss upm uel dry st r st' :
  enrich_entry self e uss upm uel dry st = (r, st') →
  (r = Val e ∧ st' = st)
  ∨ (dry = false ∧ has_abstract e = false ∧ files st' = files st
     ∧ ∃ r1 st1 found,
         discover_doi self e st = (r1, st1)
         ∧ ((∃ x, r1 = Raise x ∧ r = Raise x ∧ st' = st1 ∧ found = (None, e))
            ∨ (r1 = Val found
               ∧ first_abstract_wins
                   (priority_steps self uss upm uel found.1 found.2) found.2 st1
                 = (r, st')))).
Proof.
  destruct dry; [intros [= <- <-]; by left|].
  destruct (has_abstract e) eqn:Hno.
  { unfold enrich_entry. rewrite Hno. intros [= <- <-]. by left. }
  rewrite enrich_entry_walk by done. unfold mbind, eng_bind.
  destruct (discover_doi self e st) as [[found|x] st1] eqn:Hd.
  - intros Hw. right. repeat split; auto.
    + apply discover_doi_inv in Hd as (Hf & _).
      apply first_abstract_wins_inv in Hw as (_ & _ & _ & Hf' & _). congruence.
    + exists (Val found), st1, found. eauto.
  - intros [= <- <-]. right. repeat split; auto.
    + by apply discover_doi_inv in Hd as (Hf & _).
    + exists (Raise x), st1, (None, e). split; [done|]. left. eauto.
Qed.

(** *** Which steps a record has *)

Lemma provider_steps_elem p c identifier title s :
  s ∈ provider_steps p c identifier title →
  step_provider s = p ∧ step_client s = c.
Proof.
  unfold provider_steps. intros Hs.
  destruct identifier, title; simpl in Hs;
    repeat (apply elem_of_cons in Hs as [->|Hs]; [done|]);
    by apply elem_of_nil in Hs.
Qed.

Lemma priority_steps_elem self uss upm uel doi e s :
  s ∈ priority_steps self uss upm uel doi e →
  provider_client self (step_provider s) = Some (step_client s)
  ∧ switched_on uss upm uel (step_provider s) = true.
Proof.
  unfold priority_steps. rewrite !elem_of_app.
  intros [Hs|[Hs|[Hs|Hs]]].
  - destruct (elsevier self) as [c|] eqn:Hc, uel;
      try by apply elem_of_nil in Hs.
    apply provider_steps_elem in Hs as [-> ->]. done.
  - destruct (pubmed self) as [c|] eqn:Hc, upm;
      try by apply elem_of_nil in Hs.
    apply provider_steps_elem in Hs as [-> ->]. done.
  - apply provider_steps_elem in Hs as [-> ->]. done.
  - destruct uss; try by apply elem_of_nil in Hs.
    apply provider_steps_elem in Hs as [-> ->]. done.
Qed.

(** The calls [enrich_entry] adds: at most the Crossref search that looks
    for an identifier, then calls of steps of the record. *)
Lemma enrich_entry_calls self e uss upm uel dry st :
  ∃ new, calls (enrich_entry self e uss upm uel dry st).2 = calls st ++ new
         ∧ ∀ k : call, k ∈ new →
             call_provider k = Crossref
             ∨ ∃ doi e1 s, s ∈ priority_steps self uss upm uel doi e1
                           ∧ k = step_call s.
Proof.
  destruct (enrich_entry self e uss upm uel dry st) as [r st'] eqn:Hrun.
  apply enrich_entry_inv in Hrun
    as [[_ ->]|(_ & _ & _ & r1 & st1 & found & Hd & Hrest)]; simpl.
  { exists []. rewrite app_nil_r. split; [done|].
    intros c Hc. by apply elem_of_nil in Hc. }
  apply discover_doi_inv in Hd as (_ & Hdc & _).
  assert (∃ d, calls st1 = calls st ++ d
               ∧ ∀ k : call, k ∈ d → call_provider k = Crossref)
    as (d & Hd1 & Hd2).
  { destruct Hdc as [->|(title & _ & _ & ->)].
    - exists []. rewrite app_nil_r. split; [done|].
      intros c Hc. by apply elem_of_nil in Hc.
    - eexists. split; [done|]. intros c Hc.
      apply list_elem_of_singleton in Hc as ->. done. }
  destruct Hrest as [(x & _ & _ & -> & _)|[_ Hw]].
  { exists d. split; [done|]. auto. }
  apply first_abstract_wins_inv in Hw as (n & _ & Hc & _).
  exists (d ++ (step_call <$> take n
                  (priority_steps self uss upm uel found.1 found.2))).
  split; [by rewrite Hc, Hd1, app_assoc|].
  intros c [Hin|Hin]%elem_of_app; [auto|].
  apply list_elem_of_fmap in Hin as (s & -> & Hs).
  right. exists found.1, found.2, s. split; [|done].
  apply elem_of_take in Hs as (i & Hi & _).
  by eapply list_elem_of_lookup_2.
Qed.

(** C4 (as amended).  Elsevier, PubMed and Semantic Scholar each have a
    switch among the arguments of [enrich_entry]; a provider that is
    switched off, or whose client the enricher does not have, gets no call
    from [enrich_entry], whatever the record.  The constructor leaves out
    the PubMed client without an email and the Elsevier client without an
    API key.  Crossref has no switch and is always constructed. *)
Theorem switched_off_provider_is_not_consulted self e uss upm uel dry st :
  (∃ new, calls (enrich_entry self e uss upm uel dry st).2 = calls st ++ new
          ∧ (uel = false ∨ elsevier self = None → never_calls Elsevier new)
          ∧ (upm = false ∨ pubmed self = None → never_calls PubMed new)
          ∧ (uss = false → never_calls SemanticScholar new))
  ∧ (∀ c1 c2 c3 c4 email key,
       (nonempty email = false →
        pubmed (new_enricher c1 c2 c3 c4 email key) = None)
       ∧ (nonempty key = false →
          elsevier (new_enricher c1 c2 c3 c4 email key) = None)).
Proof.
  split.
  - destruct (enrich_entry_calls self e uss upm uel dry st) as (new & Hc & Hnew).
    exists new. split; [done|].
    assert (∀ p, switched_on uss upm uel p = false
                 ∨ provider_client self p = None →
                 never_calls p new) as Hoff.
    { intros p Hp k Hin Heq.
      destruct (Hnew k Hin) as [Hcr|(doi & e1 & s & Hs & ->)].
      - rewrite Hcr in Heq. subst p. simpl in Hp. by destruct Hp.
      - apply priority_steps_elem in Hs as [Hcl Hon].
        simpl in Heq. rewrite Heq in Hcl, Hon.
        destruct Hp; congruence. }
    repeat split.
    + intros Hp. apply Hoff. simpl. done.
    + intros Hp. apply Hoff. simpl. done.
    + intros Hp. apply Hoff. simpl. by left.
  - intros c1 c2 c3 c4 email key. split.
    + destruct email as [[|? ?]|]; simpl; done.
    + destruct key as [[|? ?]|]; simpl; done.
Qed.

(** C8.  When [enrich_entry] returns a record still without abstract, the
    record is the one it was given, or that one with the [doi] field the
    title search found: every other field is as it was. *)
Theorem failed_entry_keeps_its_fields self e uss upm uel dry st e' st' :
  enrich_entry self e uss upm uel dry st = (Val e', st') →
  has_abstract e' = false →
  (∀ k, k ≠ "doi" → e' !! k = e !! k)
  ∧ (e' = e
     ∨ ∃ d, e' = <["doi" := d]> e ∧ nonempty (e !! "doi") = false
            ∧ is_Some (e !! "title")).
Proof.
  intros Hrun Hfail.
  assert (e' = e
          ∨ ∃ d, e' = <["doi" := d]> e ∧ nonempty (e !! "doi") = false
                 ∧ is_Some (e !! "title")) as Hcases.
  { apply enrich_entry_inv in Hrun
      as [[[= ->] _]|(_ & _ & _ & r1 & st1 & found & Hd & Hrest)]; [by left|].
    apply discover_doi_inv in Hd as (_ & _ & Hr1).
    destruct Hrest as [(x & _ & [=] & _)|[-> Hw]].
    destruct found as [doi e1]. simpl in *.
    apply first_abstract_wins_inv in Hw as (n & _ & _ & _ & Hr).
    destruct Hr as [[-> _]|(s & w & data & x & a & _ & _ & _ & _ & ->)].
    - destruct Hr1 as [[_ ->]|(d & _ & -> & ? & ?)]; eauto.
    - unfold has_abstract in Hfail. by rewrite lookup_insert_eq in Hfail. }
  split; [|done].
  intros k Hk. destruct Hcases as [->|(d & -> & _)]; [done|].
  by rewrite lookup_insert_ne.
Qed.

(** C2 (as amended).  When [enrich_entry] accepts an abstract, the last
    call it made is the step that yielded it, and the [abstract] field of
    the record is the text [get_abstract] returned for the data of that
    call: the text goes to the record as it is, [clean_abstract] is not
    applied to it. *)
Theorem accepted_abstract_is_stored_as_returned
    self e uss upm uel dry st e' st' :
  has_abstract e = false →
  enrich_entry self e uss upm uel dry st = (Val e', st') →
  has_abstract e' = true →
  ∃ p op c arg w data text earlier,
    provider_client self p = Some c
    ∧ calls st' = earlier ++ [Call p op arg]
    ∧ method op c arg w = (Val data, outside st')
    ∧ get_abstract c data = Val (Some text)
    ∧ e' !! "abstract" = Some text.
Proof.
  intros Hno Hrun Hyes.
  apply enrich_entry_inv in Hrun
    as [[[= ->] _]|(_ & _ & _ & r1 & st1 & found & Hd & Hrest)]; [congruence|].
  apply discover_doi_inv in Hd as (_ & _ & Hr1).
  destruct Hrest as [(x & _ & [=] & _)|[-> Hw]].
  destruct found as [doi e1]. simpl in *.
  apply first_abstract_wins_inv in Hw as (n & Hn & Hc & _ & Hr).
  destruct Hr as [[-> _]|(s & w & data & x & a & Hpos & Hs & Hm & Hg & ->)].
  { destruct Hr1 as [[_ ->]|(d & _ & -> & _)]; [congruence|].
    unfold has_abstract in *. rewrite lookup_insert_ne in Hyes by done.
    congruence. }
  assert (s ∈ priority_steps self uss upm uel doi e1) as Hin.
  { eapply list_elem_of_lookup_2; eauto. }
  apply priority_steps_elem in Hin as [Hcl _].
  exists (step_provider s), (step_operation s), (step_client s),
    (step_argument s), w, data, (x :: a).
  exists (calls st1
          ++ (step_call <$> take (n - 1) (priority_steps self uss upm uel doi e1))).
  repeat split; auto.
  - rewrite Hc, <- app_assoc. f_equal.
    replace n with (S (n - 1)) at 1 by lia.
    erewrite take_S_r by eauto. by rewrite fmap_app.
  - by rewrite lookup_insert_eq.
Qed.

(** *** The batch driver *)

Lemma process_entry_inv self uss upm uel dry s e st s' e' st' :
  process_entry self uss upm uel dry s e st = (Val (s', e'), st') →
  enrich_entry self e uss upm uel dry st = (Val e', st')
  ∧ total s' = total s
  ∧ ((already_had_abstract s' = already_had_abstract s + 1
      ∧ enriched s' = enriched s ∧ failed s' = failed s)
     ∨ (already_had_abstract s' = already_had_abstract s
        ∧ enriched s' = enriched s + 1 ∧ failed s' = failed s)
     ∨ (already_had_abstract s' = already_had_abstract s
        ∧ enriched s' = enriched s ∧ failed s' = failed s + 1)).
Proof.
  unfold process_entry, mbind, eng_bind.
  destruct (enrich_entry self e uss upm uel dry st) as [[e1|x] st1]; [|done].
  destruct (has_abstract e), (has_abstract e1); intros [= <- <- <-]; simpl;
    auto 10.
Qed.

Lemma process_entries_inv self uss upm uel dry todo : ∀ s done st s' out st',
  process_entries self uss upm uel dry s done todo st = (Val (s', out), st') →
  total s' = total s ∧ counted s' = counted s + length todo.
Proof.
  induction todo as [|e todo IH]; intros s done st s' out st'; simpl.
  { intros [= <- <- <-]. split; [done|lia]. }
  unfold mbind, eng_bind.
  destruct (process_entry self uss upm uel dry s e st) as [[[s1 e1]|x] st1] eqn:H1;
    [|done].
  apply process_entry_inv in H1 as (_ & Ht & Hcount). simpl.
  intros Hrest. apply IH in Hrest as [Ht' Hc'].
  split; [congruence|]. unfold counted in *. lia.
Qed.

(** C10.  Each record the loop of [enrich_file] processes adds one to exactly
    one of [already_had_abstract], [enriched] and [failed], and leaves
    [total] alone; so when [enrich_file] returns, [total] is the number of
    records loaded and the three counters add up to it. *)
Theorem counters_add_up_to_total self input output uss upm uel dry st :
  (∀ s e st1 s' e' st2,
     process_entry self uss upm uel dry s e st1 = (Val (s', e'), st2) →
     total s' = total s
     ∧ ((already_had_abstract s' = already_had_abstract s + 1
         ∧ enriched s' = enriched s ∧ failed s' = failed s)
        ∨ (already_had_abstract s' = already_had_abstract s
           ∧ enriched s' = enriched s + 1 ∧ failed s' = failed s)
        ∨ (already_had_abstract s' = already_had_abstract s
           ∧ enriched s' = enriched s ∧ failed s' = failed s + 1)))
  ∧ match enrich_file self input output uss upm uel dry st with
    | (Val s, _) =>
        (∃ entries, files st !! input = Some entries ∧ total s = length entries)
        ∧ already_had_abstract s + enriched s + failed s = total s
    | (Raise _, _) => True
    end.
Proof.
  split.
  { intros s e st1 s' e' st2 Hp. by apply process_entry_inv in Hp as (_ & ? & ?). }
  unfold enrich_file, load_bibtex, mbind, eng_bind.
  destruct (files st !! input) as [entries|] eqn:Hin; [|done].
  destruct (process_entries _ _ _ _ _ _ _ _ st) as [[[s out]|x] st1] eqn:Hp;
    [|done].
  apply process_entries_inv in Hp as [Ht Hc]. simpl in Ht, Hc.
  unfold counted in Hc. simpl in Hc.
  destruct dry; simpl; (split; [eauto|lia]).
Qed.

Lemma dry_run_entries self uss upm uel todo : ∀ s done st,
  ∃ s', process_entries self uss upm uel true s done todo st
        = (Val (s', done ++ todo), st).
Proof.
  induction todo as [|e todo IH]; intros s done st; simpl.
  { exists s. by rewrite app_nil_r. }
  unfold mbind, eng_bind. simpl.
  match goal with
  | |- context [process_entries _ _ _ _ _ ?s1 ?d1 todo st] =>
      destruct (IH s1 d1 st) as (s' & ->)
  end.
  exists s'. by rewrite <- app_assoc.
Qed.

(** C9.  In dry-run, [enrich_entry] returns the record it was given and
    [enrich_file] leaves everything as it was: no call to a provider, no
    file written, the output file in particular. *)
Theorem dry_run_touches_nothing self e input output uss upm uel st :
  enrich_entry self e uss upm uel true st = (Val e, st)
  ∧ (enrich_file self input output uss upm uel true st).2 = st.
Proof.
  split; [done|].
  unfold enrich_file, load_bibtex, mbind, eng_bind.
  destruct (files st !! input) as [entries|]; [|done].
  destruct (dry_run_entries self uss upm uel entries
              (Stats (length entries) 0 0 0) [] st) as (s' & Hrun).
  simpl in Hrun. simpl. by rewrite Hrun.
Qed.

Lemma enriched_entries_pass self uss upm uel dry todo : ∀ t n f a done st,
  Forall (λ e, has_abstract e = true) todo →
  process_entries self uss upm uel dry (Stats t n f a) done todo st
  = (Val (Stats t n f (a + length todo), done ++ todo), st).
Proof.
  induction todo as [|e todo IH]; intros t n f a done st Hall; simpl.
  { by rewrite app_nil_r, Nat.add_0_r. }
  apply Forall_cons in Hall as [He Hall].
  unfold mbind, eng_bind, process_entry, enrich_entry. rewrite He.
  destruct dry; simpl; rewrite IH by done;
    by rewrite <- app_assoc, <- Nat.add_assoc.
Qed.

(** C5.  A record whose abstract is present and not empty comes back from
    [enrich_entry] as it went in, without a call to any provider; and
    [enrich_file] on a file whose records all have an abstract makes no
    call, counts every record in [already_had_abstract], and (outside
    dry-run) writes the records back as they were. *)
Theorem enriched_input_makes_no_calls self uss upm uel dry :
  (∀ e st, has_abstract e = true →
           enrich_entry self e uss upm uel dry st = (Val e, st))
  ∧ (∀ input output entries st,
       files st !! input = Some entries →
       Forall (λ e, has_abstract e = true) entries →
       ∃ st',
         enrich_file self input output uss upm uel dry st
         = (Val (Stats (length entries) 0 0 (length entries)), st')
         ∧ calls st' = calls st ∧ outside st' = outside st
         ∧ files st' = if dry then files st
                       else <[output := entries]> (files st)).
Proof.
  split.
  { intros e st He. unfold enrich_entry. rewrite He. by destruct dry. }
  intros input output entries st Hin Hall.
  unfold enrich_file, load_bibtex, mbind, eng_bind. rewrite Hin. simpl.
  rewrite enriched_entries_pass by done. simpl.
  destruct dry; simpl; eauto.
Qed.

End Facts.
End EngineFacts.

(** ** The model at work: the scenarios of the specification, and the
    theorems above at concrete records *)

Module Runs.
Import Text Json Net Engine Policy Fixtures.

(** The end-to-end scenario: the record gains the DOI the title search finds
    and the abstract Semantic Scholar has for it; the Crossref lookups that
    come first find no abstract. *)
Example attention_is_enriched u :
  let run := enrich_file (Wiring.plain_enricher u) "in.bib" "out.bib"
               true true true false attention_library in
  run.1 = Val (Stats 1 1 0 0)
  ∧ files run.2 !! "out.bib"
    = Some [ <["abstract" := py "We propose..."]>
               (<["doi" := py "10.5555/attn"]> attention) ]
  ∧ call_provider <$> calls run.2
    = [Crossref; Crossref; Crossref; SemanticScholar].
Proof. vm_compute. repeat split. Qed.

(** "If only Crossref returns a match, statistics show exactly one
    enriched": Elsevier and PubMed are asked first and have nothing. *)
Example only_crossref_has_it :
  let run := enrich_file (crossref_helps (py "An abstract.")) "in.bib" "out.bib"
               true true true false
               (State () [] {[ "in.bib"%string := [title_only] ]}) in
  run.1 = Val (Stats 1 1 0 0)
  ∧ call_provider <$> calls run.2
    = [Crossref; Elsevier; PubMed; Crossref]
  ∧ files run.2 !! "out.bib"
    = Some [ <["abstract" := py "An abstract."]> title_only ].
Proof. vm_compute. repeat split. Qed.

(** An empty abstract is no abstract; cleaning it gives [None]. *)
Example clean_abstract_of_nothing u :
  Cleaner.clean_abstract u (Some []) = None
  ∧ Cleaner.clean_abstract u None = None.
Proof. done. Qed.

(** Elsevier and PubMed find nothing for the title [T] and Crossref has
    the abstract: the three are consulted in this order, the abstract of
    Crossref is written to the record, and Semantic Scholar is not asked. *)
Lemma enrich_entry_priority_order_witness :
  has_abstract title_only = false
  ∧ enrich_entry (crossref_helps (py "A")) title_only true true true false
      start
    = (Val (<["abstract" := py "A"]> title_only),
       State () [ Call Crossref ByTitle (py "T");
                  Call Elsevier ByTitle (py "T");
                  Call PubMed ByTitle (py "T");
                  Call Crossref ByTitle (py "T") ] ∅).
Proof.
  split; [reflexivity|].
  pose proof (EngineFacts.enrich_entry_priority_order (crossref_helps (py "A"))
                title_only true true true start eq_refl) as Hwalk.
  vm_compute in Hwalk. destruct Hwalk as (_ & Hrun & _).
  exact Hrun.
Defined.

(** Crossref returns an abstract with markup: it reaches the record with the
    markup, where [clean_abstract] would have given [Foo]. *)
Lemma stored_abstract_is_not_cleaned :
  (∀ u, (enrich_entry (Wiring.plain_enricher u) doi_only true true true false
           (online [tagged_work])).1
        = Val (<["abstract" := py "<p>Foo</p>"]> doi_only))
  ∧ (∀ u, Cleaner.clean_abstract u (Some (py "<p>Foo</p>")) = Some (py "Foo"))
  ∧ py "<p>Foo</p>" ≠ py "Foo".
Proof.
  split; [intros u; vm_compute; reflexivity|].
  split; [intros u; vm_compute; reflexivity|].
  discriminate.
Qed.

Lemma accepted_abstract_is_stored_as_returned_witness :
  has_abstract doi_only = false
  ∧ enrich_entry (crossref_helps (py "<p>Foo</p>")) doi_only true true true
      false start
    = (Val (<["abstract" := py "<p>Foo</p>"]> doi_only),
       State () [ Call Elsevier ById (py "10.1/x");
                  Call Crossref ById (py "10.1/x") ] ∅)
  ∧ has_abstract (<["abstract" := py "<p>Foo</p>"]> doi_only) = true
  ∧ ∃ p op c arg w data text earlier,
      provider_client (crossref_helps (py "<p>Foo</p>")) p = Some c
      ∧ [ Call Elsevier ById (py "10.1/x"); Call Crossref ById (py "10.1/x") ]
        = earlier ++ [Call p op arg]
      ∧ method op c arg w = (Val data, ())
      ∧ get_abstract c data = Val (Some text)
      ∧ (<["abstract" := py "<p>Foo</p>"]> doi_only) !! "abstract" = Some text.
Proof.
  split; [reflexivity|]. split; [reflexivity|]. split; [reflexivity|].
  apply (EngineFacts.accepted_abstract_is_stored_as_returned
           (crossref_helps (py "<p>Foo</p>")) doi_only true true true false
           start (<["abstract" := py "<p>Foo</p>"]> doi_only)
           (State () [ Call Elsevier ById (py "10.1/x");
                       Call Crossref ById (py "10.1/x") ] ∅)); reflexivity.
Defined.

(** Whatever the three switches say, Crossref is called for this record:
    no setting of the arguments of [enrich_entry] keeps it out. *)
Lemma crossref_has_no_switch :
  ¬ ∃ uss upm uel,
      never_calls Crossref
        (calls (enrich_entry all_silent title_only uss upm uel false start).2).
Proof.
  intros (uss & upm & uel & Hnever).
  apply (Hnever (Call Crossref ByTitle (py "T"))); [|done].
  destruct uss, upm, uel; vm_compute; constructor.
Qed.

Lemma enriched_input_makes_no_calls_witness :
  has_abstract with_abstract = true
  ∧ enrich_entry all_silent with_abstract true true true false start
    = (Val with_abstract, start).
Proof.
  split; [reflexivity|].
  apply (EngineFacts.enriched_input_makes_no_calls all_silent true true true
           false). reflexivity.
Defined.

(** The title search finds a DOI and no provider has an abstract: the record
    comes back with the DOI added and its title untouched. *)
Lemma failed_entry_keeps_its_fields_witness :
  enrich_entry only_doi_found title_only true true true false start
  = (Val (<["doi" := py "10.1/x"]> title_only),
     State () [ Call Crossref ByTitle (py "T");
                Call Elsevier ById (py "10.1/x");
                Call Elsevier ByTitle (py "T");
                Call PubMed ByTitle (py "T");
                Call Crossref ById (py "10.1/x");
                Call Crossref ByTitle (py "T");
                Call SemanticScholar ById (py "10.1/x");
                Call SemanticScholar ByTitle (py "T") ] ∅)
  ∧ has_abstract (<["doi" := py "10.1/x"]> title_only) = false
  ∧ (∀ k, k ≠ "doi"%string →
          (<["doi" := py "10.1/x"]> title_only) !! k = title_only !! k).
Proof.
  split; [reflexivity|]. split; [reflexivity|].
  apply (EngineFacts.failed_entry_keeps_its_fields only_doi_found title_only
           true true true false start (<["doi" := py "10.1/x"]> title_only)
           (State () [ Call Crossref ByTitle (py "T");
                       Call Elsevier ById (py "10.1/x");
                       Call Elsevier ByTitle (py "T");
                       Call PubMed ByTitle (py "T");
                       Call Crossref ById (py "10.1/x");
                       Call Crossref ByTitle (py "T");
                       Call SemanticScholar ById (py "10.1/x");
                       Call SemanticScholar ByTitle (py "T") ] ∅)); reflexivity.
Defined.

(** Of two candidates that tie for the best score, the first one is
    selected. *)
Lemma selected_match_is_first_maximum_witness :
  CrossrefAPI.select_match ascii_only (py "deep learning") (17 # 20)
    (JList three_candidates)
  = Val (candidate "Deep Learning!" "10.1/b")
  ∧ ((∃ i s, three_candidates !! i = Some (candidate "Deep Learning!" "10.1/b")
             ∧ CrossrefAPI.similarity_of ascii_only (py "deep learning")
                 (candidate "Deep Learning!" "10.1/b") = Val (Some s)
             ∧ (17 # 20 <= s)%Q
             ∧ ∀ j c s', three_candidates !! j = Some c →
                         CrossrefAPI.similarity_of ascii_only
                           (py "deep learning") c = Val (Some s') →
                         (s' <= s)%Q ∧ (j < i → (s' < s)%Q))
     ∨ (candidate "Deep Learning!" "10.1/b" = JNull
        ∧ ∀ j c s', three_candidates !! j = Some c →
                    CrossrefAPI.similarity_of ascii_only
                      (py "deep learning") c = Val (Some s') →
                    ¬ ((17 # 20 <= s')%Q ∧ (0 < s')%Q))).
Proof.
  split; [vm_compute; reflexivity|].
  apply (CrossrefFacts.selected_match_is_first_maximum ascii_only
           (py "deep learning") (17 # 20) three_candidates).
  vm_compute. reflexivity.
Defined.

End Runs.

(** ** More of the engine: what a record and a file can become *)

Module EngineMore.
Import Text Json Engine Policy Invariants Accounts.

Section More.
Context {W : Type}.
Implicit Types (self : enricher W) (c : client W) (e : entry) (st : state W)
  (steps : list (step W)).

(** The record [enrich_entry] returns is the one it got, with at most a
    discovered [doi] and then an accepted [abstract] written to it. *)
Lemma enrich_entry_shape self e uss upm uel dry st e' st' :
  enrich_entry self e uss upm uel dry st = (Val e', st') →
  ∃ e1,
    (e1 = e
     ∨ ∃ d, e1 = <["doi" := d]> e ∧ nonempty (e !! "doi") = false
            ∧ is_Some (e !! "title") ∧ dry = false ∧ has_abstract e = false)
    ∧ (e' = e1
       ∨ ∃ x a, e' = <["abstract" := x :: a]> e1 ∧ has_abstract e = false
                ∧ dry = false).
Proof.
  intros Hrun.
  apply EngineFacts.enrich_entry_inv in Hrun
    as [[[= ->] _]|(-> & Hno & _ & r1 & st1 & found & Hd & Hrest)].
  { exists e. split; [by left|by left]. }
  apply EngineFacts.discover_doi_inv in Hd as (_ & _ & Hr1).
  destruct Hrest as [(x & _ & [=] & _)|[-> Hw]].
  destruct found as [doi e1]. simpl in *.
  apply EngineFacts.first_abstract_wins_inv in Hw as (n & _ & _ & _ & Hr).
  exists e1. split.
  - destruct Hr1 as [[_ ->]|(d & _ & -> & ? & ?)]; [by left|].
    right. exists d. auto.
  - destruct Hr as [[-> _]|(s & w & data & x & a & _ & _ & _ & _ & ->)];
      [by left|]. right. exists x, a. auto.
Qed.

(** X1.  Whatever happens, [enrich_entry] only writes the fields [doi] and
    [abstract]: every other field of the record it returns is as it was, and
    no field of the record is lost. *)
Theorem enrich_entry_writes_doi_and_abstract_only
    self e uss upm uel dry st e' st' :
  enrich_entry self e uss upm uel dry st = (Val e', st') →
  (∀ k, k ≠ "doi" → k ≠ "abstract" → e' !! k = e !! k)
  ∧ (∀ k, is_Some (e !! k) → is_Some (e' !! k)).
Proof.
  intros Hrun.
  apply enrich_entry_shape in Hrun as (e1 & H1 & H2).
  assert ((∀ k, k ≠ "doi" → e1 !! k = e !! k)
          ∧ ∀ k, is_Some (e !! k) → is_Some (e1 !! k)) as [Hk1 Hs1].
  { destruct H1 as [->|(d & -> & _)]; [done|]. split.
    - intros k Hk. by rewrite lookup_insert_ne.
    - intros k Hk. rewrite lookup_insert. case_decide; eauto. }
  destruct H2 as [->|(x & a & -> & _)].
  - split; [intros k Hk _; by apply Hk1|done].
  - split.
    + intros k Hk Hk'. rewrite lookup_insert_ne by done. by apply Hk1.
    + intros k Hk. rewrite lookup_insert. case_decide; eauto.
Qed.

(** X2.  A DOI the record already has (and that is not empty) is never
    replaced; and a record without a title never gets a DOI written, since
    the only search for one is by title. *)
Theorem enrich_entry_keeps_its_doi self e uss upm uel dry st e' st' :
  enrich_entry self e uss upm uel dry st = (Val e', st') →
  (nonempty (e !! "doi") = true → e' !! "doi" = e !! "doi")
  ∧ (e !! "title" = None → e' !! "doi" = e !! "doi").
Proof.
  intros Hrun.
  apply enrich_entry_shape in Hrun as (e1 & H1 & H2).
  assert (nonempty (e !! "doi") = true ∨ e !! "title" = None → e1 = e) as He1.
  { intros Hor. destruct H1 as [->|(d & _ & ? & [t Ht] & _)]; [done|].
    destruct Hor; congruence. }
  split; intros Hyp; rewrite He1 in H2 by auto;
    (destruct H2 as [->|(x & a & -> & _)]; [done|by rewrite lookup_insert_ne]).
Qed.

Lemma provider_steps_length p c (identifier title : option pystr) :
  length (provider_steps p c identifier title) ≤ 2.
Proof. destruct identifier, title; simpl; lia. Qed.

Lemma priority_steps_length self uss upm uel doi e :
  length (priority_steps self uss upm uel doi e)
  ≤ 4 + (if elsevier self is Some _ then 2 else 0)
    + (if pubmed self is Some _ then 2 else 0).
Proof.
  unfold priority_steps. rewrite !length_app.
  pose proof (provider_steps_length Crossref (crossref self) (known doi)
                (e !! "title")).
  pose proof (provider_steps_length SemanticScholar (semantic_scholar self)
                (known doi) (e !! "title")).
  destruct (elsevier self) as [c1|], (pubmed self) as [c2|], uel, upm, uss;
    simpl;
    try pose proof (provider_steps_length Elsevier c1 (known doi) (e !! "title"));
    try pose proof (provider_steps_length PubMed c2 (e !! "pmid") (e !! "title"));
    lia.
Qed.

(** X3.  One record costs at most nine calls to the clients: the search
    that looks for a DOI and two calls for each of the four providers; five
    when neither the PubMed nor the Elsevier client was constructed. *)
Theorem enrich_entry_call_budget self e uss upm uel dry st :
  length (calls (enrich_entry self e uss upm uel dry st).2)
  ≤ length (calls st) + 5
    + (if elsevier self is Some _ then 2 else 0)
    + (if pubmed self is Some _ then 2 else 0).
Proof.
  destruct (enrich_entry self e uss upm uel dry st) as [r st'] eqn:Hrun.
  apply EngineFacts.enrich_entry_inv in Hrun
    as [[_ ->]|(_ & _ & _ & r1 & st1 & found & Hd & Hrest)]; simpl; [lia|].
  apply EngineFacts.discover_doi_inv in Hd as (_ & Hdc & _).
  assert (length (calls st1) ≤ length (calls st) + 1) as Hd1.
  { destruct Hdc as [->|(title & _ & _ & ->)]; [lia|].
    rewrite length_app. simpl. lia. }
  destruct Hrest as [(x & _ & _ & -> & _)|[_ Hw]]; [lia|].
  apply EngineFacts.first_abstract_wins_inv in Hw as (n & Hn & Hc & _).
  rewrite Hc, length_app, length_fmap, length_take.
  pose proof (priority_steps_length self uss upm uel found.1 found.2). lia.
Qed.

(** X4.  A record with nothing to search with (no title, no DOI or an
    empty one, no PMID) comes back as it is, without a call to any client
    and without the network being touched. *)
Theorem nothing_to_search_with self e uss upm uel dry st :
  e !! "title" = None → nonempty (e !! "doi") = false → e !! "pmid" = None →
  enrich_entry self e uss upm uel dry st = (Val e, st).
Proof.
  intros Ht Hd Hp. destruct dry; [done|].
  destruct (has_abstract e) eqn:Ha.
  { unfold enrich_entry. by rewrite Ha. }
  rewrite EngineFacts.enrich_entry_walk by done.
  unfold mbind, eng_bind, discover_doi. rewrite Ht. simpl.
  unfold priority_steps, provider_steps. rewrite Ht, Hp.
  assert (known (e !! "doi") = None) as ->.
  { destruct (e !! "doi") as [[|? ?]|]; done. }
  destruct (elsevier self), (pubmed self), uel, upm, uss; done.
Qed.

(** *** The file *)

Lemma with_abstracts_cons e l :
  with_abstracts (e :: l)
  = (if has_abstract e then 1 else 0) + with_abstracts l.
Proof.
  unfold with_abstracts. rewrite filter_cons.
  destruct (decide (has_abstract e = true)) as [->|Hn]; simpl; [done|].
  by destruct (has_abstract e).
Qed.

Lemma process_entries_out self uss upm uel dry todo : ∀ s seen st r st',
  process_entries self uss upm uel dry s seen todo st = (r, st') →
  files st' = files st
  ∧ match r with
    | Val (s', out) =>
        ∃ outs, out = seen ++ outs
                ∧ Forall2 (outcome_of self uss upm uel dry) todo outs
                ∧ already_had_abstract s'
                  = already_had_abstract s + with_abstracts todo
                ∧ failed s' + with_abstracts outs
                  = failed s + length outs
    | Raise _ => True
    end.
Proof.
  induction todo as [|e todo IH]; intros s seen st r st'; simpl.
  { intros [= <- <-]. split; [done|]. exists []. rewrite app_nil_r.
    repeat split; auto. }
  unfold process_entry. unfold mbind, eng_bind, mret, eng_ret.
  destruct (enrich_entry self e uss upm uel dry st) as [[e1|x] st1] eqn:He.
  2: { simpl. intros [= <- <-]. split; [|done].
       apply EngineFacts.enrich_entry_inv in He as [[_ ->]|(_ & _ & ? & _)];
         done. }
  assert (files st1 = files st) as Hf1.
  { apply EngineFacts.enrich_entry_inv in He as [[_ ->]|(_ & _ & ? & _)]; done. }
  assert (has_abstract e = true → has_abstract e1 = true) as Hmono.
  { intros Ha. unfold enrich_entry in He. rewrite Ha in He.
    destruct dry; injection He as <- <-; done. }
  simpl. intros Hrest. apply IH in Hrest as (Hf & Hr). split; [congruence|].
  destruct r as [[s' out]|x]; [|done].
  destruct Hr as (outs & -> & Hall & Hal & Hfa).
  exists (e1 :: outs). split; [by rewrite <- app_assoc|].
  split; [constructor; [by exists st, st1|done]|].
  rewrite !with_abstracts_cons. simpl.
  destruct (has_abstract e) eqn:Ha; [rewrite Hmono in * by done|];
    simpl in *; [lia|].
  destruct (has_abstract e1); simpl in *; lia.
Qed.


(** X6.  [enrich_file] writes nothing before it has gone through the
    whole batch.  When the input does not exist it raises [OSError] and
    leaves everything as it was; when a client raises in the middle of the
    batch, the exception comes out of [enrich_file] as it is and no file
    has been written: the records enriched so far are lost with it. *)
Theorem batch_failure_writes_nothing self input output uss upm uel dry st :
  (files st !! input = None →
   enrich_file self input output uss upm uel dry st = (Raise OSError, st))
  ∧ (∀ entries x st1,
       files st !! input = Some entries →
       process_entries self uss upm uel dry (Stats (length entries) 0 0 0) []
         entries st = (Raise x, st1) →
       enrich_file self input output uss upm uel dry st = (Raise x, st1)
       ∧ files st1 = files st).
Proof.
  unfold enrich_file, load_bibtex, mbind, eng_bind. split.
  { by intros ->. }
  intros entries x st1 -> Hp. simpl. rewrite Hp. split; [done|].
  by apply process_entries_out in Hp as (Hf & _).
Qed.

(** X7.  The counters say what happened to the records: when [enrich_file]
    returns, [already_had_abstract] is the number of records of the input
    with an abstract, and [failed] the number of records of the output
    still without one. *)
Theorem counters_count_the_records self input output uss upm uel st s st' :
  enrich_file self input output uss upm uel false st = (Val s, st') →
  ∃ entries out,
    files st !! input = Some entries ∧ files st' !! output = Some out
    ∧ already_had_abstract s = with_abstracts entries
    ∧ failed s + with_abstracts out = length out
    ∧ enriched s + with_abstracts entries = with_abstracts out.
Proof.
  intros Hrun.
  pose proof (EngineFacts.process_entries_inv self uss upm uel false) as Hsum.
  revert Hrun. unfold enrich_file, load_bibtex, mbind, eng_bind.
  destruct (files st !! input) as [entries|] eqn:Hin; [|done].
  destruct (process_entries _ _ _ _ _ _ _ _ st) as [[[s1 out]|x] st1] eqn:Hp;
    [|done].
  pose proof (Hsum _ _ _ _ _ _ _ Hp) as [_ Hc].
  apply process_entries_out in Hp as (Hf & outs & -> & Hall & Hal & Hfa).
  simpl. intros [= <- <-]. simpl in *.
  exists entries, outs. split; [done|].
  split; [by rewrite lookup_insert_eq|].
  apply Forall2_length in Hall.
  unfold counted in Hc. simpl in Hc. repeat split; lia.
Qed.

Lemma discover_doi_searches self e st title r st1 :
  e !! "title" = Some title → nonempty (e !! "doi") = false →
  discover_doi self e st = (r, st1) →
  calls st1 = calls st ++ [Call Crossref ByTitle title]
  ∧ ∀ found, r = Val found → found.2 !! "title" = Some title.
Proof.
  intros Ht Hd. unfold discover_doi. rewrite Ht, Hd. simpl.
  unfold mbind, eng_bind, invoke, lift.
  destruct (method ByTitle (crossref self) title (outside st)) as [[data|x] w];
    simpl; [|by intros [= <- <-]].
  destruct (truthy data); simpl; [|by intros [= <- <-]; split; [|intros ? [= <-]]].
  destruct (contains "DOI" data) as [[|]|x]; simpl;
    try by (intros [= <- <-]; split; [|intros ? [= <-]]).
  destruct (result_bind _ _ _ (getitem data "DOI")) as [doi|x]; simpl;
    unfold mret, eng_ret; intros [= <- <-]; split; try done.
  intros ? [= <-]. simpl. by rewrite lookup_insert_ne.
Qed.

(** X8.  A record with a title and no DOI for which nothing is found costs
    the same Crossref title search twice: once to look for a DOI, and once
    more in the Crossref block, with the same title. *)
Theorem crossref_is_searched_twice self e uss upm uel st title e' st' :
  e !! "title" = Some title → nonempty (e !! "doi") = false →
  enrich_entry self e uss upm uel false st = (Val e', st') →
  has_abstract e' = false →
  ∃ l1 l2,
    calls st' = calls st ++ Call Crossref ByTitle title :: l1
                ++ Call Crossref ByTitle title :: l2
    ∧ never_calls SemanticScholar l1.
Proof.
  intros Ht Hd Hrun Hno.
  destruct (has_abstract e) eqn:Ha.
  { unfold enrich_entry in Hrun. rewrite Ha in Hrun.
    injection Hrun as <- <-. congruence. }
  rewrite EngineFacts.enrich_entry_walk in Hrun by done.
  unfold mbind, eng_bind in Hrun.
  destruct (discover_doi self e st) as [[found|x] st1] eqn:Hdis; [|done].
  eapply discover_doi_searches in Hdis as [Hc1 Htitle]; [|done..].
  specialize (Htitle _ eq_refl).
  apply EngineFacts.first_abstract_wins_inv in Hrun as (n & Hn & Hc & _ & Hr).
  destruct Hr as [[-> ->]|(s & w & data & x & a & _ & _ & _ & _ & ->)].
  2: { unfold has_abstract in Hno. by rewrite lookup_insert_eq in Hno. }
  rewrite firstn_all in Hc. rewrite Hc, Hc1.
  unfold priority_steps, provider_steps at 3. rewrite Htitle. simpl.
  rewrite !fmap_app. simpl. rewrite <- !app_assoc. simpl.
  eexists _, _. split.
  { rewrite (app_assoc (step_call <$> _) (step_call <$> _)).
    rewrite (app_assoc _ (step_call <$> _) (_ :: _)). reflexivity. }
  intros k. rewrite !elem_of_app, !list_elem_of_fmap.
  intros [[(s & -> & Hs)|(s & -> & Hs)]|(s & -> & Hs)]; simpl.
  - destruct (elsevier self), uel; try by apply elem_of_nil in Hs.
    apply EngineFacts.provider_steps_elem in Hs as [-> _]. done.
  - destruct (pubmed self), upm; try by apply elem_of_nil in Hs.
    apply EngineFacts.provider_steps_elem in Hs as [-> _]. done.
  - destruct (known found.1); simpl in Hs; [|by apply elem_of_nil in Hs].
    apply list_elem_of_singleton in Hs as ->. done.
Qed.

(** *** What a record costs and what can go wrong with it *)

Section Cost.
Context (size : W → nat) (cost : provider → operation → nat).

Lemma attempt_cost p op c arg e st :
  costs_at_most size (cost p) c →
  size (outside (attempt p op c arg e st).2) ≤ size (outside st) + cost p op.
Proof.
  intros Hc. unfold attempt, invoke, mbind, eng_bind, lift.
  specialize (Hc op arg (outside st)). revert Hc.
  destruct (method op c arg (outside st)) as [[data|x] w]; simpl; intros Hc;
    [|lia].
  destruct (truthy data); simpl; [|lia].
  destruct (get_abstract c data) as [[[|y a]|]|x]; simpl; lia.
Qed.

Lemma discover_doi_cost self e st :
  costs_at_most size (cost Crossref) (crossref self) →
  size (outside (discover_doi self e st).2)
  ≤ size (outside st) + cost Crossref ByTitle.
Proof.
  intros Hc. unfold discover_doi.
  destruct (e !! "title") as [title|]; simpl; [|lia].
  destruct (negb (nonempty (e !! "doi"))); simpl; [|lia].
  unfold mbind, eng_bind, invoke, lift.
  specialize (Hc ByTitle title (outside st)). revert Hc.
  destruct (method ByTitle (crossref self) title (outside st)) as [[data|x] w];
    simpl; intros Hc; [|lia].
  destruct (truthy data); simpl; [|lia].
  destruct (contains "DOI" data) as [[|]|x]; simpl; try lia.
  destruct (result_bind _ _ _ (getitem data "DOI")) as [doi|x]; simpl; lia.
Qed.

Lemma first_abstract_wins_cost steps : ∀ e st,
  (∀ s, s ∈ steps → costs_at_most size (cost (step_provider s)) (step_client s)) →
  size (outside (first_abstract_wins steps e st).2)
  ≤ size (outside st) + steps_cost cost steps.
Proof.
  induction steps as [|s steps IH]; intros e st Hall; simpl; [lia|].
  unfold unless_returned, mbind, eng_bind.
  pose proof (attempt_cost (step_provider s) (step_operation s) (step_client s)
                (step_argument s) e st (Hall s ltac:(left))) as Hs.
  destruct (attempt _ _ _ _ e st) as [[[e1|]|x] st1]; simpl in *; try lia.
  specialize (IH e st1 (λ s' Hs', Hall s' ltac:(by right))).
  unfold steps_cost in *. lia.
Qed.

Lemma provider_steps_cost p c (identifier title : option pystr) :
  steps_cost cost (provider_steps p c identifier title)
  ≤ cost p ById + cost p ByTitle.
Proof. destruct identifier, title; unfold steps_cost; simpl; lia. Qed.

Lemma priority_steps_cost self uss upm uel doi e :
  steps_cost cost (priority_steps self uss upm uel doi e) + cost Crossref ByTitle
  ≤ budget self uss upm uel cost.
Proof.
  unfold priority_steps, budget, steps_cost. rewrite !sum_list_with_app.
  pose proof (provider_steps_cost Crossref (crossref self) (known doi)
                (e !! "title")).
  pose proof (provider_steps_cost SemanticScholar (semantic_scholar self)
                (known doi) (e !! "title")).
  unfold steps_cost in *.
  destruct (elsevier self) as [c1|], (pubmed self) as [c2|], uel, upm, uss;
    simpl;
    try pose proof (provider_steps_cost Elsevier c1 (known doi) (e !! "title"));
    try pose proof (provider_steps_cost PubMed c2 (e !! "pmid") (e !! "title"));
    unfold steps_cost in *; lia.
Qed.

(** Whatever the clients act on grows, over one record, by no more than
    the calls the record can lead to cost together. *)
Lemma enrich_entry_cost self e uss upm uel dry st :
  (∀ p c, provider_client self p = Some c → costs_at_most size (cost p) c) →
  size (outside (enrich_entry self e uss upm uel dry st).2)
  ≤ size (outside st) + budget self uss upm uel cost.
Proof.
  intros Hall.
  destruct (enrich_entry self e uss upm uel dry st) as [r st'] eqn:Hrun.
  apply EngineFacts.enrich_entry_inv in Hrun
    as [[_ ->]|(_ & _ & _ & r1 & st1 & found & Hd & Hrest)]; simpl; [lia|].
  pose proof (discover_doi_cost self e st (Hall Crossref _ eq_refl)) as H1.
  rewrite Hd in H1. simpl in H1.
  pose proof (priority_steps_cost self uss upm uel found.1 found.2) as Hb.
  destruct Hrest as [(x & _ & _ & -> & _)|[_ Hw]]; [lia|].
  pose proof (first_abstract_wins_cost
                (priority_steps self uss upm uel found.1 found.2) found.2 st1)
    as H2.
  rewrite Hw in H2. simpl in H2.
  enough (size (outside st')
          ≤ size (outside st1)
            + steps_cost cost (priority_steps self uss upm uel found.1 found.2))
    by lia.
  apply H2. intros s Hs.
  apply EngineFacts.priority_steps_elem in Hs as [Hs _]. by apply Hall.
Qed.

End Cost.

Lemma attempt_never_raises x p op c arg e st :
  client_never_raises x c → (attempt p op c arg e st).1 ≠ Raise x.
Proof.
  intros [Hm Ha]. unfold attempt, invoke, mbind, eng_bind, lift.
  specialize (Hm op arg (outside st)). revert Hm.
  destruct (method op c arg (outside st)) as [[data|y] w]; simpl;
    [intros _|by intros Hne [= ->]].
  destruct (truthy data); simpl; [|done].
  specialize (Ha data). revert Ha.
  destruct (get_abstract c data) as [[[|z a]|]|y]; simpl; try done.
  by intros Hne [= ->].
Qed.

Lemma first_abstract_wins_never_raises x steps : ∀ e st,
  (∀ s, s ∈ steps → client_never_raises x (step_client s)) →
  (first_abstract_wins steps e st).1 ≠ Raise x.
Proof.
  induction steps as [|s steps IH]; intros e st Hall; simpl; [done|].
  unfold unless_returned, mbind, eng_bind.
  pose proof (attempt_never_raises x (step_provider s) (step_operation s)
                (step_client s) (step_argument s) e st (Hall s ltac:(left)))
    as Hs.
  revert Hs.
  destruct (attempt _ _ _ _ e st) as [[[e1|]|y] st1]; simpl; try done;
    try by intros Hne [= ->].
  intros _. apply IH. intros s' Hs'. apply Hall. by right.
Qed.

Lemma discover_doi_never_raises x self e st :
  x ≠ KeyError → x ≠ TypeError →
  client_never_raises x (crossref self) →
  (discover_doi self e st).1 ≠ Raise x.
Proof.
  intros Hk Ht [Hm _]. unfold discover_doi.
  destruct (e !! "title") as [title|]; simpl; [|done].
  destruct (negb (nonempty (e !! "doi"))); simpl; [|done].
  unfold mbind, eng_bind, invoke, lift.
  specialize (Hm ByTitle title (outside st)). revert Hm.
  destruct (method ByTitle (crossref self) title (outside st)) as [[data|y] w];
    simpl; [intros _|by intros Hne [= ->]].
  destruct (truthy data); simpl; [|done].
  destruct data; simpl; try done; try congruence.
  - destruct (infixb _ _); simpl; [congruence|done].
  - destruct (existsb _ _); simpl; [congruence|done].
  - destruct (bool_decide _); simpl; [|done].
    destruct (dict_get "DOI" d) as [[]|]; simpl; congruence || done.
Qed.

(** An exception that no client raises, and that the engine does not raise
    itself on reading what the DOI search returned, does not come out of
    [enrich_entry]. *)
Lemma enrich_entry_never_raises x self e uss upm uel dry st :
  x ≠ KeyError → x ≠ TypeError →
  (∀ p c, provider_client self p = Some c → client_never_raises x c) →
  (enrich_entry self e uss upm uel dry st).1 ≠ Raise x.
Proof.
  intros Hk Ht Hall.
  destruct (enrich_entry self e uss upm uel dry st) as [r st'] eqn:Hrun.
  apply EngineFacts.enrich_entry_inv in Hrun
    as [[-> _]|(_ & _ & _ & r1 & st1 & found & Hd & Hrest)]; simpl; [done|].
  pose proof (discover_doi_never_raises x self e st Hk Ht
                (Hall Crossref _ eq_refl)) as H1.
  rewrite Hd in H1. simpl in H1.
  destruct Hrest as [(y & -> & -> & _)|[_ Hw]]; [by intros [= ->]|].
  pose proof (first_abstract_wins_never_raises x
                (priority_steps self uss upm uel found.1 found.2) found.2 st1)
    as H2.
  rewrite Hw in H2. apply H2. intros s Hs.
  apply EngineFacts.priority_steps_elem in Hs as [Hs _]. by apply Hall in Hs.
Qed.

Lemma process_entries_never_raises x self uss upm uel dry todo : ∀ s seen st,
  (∀ e st, (enrich_entry self e uss upm uel dry st).1 ≠ Raise x) →
  (process_entries self uss upm uel dry s seen todo st).1 ≠ Raise x.
Proof.
  induction todo as [|e todo IH]; intros s seen st Hall; simpl; [done|].
  unfold process_entry. unfold mbind, eng_bind, mret, eng_ret.
  pose proof (Hall e st) as He. revert He.
  destruct (enrich_entry self e uss upm uel dry st) as [[e1|y] st1];
    simpl; [intros _|by intros Hne [= ->]].
  by apply IH.
Qed.

End More.
End EngineMore.

(** ** The clients: what they raise and what they cost *)
Module ClientFacts.
Import Text Json Net Accounts.

Local Ltac member :=
  by repeat first [apply list_elem_of_here | apply list_elem_of_further].

Lemma ro_val {A} l (a : A) : raises_only l (Val a).
Proof. by intros x. Qed.

Lemma ro_raise {A} l x : x ∈ l → raises_only (A := A) l (Raise x).
Proof. by intros Hx y [= <-]. Qed.

Lemma ro_bind {A B} l (m : result A) (k : A → result B) :
  raises_only l m → (∀ a, raises_only l (k a)) → raises_only l (m ≫= k).
Proof.
  intros Hm Hk. destruct m as [a|x]; simpl; [apply Hk|].
  intros y [= <-]. by apply Hm.
Qed.

Lemma ro_if {A} l (b : bool) (r1 r2 : result A) :
  raises_only l r1 → raises_only l r2 → raises_only l (if b then r1 else r2).
Proof. by destruct b. Qed.

Lemma ro_contains l k j : TypeError ∈ l → raises_only l (contains k j).
Proof. intros Hl. destruct j; simpl; by (apply ro_val || apply ro_raise). Qed.

Lemma ro_getitem l j k :
  KeyError ∈ l → TypeError ∈ l → raises_only l (getitem j k).
Proof.
  intros Hk Ht. destruct j; simpl; try by apply ro_raise.
  destruct (dict_get k d); by (apply ro_val || apply ro_raise).
Qed.

Lemma ro_getitem0 l j :
  KeyError ∈ l → TypeError ∈ l → IndexError ∈ l → raises_only l (getitem0 j).
Proof.
  intros Hk Ht Hi. destruct j as [| | |[|]|[|]|]; simpl;
    by (apply ro_val || apply ro_raise).
Qed.

Lemma ro_iterate l j : TypeError ∈ l → raises_only l (iterate j).
Proof. intros Hl. destruct j; simpl; by (apply ro_val || apply ro_raise). Qed.

Lemma ro_as_str l j : TypeError ∈ l → raises_only l (as_str j).
Proof. intros Hl. destruct j; simpl; by (apply ro_val || apply ro_raise). Qed.

Lemma ro_as_optional_str l j : TypeError ∈ l → raises_only l (as_optional_str j).
Proof. intros Hl. destruct j; simpl; by (apply ro_val || apply ro_raise). Qed.

Lemma ro_catching {A} l (body : result A) handled handler :
  (∀ x, body = Raise x → x ∈ handled ∨ x ∈ l) → raises_only l handler →
  raises_only l (ElsevierAPI.catching body handled handler).
Proof.
  intros Hb Hh. destruct body as [a|x]; simpl; [apply ro_val|].
  destruct (bool_decide_reflect (x ∈ handled)) as [Hin|Hout]; [done|].
  intros y [= <-]. destruct (Hb x eq_refl); done.
Qed.

Create HintDb ro.
#[local] Hint Resolve ro_val ro_contains ro_getitem ro_getitem0 ro_iterate
  ro_as_str ro_as_optional_str : ro.
#[local] Hint Extern 1 (_ ∈ _) => member : ro.
#[local] Hint Extern 2 (raises_only _ (_ ≫= _)) => apply ro_bind; [|intros ?] : ro.
#[local] Hint Extern 2 (raises_only _ (if _ then _ else _)) => apply ro_if : ro.
#[local] Hint Extern 2 (raises_only _ (match ?x with _ => _ end)) => destruct x : ro.

(** *** The three [get_abstract] that read a JSON reply *)

Lemma crossref_get_abstract_raises entry :
  raises_only [KeyError; TypeError] (CrossrefAPI.get_abstract entry).
Proof. unfold CrossrefAPI.get_abstract. auto 10 with ro. Qed.

Lemma semantic_scholar_get_abstract_raises entry :
  raises_only [TypeError; AttributeError] (SemanticScholarAPI.get_abstract entry).
Proof.
  unfold SemanticScholarAPI.get_abstract.
  destruct entry; try (apply ro_raise; member). auto with ro.
Qed.

Lemma description_of_raises entry response :
  raises_only [KeyError; TypeError] (ElsevierAPI.description_of entry response).
Proof. unfold ElsevierAPI.description_of. auto 10 with ro. Qed.

Lemma elsevier_get_abstract_raises entry :
  raises_only [TypeError] (ElsevierAPI.get_abstract entry).
Proof.
  unfold ElsevierAPI.get_abstract. apply ro_catching; [|apply ro_val].
  intros x Hx.
  assert (x ∈ [KeyError; TypeError]) as Hin.
  { revert x Hx. change (raises_only [KeyError; TypeError]
      (has ← contains "abstracts-retrieval-response" entry;
       if negb has then ElsevierAPI.full_text_description entry
       else ElsevierAPI.description_of entry "abstracts-retrieval-response")).
    apply ro_bind; [auto with ro|]. intros has. apply ro_if.
    - unfold ElsevierAPI.full_text_description.
      apply ro_bind; [auto with ro|]. intros ?. apply ro_if; [auto with ro|].
      apply description_of_raises.
    - apply description_of_raises. }
  apply elem_of_cons in Hin as [->|Hin]; [left; member|right; done].
Qed.

(** *** The retry loop *)

Lemma fetch_retrying_raises req attempts :
  net_raises_only [RequestException] (fetch_retrying attempts req).
Proof.
  induction attempts as [|attempt rest IH]; intros w; simpl; [apply ro_val|].
  unfold try_except, mbind, net_bind, fetch, sleep, raise.
  destruct (answers w (length (sent w)) req); simpl; [|apply ro_val].
  destruct (attempt =? _); simpl; [apply ro_raise; member|].
  apply IH.
Qed.

Lemma fetch_retrying_some req w :
  (fetch_retrying (seq 0 max_retries) req w).1 ≠ Val None.
Proof.
  destruct (RetryFacts.fetch_retrying_spec req w) as (n & _ & _ & _ & _ & Hr).
  destruct (answers w (length (sent w) + (n - 1)) req).
  - destruct Hr as [_ ->]. done.
  - rewrite Hr. done.
Qed.

Lemma sum_list_seq_small n : n ≤ 3 → sum_list (seq 1 (n - 1)) ≤ 3.
Proof. intros Hn. destruct n as [|[|[|[|n]]]]; simpl; lia. Qed.

Lemma fetch_retrying_within req :
  net_within 3 3 (fetch_retrying (seq 0 max_retries) req).
Proof.
  intros w.
  destruct (RetryFacts.fetch_retrying_spec req w) as (n & Hn & Hs & Hz & _).
  unfold within. rewrite Hs, Hz, length_app, length_replicate.
  rewrite sum_list_with_app. pose proof (sum_list_seq_small n). lia.
Qed.

(** The loop around a whole body repeats the request alone, when what is
    done with the reply cannot raise what the loop catches. *)
Lemma retrying_fetch {A} req (k : json → net A) attempts : ∀ w,
  (∀ data, never_raises RequestException (k data)) →
  ElsevierAPI.retrying attempts (data ← fetch req; k data) w
  = (response ← fetch_retrying attempts req;
     match response with
     | Some data => a ← k data; mret (Some a)
     | None => mret None
     end) w.
Proof.
  induction attempts as [|attempt rest IH]; intros w Hk; simpl; [done|].
  unfold try_except, mbind, net_bind, fetch, sleep, raise.
  destruct (answers w (length (sent w)) req) as [|body]; simpl.
  - destruct (attempt =? _); simpl; [done|].
    rewrite IH by done. done.
  - specialize (Hk body (World (answers w) (sent w ++ [req]) (slept w))).
    destruct (k body _) as [[a|x] w1]; simpl in *; [done|].
    destruct (bool_decide_reflect (x ∈ [RequestException])) as [Hin|Hout];
      [|done].
    apply list_elem_of_singleton in Hin as ->. done.
Qed.

Lemma net_bind_unfold {A B} (m : net A) (k : A → net B) w :
  (m ≫= k) w
  = match m w with
    | (Val a, w') => k a w'
    | (Raise e, w') => (Raise e, w')
    end.
Proof. done. Qed.

(** *** Combining what computations raise *)

Lemma nro_ret {A} l (a : A) : net_raises_only l (mret a).
Proof. intros w. apply ro_val. Qed.

Lemma nro_lift {A} l (r : result A) :
  raises_only l r → net_raises_only l (lift r).
Proof. by intros Hr w. Qed.

Lemma nro_bind {A B} l (m : net A) (k : A → net B) :
  net_raises_only l m → (∀ a, net_raises_only l (k a)) →
  net_raises_only l (m ≫= k).
Proof.
  intros Hm Hk w. unfold mbind, net_bind. specialize (Hm w). revert Hm.
  destruct (m w) as [[a|x] w1]; simpl; intros Hm; [apply Hk|].
  intros y [= <-]. by apply Hm.
Qed.

Lemma nro_if {A} l (b : bool) (m1 m2 : net A) :
  net_raises_only l m1 → net_raises_only l m2 →
  net_raises_only l (if b then m1 else m2).
Proof. by destruct b. Qed.

Lemma nro_fetch l req : RequestException ∈ l → net_raises_only l (fetch req).
Proof.
  intros Hl w. unfold fetch.
  destruct (answers w (length (sent w)) req); simpl;
    by (apply ro_val || apply ro_raise).
Qed.

Lemma nro_try {A} l1 l (body : net A) handled handler :
  net_raises_only l1 body → (∀ x, x ∈ l1 → x ∈ handled ∨ x ∈ l) →
  net_raises_only l handler →
  net_raises_only l (try_except body handled handler).
Proof.
  intros Hb Hl Hh w. unfold try_except. specialize (Hb w). revert Hb.
  destruct (body w) as [[a|x] w1]; simpl; intros Hb; [apply ro_val|].
  destruct (bool_decide_reflect (x ∈ handled)) as [Hin|Hout]; [apply Hh|].
  intros y [= <-]. destruct (Hl x (Hb x eq_refl)); done.
Qed.

Lemma nro_after_retry {A} l req (k : option json → net A) :
  RequestException ∈ l → (∀ body, net_raises_only l (k (Some body))) →
  net_raises_only l (fetch_retrying (seq 0 max_retries) req ≫= k).
Proof.
  intros Hl Hk w. unfold mbind, net_bind.
  pose proof (fetch_retrying_some req w) as Hsome.
  pose proof (fetch_retrying_raises req (seq 0 max_retries) w) as Hr.
  revert Hsome Hr.
  destruct (fetch_retrying (seq 0 max_retries) req w) as [[[body|]|x] w1];
    simpl; intros Hsome Hr; [apply Hk|done|].
  intros y [= <-]. specialize (Hr x eq_refl).
  apply list_elem_of_singleton in Hr as ->. done.
Qed.

(** *** Combining what computations cost *)

Lemma within_trans r1 s1 r2 s2 w w1 w2 :
  within r1 s1 w w1 → within r2 s2 w1 w2 → within (r1 + r2) (s1 + s2) w w2.
Proof. unfold within. lia. Qed.

Lemma nw_mono {A} r s r' s' (m : net A) :
  r ≤ r' → s ≤ s' → net_within r s m → net_within r' s' m.
Proof. intros Hr Hs Hm w. specialize (Hm w). unfold within in *. lia. Qed.

Lemma nw_ret {A} (a : A) : net_within 0 0 (mret a).
Proof. intros w. unfold within. simpl. lia. Qed.

Lemma nw_lift {A} (r : result A) : net_within 0 0 (lift r).
Proof. intros w. unfold within. simpl. lia. Qed.

Lemma nw_raise {A} x : net_within (A := A) 0 0 (raise x).
Proof. intros w. unfold within. simpl. lia. Qed.

Lemma nw_fetch req : net_within 1 0 (fetch req).
Proof.
  intros w. unfold within, fetch.
  destruct (answers w (length (sent w)) req); simpl; rewrite length_app;
    simpl; lia.
Qed.

Lemma nw_bind {A B} r1 s1 r2 s2 (m : net A) (k : A → net B) :
  net_within r1 s1 m → (∀ a, net_within r2 s2 (k a)) →
  net_within (r1 + r2) (s1 + s2) (m ≫= k).
Proof.
  intros Hm Hk w. unfold mbind, net_bind. specialize (Hm w). revert Hm.
  destruct (m w) as [[a|x] w1]; simpl; intros Hm.
  - eapply within_trans; [done|apply Hk].
  - unfold within in *. lia.
Qed.

Lemma nw_if {A} r s (b : bool) (m1 m2 : net A) :
  net_within r s m1 → net_within r s m2 →
  net_within r s (if b then m1 else m2).
Proof. by destruct b. Qed.

Lemma nw_try {A} r s (body : net A) handled (a : A) :
  net_within r s body → net_within r s (try_except body handled (mret a)).
Proof.
  intros Hb w. unfold try_except. specialize (Hb w). revert Hb.
  destruct (body w) as [[b|x] w1]; simpl; [done|].
  by destruct (bool_decide (x ∈ handled)).
Qed.

(** *** What each client method raises *)

Local Ltac sort_out :=
  let x := fresh "x" in
  let Hx := fresh "Hx" in
  intros x Hx;
  repeat (apply elem_of_cons in Hx as [->|Hx]);
  [.. | by apply elem_of_nil in Hx];
  first [left; member | right; member].

Lemma widen {A} l l' (r : result A) :
  raises_only l r → (∀ x, x ∈ l → x ∈ l') → raises_only l' r.
Proof. intros Hr Hl x Hx. by apply Hl, Hr. Qed.

Lemma nro_widen {A} l l' (m : net A) :
  net_raises_only l m → (∀ x, x ∈ l → x ∈ l') → net_raises_only l' m.
Proof. intros Hm Hl w. by eapply widen. Qed.

Lemma crossref_similarity_raises u title result :
  raises_only [KeyError; IndexError; TypeError]
    (CrossrefAPI.similarity_of u title result).
Proof.
  unfold CrossrefAPI.similarity_of, CrossrefAPI.result_title.
  apply ro_bind; [|intros [t|]; auto with ro].
  apply ro_bind; [auto with ro|]. intros has. apply ro_if; [auto with ro|].
  apply ro_bind; [auto with ro|]. intros t. apply ro_if; [auto with ro|].
  destruct t; auto with ro.
Qed.

Lemma crossref_loop_raises u title results : ∀ best_match best_similarity,
  raises_only [KeyError; IndexError; TypeError]
    (CrossrefAPI.best_match_loop u title results best_match best_similarity).
Proof.
  induction results as [|result rest IH]; intros bm bs; simpl; [apply ro_val|].
  apply ro_bind; [apply crossref_similarity_raises|].
  intros [sim|]; [|apply IH]. destruct (CrossrefAPI.Qgtb sim bs); apply IH.
Qed.

Lemma select_match_raises u title min_similarity results :
  raises_only [KeyError; IndexError; TypeError]
    (CrossrefAPI.select_match u title min_similarity results).
Proof.
  unfold CrossrefAPI.select_match. apply ro_if; [apply ro_val|].
  apply ro_bind; [auto with ro|]. intros items.
  apply ro_bind; [apply crossref_loop_raises|]. intros best.
  apply ro_if; apply ro_val.
Qed.

Lemma crossref_get_by_doi_raises doi :
  net_raises_only [KeyError; TypeError] (CrossrefAPI.get_by_doi doi).
Proof.
  unfold CrossrefAPI.get_by_doi.
  eapply nro_try with (l1 := [RequestException; KeyError; TypeError]);
    [|sort_out|apply nro_ret].
  apply nro_bind; [apply nro_fetch; member|].
  intros body. apply nro_lift. auto with ro.
Qed.

Lemma crossref_search_raises u title min_similarity :
  net_raises_only [TypeError]
    (CrossrefAPI.search_by_title u title min_similarity).
Proof.
  unfold CrossrefAPI.search_by_title.
  eapply nro_try
    with (l1 := [RequestException; KeyError; IndexError; TypeError]);
    [|sort_out|apply nro_ret].
  apply nro_after_retry; [member|]. intros body. apply nro_lift.
  apply ro_bind; [auto with ro|]. intros message.
  apply ro_bind; [auto with ro|]. intros results.
  eapply widen; [apply select_match_raises|sort_out].
Qed.

Lemma semantic_scholar_get_by_doi_raises doi :
  net_raises_only [] (SemanticScholarAPI.get_by_doi doi).
Proof.
  unfold SemanticScholarAPI.get_by_doi.
  eapply nro_try with (l1 := [RequestException]); [|sort_out|apply nro_ret].
  apply nro_bind; [apply fetch_retrying_raises|]. intros r. apply nro_ret.
Qed.

Lemma semantic_scholar_loop_raises u title papers : ∀ best_match best_similarity,
  raises_only [KeyError; TypeError]
    (SemanticScholarAPI.best_match_loop u title papers best_match
       best_similarity).
Proof.
  induction papers as [|paper rest IH]; intros bm bs; simpl; [apply ro_val|].
  apply ro_bind.
  { unfold SemanticScholarAPI.similarity_of. auto 10 with ro. }
  intros [sim|]; [|apply IH]. destruct (CrossrefAPI.Qgtb sim bs); apply IH.
Qed.

Lemma semantic_scholar_search_raises u title min_similarity :
  net_raises_only [TypeError; AttributeError]
    (SemanticScholarAPI.search_by_title u title min_similarity).
Proof.
  unfold SemanticScholarAPI.search_by_title.
  eapply nro_try
    with (l1 := [RequestException; KeyError; IndexError; TypeError;
                 AttributeError]);
    [|sort_out|apply nro_ret].
  apply nro_after_retry; [member|]. intros data.
  apply nro_bind; [apply nro_lift; auto with ro|]. intros total.
  apply nro_if; [apply nro_ret|].
  apply nro_bind; [apply nro_lift; auto 10 with ro|]. intros papers.
  apply nro_bind.
  { apply nro_lift. eapply widen; [apply semantic_scholar_loop_raises|sort_out]. }
  intros best. apply nro_if; [|apply nro_ret].
  apply nro_bind.
  { apply nro_lift. unfold SemanticScholarAPI.get_paper_id.
    destruct best.1; try (apply ro_raise; member). apply ro_val. }
  intros paper_id. apply nro_if; [|apply nro_ret].
  apply nro_bind; [apply nro_lift; auto with ro|]. intros id.
  apply nro_fetch. member.
Qed.

Lemma elsevier_get_by_doi_raises doi :
  net_raises_only [] (ElsevierAPI.get_by_doi doi).
Proof.
  unfold ElsevierAPI.get_by_doi.
  eapply nro_try with (l1 := [RequestException]); [|sort_out|apply nro_ret].
  apply nro_bind; [apply fetch_retrying_raises|]. intros r. apply nro_ret.
Qed.

Lemma elsevier_loop_raises u title entries : ∀ best_match best_similarity,
  raises_only [KeyError; TypeError]
    (ElsevierAPI.best_match_loop u title entries best_match best_similarity).
Proof.
  induction entries as [|entry rest IH]; intros bm bs; simpl; [apply ro_val|].
  apply ro_bind.
  { unfold ElsevierAPI.similarity_of. auto 10 with ro. }
  intros [sim|]; [|apply IH]. destruct (CrossrefAPI.Qgtb sim bs); apply IH.
Qed.

Lemma pick_and_fetch_raises u title min_similarity data :
  net_raises_only [KeyError; TypeError]
    (ElsevierAPI.pick_and_fetch u title min_similarity data).
Proof.
  unfold ElsevierAPI.pick_and_fetch.
  apply nro_bind; [apply nro_lift; auto with ro|]. intros has.
  apply nro_if; [apply nro_ret|].
  apply nro_bind; [apply nro_lift; auto with ro|]. intros results.
  apply nro_bind; [apply nro_lift; auto with ro|]. intros has'.
  apply nro_if; [apply nro_ret|].
  apply nro_bind; [apply nro_lift; auto 10 with ro|]. intros entries.
  apply nro_bind; [apply nro_lift; apply elsevier_loop_raises|]. intros best.
  apply nro_if; [apply nro_ret|].
  apply nro_bind; [apply nro_lift; auto with ro|]. intros has''.
  apply nro_if; [apply nro_ret|].
  apply nro_bind; [apply nro_lift; auto 10 with ro|]. intros doi.
  eapply nro_widen; [apply elsevier_get_by_doi_raises|sort_out].
Qed.

Lemma pick_and_fetch_quiet u title min_similarity data :
  never_raises RequestException
    (ElsevierAPI.pick_and_fetch u title min_similarity data).
Proof.
  intros w Hr. apply pick_and_fetch_raises in Hr.
  repeat (apply elem_of_cons in Hr as [?|Hr]; [done|]).
  by apply elem_of_nil in Hr.
Qed.

(** The search of Elsevier, with its loop around the whole body, is the
    retried request followed by one reading of the reply. *)
Lemma elsevier_search_unfolds u title min_similarity w :
  ElsevierAPI.search_by_title u title min_similarity w
  = try_except
      (response ← fetch_retrying (seq 0 max_retries)
                    (ElsevierAPI.search_request title);
       match response with
       | Some data => ElsevierAPI.pick_and_fetch u title min_similarity data
       | None => mret JNull
       end)
      [RequestException] (mret JNull) w.
Proof.
  unfold ElsevierAPI.search_by_title, try_except.
  rewrite !net_bind_unfold.
  rewrite retrying_fetch by apply pick_and_fetch_quiet.
  rewrite !net_bind_unfold.
  destruct (fetch_retrying _ _ w) as [[[data|]|x] w1]; simpl; try done.
  rewrite !net_bind_unfold.
  destruct (ElsevierAPI.pick_and_fetch u title min_similarity data w1)
    as [[a|y] w2]; simpl; done.
Qed.

Lemma elsevier_search_raises u title min_similarity :
  net_raises_only [KeyError; TypeError]
    (ElsevierAPI.search_by_title u title min_similarity).
Proof.
  intros w. rewrite elsevier_search_unfolds. revert w.
  eapply nro_try with (l1 := [RequestException; KeyError; TypeError]);
    [|sort_out|apply nro_ret].
  apply nro_after_retry; [member|]. intros data.
  eapply nro_widen; [apply pick_and_fetch_raises|sort_out].
Qed.

(** *** What each client method costs *)

Local Ltac free := eapply nw_mono; [| |first [apply nw_ret|apply nw_lift]]; lia.
Local Ltac reads r s := apply (nw_bind 0 0 r s); [apply nw_lift|intros ?].

Lemma crossref_get_by_doi_within doi :
  net_within 1 0 (CrossrefAPI.get_by_doi doi).
Proof.
  unfold CrossrefAPI.get_by_doi. apply nw_try.
  apply (nw_bind 1 0 0 0); [apply nw_fetch|intros body; apply nw_lift].
Qed.

Lemma crossref_search_within u title min_similarity :
  net_within 3 3 (CrossrefAPI.search_by_title u title min_similarity).
Proof.
  unfold CrossrefAPI.search_by_title. apply nw_try.
  apply (nw_bind 3 3 0 0); [apply fetch_retrying_within|].
  intros [body|]; [apply nw_lift|apply nw_raise].
Qed.

Lemma semantic_scholar_get_by_doi_within doi :
  net_within 3 3 (SemanticScholarAPI.get_by_doi doi).
Proof.
  unfold SemanticScholarAPI.get_by_doi. apply nw_try.
  apply (nw_bind 3 3 0 0); [apply fetch_retrying_within|intros; apply nw_ret].
Qed.

Lemma semantic_scholar_search_within u title min_similarity :
  net_within 4 3 (SemanticScholarAPI.search_by_title u title min_similarity).
Proof.
  unfold SemanticScholarAPI.search_by_title. apply nw_try.
  apply (nw_bind 3 3 1 0); [apply fetch_retrying_within|].
  intros [data|]; [|eapply nw_mono; [| |apply nw_raise]; lia].
  reads 1 0. apply nw_if; [free|].
  reads 1 0. reads 1 0. apply nw_if; [|free].
  reads 1 0. apply nw_if; [|free].
  reads 1 0. apply nw_fetch.
Qed.

Lemma elsevier_get_by_doi_within doi :
  net_within 3 3 (ElsevierAPI.get_by_doi doi).
Proof.
  unfold ElsevierAPI.get_by_doi. apply nw_try.
  apply (nw_bind 3 3 0 0); [apply fetch_retrying_within|intros; apply nw_ret].
Qed.

Lemma pick_and_fetch_within u title min_similarity data :
  net_within 3 3 (ElsevierAPI.pick_and_fetch u title min_similarity data).
Proof.
  unfold ElsevierAPI.pick_and_fetch.
  reads 3 3. apply nw_if; [free|].
  reads 3 3. reads 3 3. apply nw_if; [free|].
  reads 3 3. reads 3 3. apply nw_if; [free|].
  reads 3 3. apply nw_if; [free|].
  reads 3 3. apply elsevier_get_by_doi_within.
Qed.

Lemma elsevier_search_within u title min_similarity :
  net_within 6 6 (ElsevierAPI.search_by_title u title min_similarity).
Proof.
  intros w. rewrite elsevier_search_unfolds. revert w. apply nw_try.
  apply (nw_bind 3 3 3 3); [apply fetch_retrying_within|].
  intros [data|]; [apply pick_and_fetch_within|free].
Qed.

(** *** What [get_abstract] raises on a payload of the wrong shape *)

Lemma ro_catching_from {A} l1 l (body : result A) handled handler :
  raises_only l1 body → (∀ x, x ∈ l1 → x ∈ handled ∨ x ∈ l) →
  raises_only l handler →
  raises_only l (ElsevierAPI.catching body handled handler).
Proof.
  intros Hb Hl Hh. apply ro_catching; [|done].
  intros x Hx. by apply Hl, Hb.
Qed.

Lemma crossref_get_abstract_type_error entry :
  raises_only [TypeError] (CrossrefAPI.get_abstract entry).
Proof.
  unfold CrossrefAPI.get_abstract. destruct entry as [| | |s|l|d]; simpl.
  - apply ro_raise. member.
  - apply ro_raise. member.
  - apply ro_raise. member.
  - destruct (infixb _ _); simpl; [apply ro_raise; member|apply ro_val].
  - destruct (existsb _ _); simpl; [apply ro_raise; member|apply ro_val].
  - destruct (dict_get "abstract" d) as [v|] eqn:Hv; simpl.
    + apply ro_as_optional_str. member.
    + apply ro_val.
Qed.

Lemma pubmed_get_abstract_raises entry :
  raises_only [TypeError] (PubMedAPI.get_abstract entry).
Proof.
  unfold PubMedAPI.get_abstract.
  eapply ro_catching_from with (l1 := [KeyError; IndexError; TypeError]);
    [|sort_out|apply ro_val].
  apply ro_bind; [auto with ro|]. intros citation.
  apply ro_bind; [auto with ro|]. intros article.
  apply ro_bind; [auto with ro|]. intros has.
  apply ro_if; [apply ro_val|].
  apply ro_bind; [auto with ro|]. intros abstract.
  apply ro_bind; [auto with ro|]. intros text.
  apply ro_bind; [auto with ro|]. intros first.
  auto with ro.
Qed.

End ClientFacts.

(** ** The clients and the engine together *)
Module Contracts.
Import Text Json Net Engine Policy Accounts ClientFacts.

Lemma wired_clients_cost u p c :
  provider_client (ElsevierWiring.keyed_enricher u) p = Some c →
  costs_at_most (λ w, length (sent w)) (requests_of p) c
  ∧ costs_at_most (λ w, sum_list (slept w)) (seconds_of p) c.
Proof.
  destruct p; simpl; intros [= <-]; split; intros [] arg w; simpl;
    first [ apply (elsevier_get_by_doi_within arg w)
          | apply (elsevier_search_within u arg _ w)
          | apply (crossref_get_by_doi_within arg w)
          | apply (crossref_search_within u arg _ w)
          | apply (semantic_scholar_get_by_doi_within arg w)
          | apply (semantic_scholar_search_within u arg _ w) ].
Qed.

Lemma plain_clients_cost u p c :
  provider_client (Wiring.plain_enricher u) p = Some c →
  costs_at_most (λ w, length (sent w)) (requests_of p) c
  ∧ costs_at_most (λ w, sum_list (slept w)) (seconds_of p) c.
Proof.
  destruct p; simpl; intros [= <-];
    by apply (wired_clients_cost u _ _).
Qed.

(** X9.  What one record can cost on the network, whatever the network
    answers.  With Crossref and Semantic Scholar alone: at most 14 requests
    and 12 seconds of waiting between retries; with the Elsevier client as
    well: at most 23 requests and 21 seconds. *)
Theorem requests_and_waits_per_record u e uss upm uel dry (st : state world) :
  within 14 12 (outside st)
    (outside (enrich_entry (Wiring.plain_enricher u) e uss upm uel dry st).2)
  ∧ within 23 21 (outside st)
      (outside (enrich_entry (ElsevierWiring.keyed_enricher u) e uss upm uel
                  dry st).2).
Proof.
  split; split.
  - pose proof (EngineMore.enrich_entry_cost (λ w, length (sent w)) requests_of
                  (Wiring.plain_enricher u) e uss upm uel dry st
                  (λ p c Hc, proj1 (plain_clients_cost u p c Hc))) as Hb.
    unfold budget in Hb. simpl in Hb. destruct uss; simpl in *; lia.
  - pose proof (EngineMore.enrich_entry_cost (λ w, sum_list (slept w))
                  seconds_of (Wiring.plain_enricher u) e uss upm uel dry st
                  (λ p c Hc, proj2 (plain_clients_cost u p c Hc))) as Hb.
    unfold budget in Hb. simpl in Hb. destruct uss; simpl in *; lia.
  - pose proof (EngineMore.enrich_entry_cost (λ w, length (sent w)) requests_of
                  (ElsevierWiring.keyed_enricher u) e uss upm uel dry st
                  (λ p c Hc, proj1 (wired_clients_cost u p c Hc))) as Hb.
    unfold budget in Hb. simpl in Hb. destruct uss, uel; simpl in *; lia.
  - pose proof (EngineMore.enrich_entry_cost (λ w, sum_list (slept w))
                  seconds_of (ElsevierWiring.keyed_enricher u) e uss upm uel
                  dry st (λ p c Hc, proj2 (wired_clients_cost u p c Hc))) as Hb.
    unfold budget in Hb. simpl in Hb. destruct uss, uel; simpl in *; lia.
Qed.

Lemma outside_the_list (x : exn) :
  x ∉ [KeyError; TypeError; AttributeError] →
  x ≠ KeyError ∧ x ≠ TypeError ∧ x ≠ AttributeError.
Proof.
  intros Hx. repeat split; intros ->; apply Hx;
    repeat first [apply list_elem_of_here | apply list_elem_of_further].
Qed.

Lemma wired_clients_raise u p c x :
  x ∉ [KeyError; TypeError; AttributeError] →
  provider_client (ElsevierWiring.keyed_enricher u) p = Some c →
  client_never_raises x c.
Proof.
  intros Hx Hc. apply outside_the_list in Hx as (Hk & Ht & Ha).
  assert (∀ l : list exn, (∀ y, y ∈ l → y ∈ malformed) → x ∉ l) as Hout.
  { intros l Hl Hin. apply Hl in Hin. unfold malformed in Hin.
    repeat (apply elem_of_cons in Hin as [->|Hin]; [done|]).
    by apply elem_of_nil in Hin. }
  destruct p; simpl in Hc; try discriminate; injection Hc as <-; split.
  - intros [] arg w Hr; simpl in Hr.
    + by apply elsevier_get_by_doi_raises, elem_of_nil in Hr.
    + apply elsevier_search_raises in Hr. revert Hr. apply Hout.
      intros y Hy. unfold malformed.
      repeat (apply elem_of_cons in Hy as [->|Hy]);
        [..|by apply elem_of_nil in Hy];
        repeat first [apply list_elem_of_here | apply list_elem_of_further].
  - intros data Hr. apply elsevier_get_abstract_raises in Hr.
    apply list_elem_of_singleton in Hr. done.
  - intros [] arg w Hr; simpl in Hr.
    + apply crossref_get_by_doi_raises in Hr.
      repeat (apply elem_of_cons in Hr as [->|Hr]; [done|]).
      by apply elem_of_nil in Hr.
    + apply crossref_search_raises in Hr.
      apply list_elem_of_singleton in Hr. done.
  - intros data Hr. apply crossref_get_abstract_raises in Hr.
    repeat (apply elem_of_cons in Hr as [->|Hr]; [done|]).
    by apply elem_of_nil in Hr.
  - intros [] arg w Hr; simpl in Hr.
    + by apply semantic_scholar_get_by_doi_raises, elem_of_nil in Hr.
    + apply semantic_scholar_search_raises in Hr.
      repeat (apply elem_of_cons in Hr as [->|Hr]; [done|]).
      by apply elem_of_nil in Hr.
  - intros data Hr. apply semantic_scholar_get_abstract_raises in Hr.
    repeat (apply elem_of_cons in Hr as [->|Hr]; [done|]).
    by apply elem_of_nil in Hr.
Qed.

(** X10.  No failure of the network aborts a record or the batch.  With
    these clients, [enrich_entry] and the loop of [enrich_file] over the
    records raise nothing but the [KeyError], [TypeError] or
    [AttributeError] of a reply that is not shaped as expected: a request
    that fails, also three times running, is never the reason.  (What the
    reading and the writing of the files can raise is not part of this.) *)
Theorem only_malformed_replies_abort u e s seen todo uss upm uel dry
    (st : state world) x :
  (enrich_entry (Wiring.plain_enricher u) e uss upm uel dry st).1 = Raise x
  ∨ (enrich_entry (ElsevierWiring.keyed_enricher u) e uss upm uel dry st).1
    = Raise x
  ∨ (process_entries (Wiring.plain_enricher u) uss upm uel dry s seen todo
       st).1 = Raise x
  ∨ (process_entries (ElsevierWiring.keyed_enricher u) uss upm uel dry s seen
       todo st).1 = Raise x →
  x ∈ [KeyError; TypeError; AttributeError].
Proof.
  intros Hr.
  destruct (decide (x ∈ [KeyError; TypeError; AttributeError]))
    as [|Hout]; [done|exfalso].
  pose proof (outside_the_list x Hout) as (Hk & Ht & _).
  assert (∀ e st, (enrich_entry (Wiring.plain_enricher u) e uss upm uel dry
                     st).1 ≠ Raise x) as Hplain.
  { intros e1 st1. apply EngineMore.enrich_entry_never_raises; try done.
    intros p c Hc. apply (wired_clients_raise u p); try done.
    by destruct p. }
  assert (∀ e st, (enrich_entry (ElsevierWiring.keyed_enricher u) e uss upm
                     uel dry st).1 ≠ Raise x) as Hkeyed.
  { intros e1 st1. apply EngineMore.enrich_entry_never_raises; try done.
    intros p c Hc. by apply (wired_clients_raise u p). }
  destruct Hr as [Hr|[Hr|[Hr|Hr]]]; revert Hr.
  - apply Hplain.
  - apply Hkeyed.
  - by apply EngineMore.process_entries_never_raises.
  - by apply EngineMore.process_entries_never_raises.
Qed.

(** X11.  The title search of Crossref, whatever the network answers:
    it sends its one query one, two or three times, waiting 1 and then 2
    seconds in between, and returns; a malformed reply is swallowed with
    the failures of the network, except for the [TypeError] of a value of
    the wrong type, the only exception that comes out. *)
Theorem crossref_search_contract u title min_similarity w :
  let req := Get CrossrefAPI.BASE_URL
               [("query.title"%string, Matcher.clean_title u title);
                ("rows"%string, py "5");
                ("select"%string, py "DOI,title,abstract")] in
  let r := CrossrefAPI.search_by_title u title min_similarity w in
  raises_only [TypeError] r.1
  ∧ ∃ n, 1 ≤ n ≤ 3
         ∧ sent r.2 = sent w ++ replicate n req
         ∧ slept r.2 = slept w ++ seq 1 (n - 1).
Proof.
  intros req r. split; [apply crossref_search_raises|].
  destruct (RetryFacts.fetch_retrying_spec req w) as (n & Hn & Hs & Hz & _).
  exists n. split; [done|].
  enough (r.2 = (fetch_retrying (seq 0 max_retries) req w).2) as -> by done.
  subst r. unfold CrossrefAPI.search_by_title, try_except. fold req.
  rewrite net_bind_unfold.
  destruct (fetch_retrying (seq 0 max_retries) req w) as [[[body|]|x] w1];
    simpl.
  - unfold lift.
    destruct (message ← getitem body "message"; _) as [v|x]; simpl; [done|].
    by destruct (bool_decide _).
  - done.
  - by destruct (bool_decide _).
Qed.

(** X12.  A reply without the key [message]: the title search of Crossref
    swallows the [KeyError] and finds nothing, the DOI lookup lets it
    through, to [enrich_entry] and to [enrich_file], which catch
    nothing. *)
Theorem missing_message_key u doi title min_similarity w d :
  dict_get "message" d = None →
  (answers w (length (sent w)) (Get (CrossrefAPI.BASE_URL ++ py "/" ++ doi) [])
     = Answers (JDict d) →
   (CrossrefAPI.get_by_doi doi w).1 = Raise KeyError)
  ∧ (answers w (length (sent w))
       (Get CrossrefAPI.BASE_URL
          [("query.title"%string, Matcher.clean_title u title);
           ("rows"%string, py "5");
           ("select"%string, py "DOI,title,abstract")])
     = Answers (JDict d) →
     (CrossrefAPI.search_by_title u title min_similarity w).1 = Val JNull).
Proof.
  intros Hd. split; intros Hr.
  - unfold CrossrefAPI.get_by_doi, try_except. rewrite net_bind_unfold.
    unfold fetch. rewrite Hr. simpl. by rewrite Hd.
  - unfold CrossrefAPI.search_by_title, try_except. rewrite net_bind_unfold.
    rewrite RetryFacts.fetch_retrying_first_reply with (body := JDict d)
      by done.
    simpl. by rewrite Hd.
Qed.

(** X13.  The DOI lookups of Semantic Scholar and of Elsevier never raise,
    and try three times before they give up.  Each sends its one request
    until a reply comes, at most three times, waiting 1 and then 2 seconds
    in between: it returns the first reply it gets, and [None] only when
    all three requests have failed. *)
Theorem retried_lookups_never_raise doi w :
  let first_reply req get_by_doi :=
    ∃ n, 1 ≤ n ≤ 3
         ∧ sent (get_by_doi doi w).2 = sent w ++ replicate n req
         ∧ slept (get_by_doi doi w).2 = slept w ++ seq 1 (n - 1)
         ∧ (∀ k, k < n - 1 → answers w (length (sent w) + k) req = Fails)
         ∧ match answers w (length (sent w) + (n - 1)) req with
           | Answers body => (get_by_doi doi w).1 = Val body
           | Fails => n = 3 ∧ (get_by_doi doi w).1 = Val JNull
           end in
  first_reply (Get (SemanticScholarAPI.BASE_URL ++ py "/paper/" ++ doi) [])
    SemanticScholarAPI.get_by_doi
  ∧ first_reply (Get (ElsevierAPI.ABSTRACT_URL ++ doi)
                   [("view"%string, py "FULL")])
      ElsevierAPI.get_by_doi.
Proof.
  assert (∀ req,
            let lookup :=
              try_except
                (response ← fetch_retrying (seq 0 max_retries) req;
                 mret (default JNull response))
                [RequestException] (mret JNull) w in
            ∃ n, 1 ≤ n ≤ 3
              ∧ sent lookup.2 = sent w ++ replicate n req
              ∧ slept lookup.2 = slept w ++ seq 1 (n - 1)
              ∧ (∀ k, k < n - 1 → answers w (length (sent w) + k) req = Fails)
              ∧ match answers w (length (sent w) + (n - 1)) req with
                | Answers body => lookup.1 = Val body
                | Fails => n = 3 ∧ lookup.1 = Val JNull
                end) as Hall.
  { intros req lookup.
    destruct (RetryFacts.fetch_retrying_spec req w)
      as (n & Hn & Hs & Hz & Hf & Hr).
    exists n. split; [done|].
    subst lookup. unfold try_except. rewrite net_bind_unfold.
    destruct (fetch_retrying (seq 0 max_retries) req w) as [r w1].
    simpl in Hr, Hs, Hz.
    destruct (answers w (length (sent w) + (n - 1)) req).
    - destruct Hr as [-> ->]. done.
    - rewrite Hr. done. }
  split; apply Hall.
Qed.

(** X14.  The title search of Elsevier has its retry loop around the whole
    body, the reading of the reply included; still a reply is read once
    and the request alone is repeated: the search is the retried request
    followed by one reading of the reply, which may look one DOI up.  So it
    sends at most 6 requests and waits at most 6 seconds, and nothing but a
    [KeyError] or a [TypeError] comes out of it. *)
Theorem elsevier_search_repeats_only_the_request u title min_similarity w :
  ElsevierAPI.search_by_title u title min_similarity w
  = try_except
      (response ← fetch_retrying (seq 0 max_retries)
                    (ElsevierAPI.search_request title);
       match response with
       | Some data => ElsevierAPI.pick_and_fetch u title min_similarity data
       | None => mret JNull
       end)
      [RequestException] (mret JNull) w
  ∧ within 6 6 w (ElsevierAPI.search_by_title u title min_similarity w).2
  ∧ raises_only [KeyError; TypeError]
      (ElsevierAPI.search_by_title u title min_similarity w).1.
Proof.
  split; [apply elsevier_search_unfolds|].
  split; [apply elsevier_search_within|apply elsevier_search_raises].
Qed.

End Contracts.

(** ** The cleaner, the identifiers and the log *)
Module CleanerFacts.
Import Text Cleaner BibTeXCleaner.

Lemma dropwhile_head p s c : head (dropwhile p s) = Some c → p c = false.
Proof.
  induction s as [|a s IH]; simpl; [done|].
  destruct (p a) eqn:Hp; [done|]. simpl. by intros [= <-].
Qed.

Lemma dropwhile_last p s c : last (dropwhile p s) = Some c → last s = Some c.
Proof.
  induction s as [|a s IH]; simpl; [done|].
  destruct (p a) eqn:Hp; [|done].
  intros Hl. specialize (IH Hl). destruct s; [done|]. by rewrite last_cons, IH.
Qed.

Lemma strip_ends u s c :
  head (strip u s) = Some c ∨ last (strip u s) = Some c → is_space u c = false.
Proof.
  unfold strip. rewrite head_reverse, last_reverse. intros [Hc|Hc].
  - apply dropwhile_last in Hc. rewrite last_reverse in Hc.
    by apply dropwhile_head in Hc.
  - by apply dropwhile_head in Hc.
Qed.

(** X15.  What [clean_abstract], [clean_title] and [clean_author] return
    neither starts nor ends with white space. *)
Theorem cleaned_text_is_trimmed u text t c :
  clean_abstract u text = Some t ∨ clean_title u text = Some t
  ∨ clean_author u text = Some t →
  head t = Some c ∨ last t = Some c →
  is_space u c = false.
Proof.
  unfold clean_abstract, clean_title, clean_author.
  destruct text as [[|x text]|]; try by intros [|[|]].
  intros [[= <-]|[[= <-]|[= <-]]]; apply strip_ends.
Qed.

Lemma clean_field_lookup key clean (m : gmap string (option pystr)) k :
  clean_field key clean m !! k
  = if decide (k = key) then clean <$> (m !! key) else m !! k.
Proof.
  unfold clean_field. destruct (decide (k = key)) as [->|Hne].
  - destruct (m !! key) eqn:Hm; simpl; [by rewrite lookup_insert_eq|done].
  - destruct (m !! key); [by rewrite lookup_insert_ne|done].
Qed.

(** X16.  [clean_entry] field by field: the three fields it cleans hold
    the cleaned text, every other field holds what it held, and a field
    whose text is, or has become, empty is dropped.  So the result has no
    empty field and no field the record did not have. *)
Theorem clean_entry_field_by_field u entry k :
  clean_entry u entry !! k
  = kept (if decide (k = "abstract") then clean_abstract u (entry !! k)
          else if decide (k = "title") then clean_title u (entry !! k)
          else if decide (k = "author") then clean_author u (entry !! k)
          else entry !! k)
  ∧ (∀ v, clean_entry u entry !! k = Some v → v ≠ [] ∧ is_Some (entry !! k)).
Proof.
  assert (clean_entry u entry !! k
          = kept (if decide (k = "abstract") then clean_abstract u (entry !! k)
                  else if decide (k = "title") then clean_title u (entry !! k)
                  else if decide (k = "author")
                       then clean_author u (entry !! k)
                       else entry !! k)) as Heq.
  { unfold clean_entry. rewrite lookup_omap, !clean_field_lookup, !lookup_fmap.
    repeat case_decide; subst; try done;
      by match goal with |- context [entry !! ?key] => destruct (entry !! key) end. }
  split; [done|]. rewrite Heq. intros v Hv.
  split.
  { intros ->. revert Hv. by destruct (if decide _ then _ else _) as [[|]|]. }
  destruct (entry !! k) as [t|] eqn:Hk; [done|].
  revert Hv. by repeat destruct (decide _).
Qed.

End CleanerFacts.

Module BibIOFacts.
Import Text BibIO.

(** X17.  The identifier of a record tells which field it was taken from
    and what the field holds: two records with the same identifier have
    the same DOI, or have none and the same title, where a record without
    a title stands as one titled [Unknown]. *)
Theorem entry_identifier_determines (e1 e2 : gmap string pystr) :
  get_entry_identifier e1 = get_entry_identifier e2 →
  e1 !! "doi" = e2 !! "doi"
  ∧ (e1 !! "doi" = None →
     default (py "Unknown") (e1 !! "title")
     = default (py "Unknown") (e2 !! "title")).
Proof.
  unfold get_entry_identifier.
  destruct (e1 !! "doi") as [d1|], (e2 !! "doi") as [d2|]; try done.
  - intros Heq. apply app_inv_head in Heq as ->. done.
  - intros Heq. apply app_inv_head in Heq. done.
Qed.

End BibIOFacts.

Module LogFacts.
Import Text StreamlitLogHandler.

Lemma tail_drop {A} (l : list A) k : tail (drop k l) = drop (S k) l.
Proof.
  revert k. induction l as [|a l IH]; intros [|k]; simpl; done.
Qed.

Lemma emit_log_text self m :
  log_text (emit self m)
  = if 10 <? length (log_text self ++ [m]) then tail (log_text self ++ [m])
    else log_text self ++ [m].
Proof. done. Qed.

Lemma emit_container self m :
  container (emit self m) = Some (join [10%N] (log_text (emit self m))).
Proof. done. Qed.

(** X18.  The log handler of the web interface keeps the last ten
    messages, oldest first, and shows them joined line by line. *)
Theorem handler_keeps_the_last_ten (msgs : list pystr) :
  let self := foldl emit new msgs in
  log_text self = drop (length msgs - 10) msgs
  ∧ container self
    = if decide (msgs = []) then None else Some (join [10%N] (log_text self)).
Proof.
  induction msgs as [|m msgs IH] using rev_ind; [done|].
  cbn zeta in *. rewrite foldl_app. cbn [foldl].
  destruct IH as [IH _]. rewrite emit_container. split; [|by destruct msgs].
  rewrite emit_log_text, IH, !length_app, length_drop. simpl.
  destruct (Nat.ltb_spec 10 (length msgs - (length msgs - 10) + 1)) as [Hlt|Hle].
  - assert (10 ≤ length msgs) as Hten by lia.
    replace (length msgs + 1 - 10) with (S (length msgs - 10)) by lia.
    rewrite <- tail_drop, drop_app_le by lia.
    destruct (drop (length msgs - 10) msgs) as [|a l] eqn:Hd; [|done].
    apply (f_equal length) in Hd. rewrite length_drop in Hd. simpl in Hd. lia.
  - replace (length msgs - 10) with 0 by lia.
    replace (length msgs + 1 - 10) with 0 by lia. by rewrite !drop_0.
Qed.

End LogFacts.

(** ** Runs of the properties above *)
Module MoreRuns.
Import Text Json Net Engine Policy Accounts Fixtures.

(** Crossref finds a DOI for the title and nobody has an abstract: the
    record comes back with the DOI, and the title as it was. *)
Lemma enrich_entry_writes_doi_and_abstract_only_witness :
  (∀ k, k ≠ "doi"%string → k ≠ "abstract"%string →
        (<["doi" := py "10.1/x"]> title_only) !! k = title_only !! k)
  ∧ (∀ k, is_Some (title_only !! k) →
          is_Some ((<["doi" := py "10.1/x"]> title_only) !! k)).
Proof.
  apply (EngineMore.enrich_entry_writes_doi_and_abstract_only only_doi_found
           title_only true true true false start
           (<["doi" := py "10.1/x"]> title_only)
           (enrich_entry only_doi_found title_only true true true false
              start).2).
  vm_compute. reflexivity.
Defined.

(** A record with a DOI gets its abstract from Crossref and keeps the DOI. *)
Lemma enrich_entry_keeps_its_doi_witness :
  (<["abstract" := py "A"]> doi_only) !! "doi" = doi_only !! "doi".
Proof.
  apply (EngineMore.enrich_entry_keeps_its_doi (crossref_helps (py "A"))
           doi_only true true true false start
           (<["abstract" := py "A"]> doi_only)
           (enrich_entry (crossref_helps (py "A")) doi_only true true true
              false start).2);
    [vm_compute; reflexivity|reflexivity].
Defined.

(** A record that has an author and nothing else. *)
Lemma nothing_to_search_with_witness :
  enrich_entry (crossref_helps (py "A")) {[ "author"%string := py "N.N." ]}
    true true true false start
  = (Val {[ "author"%string := py "N.N." ]}, start).
Proof.
  apply (EngineMore.nothing_to_search_with (crossref_helps (py "A"))
           {[ "author"%string := py "N.N." ]} true true true false start);
    reflexivity.
Defined.


Lemma counters_count_the_records_witness :
  ∃ entries out,
    files library !! "in.bib" = Some entries
    ∧ files (enrich_file only_doi_found "in.bib" "out.bib" true true true
               false library).2 !! "out.bib" = Some out
    ∧ already_had_abstract (Stats 3 0 2 1) = with_abstracts entries
    ∧ failed (Stats 3 0 2 1) + with_abstracts out = length out
    ∧ enriched (Stats 3 0 2 1) + with_abstracts entries = with_abstracts out.
Proof.
  apply (EngineMore.counters_count_the_records only_doi_found "in.bib"
           "out.bib" true true true library (Stats 3 0 2 1)
           (enrich_file only_doi_found "in.bib" "out.bib" true true true false
              library).2).
  vm_compute. reflexivity.
Defined.

(** Nobody finds anything for the title [T]: Crossref is asked for it
    twice. *)
Lemma crossref_is_searched_twice_witness :
  ∃ l1 l2,
    calls (enrich_entry all_silent title_only true true true false start).2
    = calls start ++ Call Crossref ByTitle (py "T") :: l1
      ++ Call Crossref ByTitle (py "T") :: l2
    ∧ never_calls SemanticScholar l1.
Proof.
  apply (EngineMore.crossref_is_searched_twice all_silent title_only true true
           true start (py "T") title_only
           (enrich_entry all_silent title_only true true true false start).2);
    vm_compute; reflexivity.
Defined.

(** Crossref answers the DOI lookup with an empty object: the [KeyError]
    ends the batch. *)
Lemma only_malformed_replies_abort_witness :
  (process_entries (Wiring.plain_enricher ascii_only) true true true false
     (Stats 1 0 0 0) [] [doi_only] (shelf [Answers (JDict [])])).1
  = Raise KeyError
  ∧ KeyError ∈ [KeyError; TypeError; AttributeError].
Proof.
  split; [vm_compute; reflexivity|].
  apply (Contracts.only_malformed_replies_abort ascii_only doi_only
           (Stats 1 0 0 0) [] [doi_only] true true true false
           (shelf [Answers (JDict [])]) KeyError).
  right. right. left. vm_compute. reflexivity.
Defined.

Lemma missing_message_key_witness :
  (CrossrefAPI.get_by_doi (py "10.1/x") (scripted [Answers (JDict [])])).1
  = Raise KeyError
  ∧ (CrossrefAPI.search_by_title ascii_only (py "T")
       Wiring.default_min_similarity (scripted [Answers (JDict [])])).1
    = Val JNull.
Proof.
  destruct (Contracts.missing_message_key ascii_only (py "10.1/x") (py "T")
              Wiring.default_min_similarity (scripted [Answers (JDict [])]) []
              eq_refl) as [Hlookup Hsearch].
  split; [apply Hlookup|apply Hsearch]; reflexivity.
Defined.

Lemma cleaned_text_is_trimmed_witness :
  BibTeXCleaner.clean_title ascii_only (Some (py "  <i>A</i> title "))
  = Some (py "A title")
  ∧ is_space ascii_only 65 = false.
Proof.
  split; [vm_compute; reflexivity|].
  apply (CleanerFacts.cleaned_text_is_trimmed ascii_only
           (Some (py "  <i>A</i> title ")) (py "A title") 65%N);
    [right; left; vm_compute; reflexivity|left; reflexivity].
Defined.

Lemma entry_identifier_determines_witness :
  doi_only !! "doi" = (<["title" := py "T"]> doi_only) !! "doi"
  ∧ (doi_only !! "doi" = None →
     default (py "Unknown") (doi_only !! "title")
     = default (py "Unknown") ((<["title" := py "T"]> doi_only) !! "title")).
Proof.
  apply (BibIOFacts.entry_identifier_determines doi_only
           (<["title" := py "T"]> doi_only)).
  reflexivity.
Defined.

End MoreRuns.

(** ** A sequence matched against itself *)
Module DiagonalFacts.
Import Difflib Diagonal.

Section Facts.
Context {A : Type} `{Countable A}.
Implicit Types (a b : list A) (b2j : gmap A (list nat)).

Lemma run_to_le a b2j i : run_to a b2j i ≤ S i.
Proof.
  induction i as [|i IH]; simpl; destruct (indexed a b2j _); lia.
Qed.

Lemma run_to_indexed a b2j i :
  indexed a b2j i = true → run_to a b2j i = S (prev_run a b2j i).
Proof. destruct i; simpl; by intros ->. Qed.

Lemma run_to_not_indexed a b2j i :
  indexed a b2j i = false → run_to a b2j i = 0.
Proof. destruct i; simpl; by intros ->. Qed.

Lemma indexed_lookup a b2j i x :
  a !! i = Some x → is_Some (b2j !! x) → indexed a b2j i = true.
Proof. intros Hi Hx. unfold indexed. rewrite Hi. by apply bool_decide_eq_true. Qed.

(** The positions [__chain_b] records. *)
Lemma chain_positions_upto b rest : ∀ i b2j,
  drop i b = rest → i + length rest = length b →
  positions_upto b i b2j →
  positions_upto b (length b) (chain_positions i rest b2j).
Proof.
  induction rest as [|elt rest IH]; intros i b2j Hdrop Hlen Hok; simpl in *.
  { by replace (length b) with i by lia. }
  assert (b !! i = Some elt) as Hi.
  { rewrite <- (Nat.add_0_r i), <- lookup_drop, Hdrop. done. }
  apply IH; [|lia|].
  { replace (S i) with (i + 1) by lia. by rewrite <- drop_drop, Hdrop. }
  destruct Hok as [Hpos Hall]. split.
  - intros x js. destruct (decide (x = elt)) as [->|Hne].
    + rewrite lookup_insert_eq. intros [= <-].
      assert (match b2j !! elt with
              | Some js0 => StronglySorted lt js0
                            ∧ ∀ j, j ∈ js0 ↔ j < i ∧ b !! j = Some elt
              | None => ∀ j, j < i → b !! j ≠ Some elt
              end) as Hold.
      { destruct (b2j !! elt) as [js0|] eqn:He; [by apply Hpos|].
        intros j Hj Hbj. destruct (Hall j elt Hj Hbj) as [? Hsome].
        congruence. }
      destruct (b2j !! elt) as [js0|]; simpl.
      * destruct Hold as [Hs Hm]. split.
        { apply StronglySorted_app_2; [|done|repeat constructor].
          intros j1 j2 Hj1 Hj2. apply list_elem_of_singleton in Hj2 as ->.
          by apply Hm in Hj1 as [? _]. }
        intros j. rewrite elem_of_app, list_elem_of_singleton, Hm.
        split.
        { intros [[? ?]| ->]; split; auto; lia. }
        intros [Hj Hbj]. destruct (decide (j = i)) as [->|]; [by right|].
        left. split; [lia|done].
      * split; [repeat constructor|].
        intros j. rewrite list_elem_of_singleton. split.
        { intros ->. split; [lia|done]. }
        intros [Hj Hbj]. destruct (decide (j = i)) as [->|]; [done|].
        exfalso. apply (Hold j); [lia|done].
    + rewrite lookup_insert_ne by done. intros Hx.
      destruct (Hpos x js Hx) as [Hs Hm]. split; [done|].
      intros j. rewrite Hm. split; [intros [? ?]; split; [lia|done]|].
      intros [Hj Hbj]. split; [|done].
      destruct (decide (j = i)) as [->|]; [congruence|lia].
  - intros j x Hj Hbj. destruct (decide (x = elt)) as [->|Hne].
    + rewrite lookup_insert_eq. eauto.
    + rewrite lookup_insert_ne by done.
      apply (Hall j); [|done].
      destruct (decide (j = i)) as [->|]; [congruence|lia].
Qed.

Lemma chain_b_positions b : positions_ok b (chain_b b).
Proof.
  assert (positions_upto b (length b) (chain_positions 0 b ∅)) as [Hpos _].
  { apply chain_positions_upto; [by rewrite drop_0|done|].
    split; [intros x js Hx; by rewrite lookup_empty in Hx|intros; lia]. }
  assert (positions_ok b (chain_positions 0 b ∅)) as Hok.
  { intros x js Hx. destruct (Hpos x js Hx) as [Hs Hm]. split; [done|].
    intros j. rewrite Hm. split; [by intros [_ ?]|].
    intros Hj. split; [by eapply lookup_lt_Some|done]. }
  unfold chain_b. destruct (200 <=? length b); [|done].
  intros x js Hx. apply map_lookup_filter_Some in Hx as [Hx _]. by apply Hok.
Qed.

Section Scan.
Context (a : list A) (b2j : gmap A (list nat)).
Context (Hpos : positions_ok a b2j).

(** One row of the search, on the columns still to visit: the best block
    stays on the diagonal, and is as long as the diagonal run of every row
    seen. *)
Lemma scan_positions_diag i x :
  a !! i = Some x → is_Some (b2j !! x) →
  ∀ rest j2len newj2len bi bk,
    StronglySorted lt rest → (∀ j, j ∈ rest → a !! j = Some x) →
    prev_ok a b2j i j2len →
    bi + bk ≤ length a → (∀ r, r < i → run_to a b2j r ≤ bk) →
    (∀ j k, newj2len !! j = Some k →
            k ≤ run_to a b2j i ∧ k ≤ run_to a b2j j) →
    (i ∈ rest ∧ newj2len !! i = None)
    ∨ (newj2len !! i = Some (run_to a b2j i) ∧ run_to a b2j i ≤ bk) →
    ∃ L bi' bk',
      scan_positions i 0 (length a) rest j2len newj2len (bi, bi, bk)
      = (L, (bi', bi', bk'))
      ∧ bi' + bk' ≤ length a
      ∧ (∀ r, r < S i → run_to a b2j r ≤ bk')
      ∧ (∀ j k, L !! j = Some k → k ≤ run_to a b2j i ∧ k ≤ run_to a b2j j)
      ∧ L !! i = Some (run_to a b2j i).
Proof.
  intros Hi Hx.
  pose proof (indexed_lookup a b2j i x Hi Hx) as Hidx.
  pose proof (run_to_indexed a b2j i Hidx) as Hrun.
  pose proof (lookup_lt_Some _ _ _ Hi) as Hin.
  induction rest as [|j rest IH];
    intros j2len newj2len bi bk Hsort Hrest Hprev Hbest Hrows Hnew Hprog; simpl.
  { destruct Hprog as [[Hnil _]|[Hdone Hbk]]; [by apply elem_of_nil in Hnil|].
    exists newj2len, bi, bk. split_and!; try done.
    intros r Hr. destruct (decide (r = i)) as [->|]; [done|]. apply Hrows. lia. }
  apply StronglySorted_cons in Hsort as [Hlt Hsort].
  assert (a !! j = Some x) as Hj by (apply Hrest; left).
  pose proof (lookup_lt_Some _ _ _ Hj) as Hjn.
  destruct (Nat.leb_spec (length a) j) as [|_]; [lia|].
  destruct Hprev as [Hentries Hdiag].
  assert (j2lenget_pred j2len j ≤ prev_run a b2j i
          ∧ j2lenget_pred j2len j ≤ prev_run a b2j j) as [Hk1 Hk2].
  { destruct j as [|j']; simpl; [lia|].
    destruct (j2len !! j') as [k|] eqn:Hk; simpl; [|lia].
    by apply Hentries in Hk. }
  pose proof (run_to_indexed a b2j j (indexed_lookup a b2j j x Hj Hx)) as Hrunj.
  set (k := j2lenget_pred j2len j + 1).
  assert (∀ j0 k0, <[j := k]> newj2len !! j0 = Some k0 →
                   k0 ≤ run_to a b2j i ∧ k0 ≤ run_to a b2j j0) as Hnew'.
  { intros j0 k0. destruct (decide (j0 = j)) as [->|Hne].
    - rewrite lookup_insert_eq. intros [= <-]. unfold k. lia.
    - rewrite lookup_insert_ne by done. apply Hnew. }
  destruct (decide (j = i)) as [->|Hne].
  - assert (k = run_to a b2j i) as Hk by (unfold k; lia).
    pose proof (run_to_le a b2j i) as Hle.
    unfold block_size. simpl.
    destruct (Nat.ltb_spec bk k) as [Hlt'|Hge].
    + apply IH; try done.
      * intros j0 Hj0. apply Hrest. by right.
      * lia.
      * intros r Hr. specialize (Hrows r Hr). lia.
      * right. rewrite lookup_insert_eq. split; [by rewrite Hk|lia].
    + apply IH; try done.
      * intros j0 Hj0. apply Hrest. by right.
      * right. rewrite lookup_insert_eq. split; [by rewrite Hk|lia].
  - assert (k ≤ bk) as Hkb.
    { destruct Hprog as [[Hirest _]|[_ Hbk]].
      - apply elem_of_cons in Hirest as [?|Hirest]; [congruence|].
        rewrite Forall_forall in Hlt. specialize (Hlt i Hirest).
        specialize (Hrows j Hlt). unfold k. lia.
      - unfold k. lia. }
    unfold block_size. simpl.
    destruct (Nat.ltb_spec bk k) as [|_]; [lia|].
    apply IH; try done.
    + intros j0 Hj0. apply Hrest. by right.
    + rewrite lookup_insert_ne by done.
      destruct Hprog as [[Hirest Hnone]|Hdone]; [left|by right].
      split; [|done]. apply elem_of_cons in Hirest as [?|?]; [congruence|done].
Qed.

(** The rows from [i] on. *)
Lemma scan_rows_diag m : ∀ i j2len bi bk,
  i + m = length a → prev_ok a b2j i j2len →
  bi + bk ≤ length a → (∀ r, r < i → run_to a b2j r ≤ bk) →
  ∃ bi' bk',
    scan_rows a b2j 0 (length a) (seq i m) j2len (bi, bi, bk) = (bi', bi', bk')
    ∧ bi' + bk' ≤ length a.
Proof.
  induction m as [|m IH]; intros i j2len bi bk Hlen Hprev Hbest Hrows; simpl.
  { by exists bi, bk. }
  destruct (lookup_lt_is_Some_2 a i) as [x Hi]; [lia|]. rewrite Hi.
  destruct (b2j !! x) as [js|] eqn:Hx; simpl.
  - destruct (Hpos x js Hx) as [Hsort Hmem].
    destruct (scan_positions_diag i x Hi (mk_is_Some _ _ Hx) js j2len ∅ bi bk)
      as (L & bi' & bk' & -> & Hbest' & Hrows' & Hnew & Hd); try done.
    { intros j Hj. by apply Hmem. }
    { left. split; [by apply Hmem|done]. }
    apply IH; try done; [lia|]. split; [done|]. simpl. by rewrite Hd.
  - assert (run_to a b2j i = 0) as Hzero.
    { apply run_to_not_indexed. unfold indexed. rewrite Hi, Hx.
      apply bool_decide_eq_false. by intros [? ?]. }
    apply IH; try done; [lia|].
    intros r Hr. destruct (decide (r = i)) as [->|]; [lia|]. apply Hrows. lia.
Qed.

End Scan.

Lemma extend_left_diag a : ∀ bi bk,
  extend_left a a 0 0 bi bi bk = (0, 0, bk + bi).
Proof.
  induction bi as [|bi IH]; intros bk; simpl; [by rewrite Nat.add_0_r|].
  rewrite bool_decide_eq_true_2 by done. simpl. rewrite IH. f_equal. lia.
Qed.

Lemma extend_right_diag a : ∀ room k,
  k + room = length a → extend_right room a a (length a) 0 0 k = length a.
Proof.
  induction room as [|room IH]; intros k Hk; simpl; [lia|].
  destruct (Nat.ltb_spec k (length a)) as [_|]; [|lia].
  rewrite bool_decide_eq_true_2 by done. simpl. apply IH. lia.
Qed.

(** Against itself a sequence matches in one block, all of it; also when
    its popular elements have left the dictionary. *)
Lemma find_longest_match_self a :
  find_longest_match a a (chain_b a) 0 (length a) 0 (length a)
  = (0, 0, length a).
Proof.
  unfold find_longest_match. rewrite Nat.sub_0_r.
  destruct (scan_rows_diag a (chain_b a) (chain_b_positions a) (length a) 0 ∅
              0 0) as (bi & bk & -> & Hbest); try done; try lia.
  rewrite extend_left_diag. simpl. f_equal.
  apply extend_right_diag. lia.
Qed.

Lemma get_matching_blocks_self a :
  get_matching_blocks a a
  = if length a =? 0 then [(0, 0, 0)]
    else [(0, 0, length a); (length a, length a, 0)].
Proof.
  unfold get_matching_blocks, get_matching_blocks_opt, blocks_fuel.
  replace (2 * length a + 1) with (S (2 * length a)) by lia.
  cbn [blocks_loop]. rewrite find_longest_match_self.
  destruct (Nat.eqb_spec (length a) 0) as [Hz|Hnz].
  { destruct (2 * length a); simpl; by rewrite Hz. }
  rewrite Nat.ltb_irrefl. simpl.
  assert (∀ fuel l, blocks_loop fuel a a (chain_b a) [] l = Some l) as ->
    by (by intros []).
  simpl. destruct (Nat.eqb_spec (length a) 0); [lia|done].
Qed.

Lemma ratio_self a : (ratio a a == 1)%Q.
Proof.
  unfold ratio. rewrite get_matching_blocks_self. unfold calculate_ratio.
  destruct (Nat.eqb_spec (length a) 0) as [Hz|Hnz].
  { rewrite Hz. done. }
  destruct (Nat.eqb_spec (length a + length a) 0) as [|_]; [lia|].
  simpl. unfold block_size. simpl. rewrite Nat.add_0_r.
  rewrite Nat2Z.inj_add, inject_Z_plus.
  assert (¬ (inject_Z (Z.of_nat (length a)) == 0)%Q) as Hne.
  { change 0%Q with (inject_Z 0). rewrite inject_Z_injective. lia. }
  field. intros Heq. apply Hne.
  assert (inject_Z (Z.of_nat (length a)) + inject_Z (Z.of_nat (length a))
          == 2 * inject_Z (Z.of_nat (length a)))%Q as Hd by ring.
  rewrite Hd in Heq. apply Qmult_integral in Heq as [Heq|Heq]; [|done].
  discriminate.
Qed.

End Facts.

(** X19.  Two titles that are the same once cleaned (the same up to case,
    punctuation and spacing) have similarity exactly 1, the highest there
    is, whatever their length: [SequenceMatcher] finds the whole title as
    one block, also when the title is so long that its frequent characters
    are set aside. *)
Theorem equal_cleaned_titles_score_one u title1 title2 :
  Matcher.clean_title u title1 = Matcher.clean_title u title2 →
  (Matcher.title_similarity u title1 title2 == 1)%Q.
Proof.
  intros Heq. unfold Matcher.title_similarity. rewrite Heq. apply ratio_self.
Qed.

End DiagonalFacts.

(** ** An exact match and the threshold *)
Module ExactMatch.
Import Text Json CrossrefAPI Invariants.

Lemma similarity_of_title u title c s :
  similarity_of u title c = Val (Some s) →
  ∃ t, s = Matcher.title_similarity u title t.
Proof.
  unfold similarity_of.
  destruct (result_title c) as [[t|]|x]; simpl; try done.
  destruct t; simpl; try done. intros [= <-]. eauto.
Qed.

(** X20.  An exact match is never rejected.  When one of the candidates
    the Crossref search returned has a title that is, once cleaned, the
    cleaned title asked for, and the threshold is at most 1, the search
    selects a candidate: the first one whose similarity is 1. *)
Theorem exact_match_is_selected u title (min_similarity : Q)
    (candidates : list json) (selected : json) j c t :
  select_match u title min_similarity (JList candidates) = Val selected →
  (min_similarity <= 1)%Q →
  candidates !! j = Some c → result_title c = Val (Some (JStr t)) →
  Matcher.clean_title u title = Matcher.clean_title u t →
  ∃ i s, i ≤ j ∧ candidates !! i = Some selected
         ∧ similarity_of u title selected = Val (Some s) ∧ (s == 1)%Q
         ∧ ∀ i' c' s', i' < i → candidates !! i' = Some c' →
                       similarity_of u title c' = Val (Some s') → (s' < 1)%Q.
Proof.
  intros Hsel Hmin Hj Htitle Hclean.
  assert (similarity_of u title c
          = Val (Some (Matcher.title_similarity u title t))) as Hc.
  { unfold similarity_of. by rewrite Htitle. }
  assert (Matcher.title_similarity u title t == 1)%Q as Hone.
  { unfold Matcher.title_similarity. rewrite Hclean.
    apply DiagonalFacts.ratio_self. }
  revert Hsel. unfold select_match.
  destruct candidates as [|c0 rest]; [done|].
  set (candidates := c0 :: rest) in *.
  change (truthy (JList candidates)) with true.
  change (iterate (JList candidates)) with (Val candidates).
  cbn [negb mbind result_bind].
  destruct (best_match_loop u title candidates JNull 0%Q) as [[bm bs]|x]
    eqn:Hrun; [|done].
  rewrite CrossrefFacts.best_match_loop_is_selection in Hrun.
  apply SelectionFacts.selection_loop_best in Hrun.
  cbn [mbind result_bind fst snd] in *.
  destruct Hrun as [(-> & -> & Hall)|(i & Hi & Hsc & Hpos & Hall)].
  { exfalso. specialize (Hall j c _ Hj Hc). rewrite Hone in Hall. done. }
  destruct (Hall j c _ Hj Hc) as [Hle Hlt]. rewrite Hone in Hle, Hlt.
  destruct (similarity_of_title u title bm bs Hsc) as (t' & Hbs).
  assert (bs <= 1)%Q as Hup.
  { rewrite Hbs. apply DifflibFacts.ratio_range. }
  assert (bs == 1)%Q as Hbs1 by (by apply Qle_antisym).
  assert (Qgeb bs min_similarity = true) as ->.
  { apply Qle_bool_iff. by rewrite Hbs1. }
  intros [= <-]. exists i, bs. split.
  { destruct (Nat.le_gt_cases i j) as [|Hgt]; [done|].
    specialize (Hlt Hgt). rewrite Hbs1 in Hlt. by apply Qlt_irrefl in Hlt. }
  split_and!; try done.
  intros i' c' s' Hi' Hc' Hs'.
  destruct (Hall i' c' s' Hc' Hs') as [_ Hlt']. rewrite <- Hbs1. by apply Hlt'.
Qed.

End ExactMatch.

(** ** Payloads of the wrong shape *)
Module Payloads.
Import Text Json Accounts.

(** X21.  What [get_abstract] does with a payload that is not shaped as
    expected.  None of the four ever raises a [KeyError] or an
    [IndexError]: Crossref's and Semantic Scholar's look a key up only
    where it is, Elsevier's and PubMed's catch both.  What is left is the
    [TypeError] of a value of the wrong type and, for Semantic Scholar, the
    [AttributeError] of a payload that is not an object. *)
Theorem get_abstract_on_odd_payloads entry :
  raises_only [TypeError] (CrossrefAPI.get_abstract entry)
  ∧ raises_only [TypeError; AttributeError]
      (SemanticScholarAPI.get_abstract entry)
  ∧ raises_only [TypeError] (ElsevierAPI.get_abstract entry)
  ∧ raises_only [TypeError] (PubMedAPI.get_abstract entry).
Proof.
  split; [apply ClientFacts.crossref_get_abstract_type_error|].
  split; [apply ClientFacts.semantic_scholar_get_abstract_raises|].
  split; [apply ClientFacts.elsevier_get_abstract_raises|].
  apply ClientFacts.pubmed_get_abstract_raises.
Qed.

End Payloads.

(** ** Runs of the matcher *)
Module MatchRuns.
Import Text Json Fixtures.

(** Two spellings of one title. *)
Lemma equal_cleaned_titles_score_one_witness :
  (Matcher.title_similarity ascii_only (py "Deep Learning!")
     (py "deep  learning") == 1)%Q.
Proof.
  apply (DiagonalFacts.equal_cleaned_titles_score_one ascii_only
           (py "Deep Learning!") (py "deep  learning")).
  vm_compute. reflexivity.
Defined.

(** Of the three candidates the third is the title asked for, letter for
    letter; the second is the same title once cleaned and comes first. *)
Lemma exact_match_is_selected_witness :
  ∃ i s, i ≤ 2
         ∧ three_candidates !! i = Some (candidate "Deep Learning!" "10.1/b")
         ∧ CrossrefAPI.similarity_of ascii_only (py "deep learning")
             (candidate "Deep Learning!" "10.1/b") = Val (Some s)
         ∧ (s == 1)%Q
         ∧ ∀ i' c' s', i' < i → three_candidates !! i' = Some c' →
                       CrossrefAPI.similarity_of ascii_only
                         (py "deep learning") c' = Val (Some s') →
                       (s' < 1)%Q.
Proof.
  apply (ExactMatch.exact_match_is_selected ascii_only (py "deep learning")
           Wiring.default_min_similarity three_candidates
           (candidate "Deep Learning!" "10.1/b") 2
           (candidate "deep learning" "10.1/c") (py "deep learning"));
    [vm_compute; reflexivity
    |unfold Wiring.default_min_similarity, Qle; simpl; lia
    |reflexivity
    |vm_compute; reflexivity
    |vm_compute; reflexivity].
Defined.

End MatchRuns.

(** ** The title search of Semantic Scholar *)
Module SemanticScholarFacts.
Import Text Json Net Accounts ClientFacts.

Lemma try_except_world {A} (body : net A) handled (a : A) w :
  (try_except body handled (mret a) w).2 = (body w).2.
Proof.
  unfold try_except. destruct (body w) as [[b|x] w1]; simpl; [done|].
  by destruct (bool_decide _).
Qed.

(** What follows the retried search request: at most one more request,
    for the details of the paper found, and no waiting. *)
Lemma details_once u title min_similarity data w1 :
  let rest :=
    (total ← lift (getitem data "total");
     if SemanticScholarAPI.equals_zero total then mret JNull
     else
       papers ← lift (papers ← getitem data "papers"; iterate papers);
       best ← lift (SemanticScholarAPI.best_match_loop u title papers JNull
                      0%Q);
       if CrossrefAPI.Qgeb best.2 min_similarity then
         paper_id ← lift (SemanticScholarAPI.get_paper_id best.1);
         if truthy paper_id then
           id ← lift (as_str paper_id);
           fetch (Get (SemanticScholarAPI.BASE_URL ++ py "/paper/" ++ id) [])
         else mret best.1
       else mret JNull) in
  ∃ details,
    length details ≤ 1
    ∧ sent (rest w1).2 = sent w1 ++ details
    ∧ slept (rest w1).2 = slept w1
    ∧ ∀ d, d ∈ details →
        ∃ id, d = Get (SemanticScholarAPI.BASE_URL ++ py "/paper/" ++ id) [].
Proof.
  intros rest.
  assert ((rest w1).2 = w1
          ∨ ∃ id, (rest w1).2
                  = World (answers w1)
                      (sent w1
                       ++ [Get (SemanticScholarAPI.BASE_URL ++ py "/paper/"
                                  ++ id) []])
                      (slept w1)) as [->|(id & ->)].
  { subst rest. rewrite net_bind_unfold. unfold lift at 1.
    destruct (getitem data "total") as [total|x]; simpl; [|by left].
    destruct (SemanticScholarAPI.equals_zero total); simpl; [by left|].
    rewrite net_bind_unfold. unfold lift at 1.
    destruct (getitem data "papers" ≫= λ papers, iterate papers)
      as [papers|x]; simpl; [|by left].
    rewrite net_bind_unfold. unfold lift at 1.
    destruct (SemanticScholarAPI.best_match_loop u title papers JNull 0%Q)
      as [best|x]; simpl; [|by left].
    destruct (CrossrefAPI.Qgeb best.2 min_similarity); simpl; [|by left].
    rewrite net_bind_unfold. unfold lift at 1.
    destruct (SemanticScholarAPI.get_paper_id best.1) as [paper_id|x]; simpl;
      [|by left].
    destruct (truthy paper_id); simpl; [|by left].
    rewrite net_bind_unfold. unfold lift at 1.
    destruct (as_str paper_id) as [id|x]; simpl; [|by left].
    right. exists id. unfold fetch. by destruct (answers w1 _ _). }
  - exists []. rewrite app_nil_r. split_and!; try done; [simpl; lia|].
    intros d Hd. by apply elem_of_nil in Hd.
  - eexists [_]. simpl. split_and!; try done.
    intros d Hd. apply list_elem_of_singleton in Hd as ->. eauto.
Qed.

(** X22.  The title search of Semantic Scholar, whatever the network
    answers: it sends its query one, two or three times, waiting 1 and
    then 2 seconds in between, and then at most one more request, for the
    details of the paper it chose, which is made once and never repeated.
    Nothing comes out of it but the [TypeError] or [AttributeError] of a
    reply of the wrong shape. *)
Theorem semantic_scholar_search_contract u title min_similarity w :
  let req := Get (SemanticScholarAPI.BASE_URL ++ py "/paper/search")
               [("query"%string, Matcher.clean_title u title);
                ("limit"%string, py "5")] in
  let r := SemanticScholarAPI.search_by_title u title min_similarity w in
  raises_only [TypeError; AttributeError] r.1
  ∧ ∃ n details,
      1 ≤ n ≤ 3 ∧ length details ≤ 1
      ∧ sent r.2 = sent w ++ replicate n req ++ details
      ∧ slept r.2 = slept w ++ seq 1 (n - 1)
      ∧ ∀ d, d ∈ details →
          ∃ id, d = Get (SemanticScholarAPI.BASE_URL ++ py "/paper/" ++ id) [].
Proof.
  intros req r. split; [apply semantic_scholar_search_raises|].
  destruct (RetryFacts.fetch_retrying_spec req w) as (n & Hn & Hs & Hz & _).
  exists n. subst r. unfold SemanticScholarAPI.search_by_title.
  rewrite try_except_world. fold req. rewrite net_bind_unfold.
  revert Hs Hz.
  destruct (fetch_retrying (seq 0 max_retries) req w) as [[[data|]|x] w1];
    cbn [fst snd]; intros Hs Hz.
  - destruct (details_once u title min_similarity data w1)
      as (details & Hlen & Hsent & Hslept & Hd).
    exists details. rewrite app_assoc, <- Hs, <- Hz.
    split_and!; [lia|lia|done|exact Hsent|exact Hslept|done].
  - exists []. rewrite app_nil_r, <- Hs, <- Hz.
    split_and!; try done; [lia|lia|simpl; lia|].
    intros d Hd. by apply elem_of_nil in Hd.
  - exists []. rewrite app_nil_r, <- Hs, <- Hz.
    split_and!; try done; [lia|lia|simpl; lia|].
    intros d Hd. by apply elem_of_nil in Hd.
Qed.

End SemanticScholarFacts.

(** ** Cleaning a title twice *)
Module CleanTitleFacts.
Import Text Matcher Words.

(** A property of every ASCII character, checked on the 128 of them. *)
Lemma for_all_ascii (P : N → bool) :
  forallb P (N.of_nat <$> seq 0 128) = true →
  ∀ c, is_ascii c = true → P c = true.
Proof.
  intros Hall c Hc. rewrite forallb_forall in Hall. apply Hall.
  apply list_elem_of_In, list_elem_of_fmap. exists (N.to_nat c).
  split; [by rewrite N2Nat.id|].
  apply elem_of_seq. unfold is_ascii in Hc. apply N.ltb_lt in Hc. lia.
Qed.

Lemma ascii_is_space u c : is_ascii c = true → is_space u c = ascii_space c.
Proof. unfold is_space. by intros ->. Qed.

Lemma ascii_plain u c :
  is_ascii c = true →
  plain u c = ascii_alnum c || (c =? 95)%N || ascii_space c || (c =? 45)%N.
Proof. unfold plain, is_word, is_space. by intros ->. Qed.

Lemma lower_is_ascii c : is_ascii c = true → is_ascii (ascii_lower c) = true.
Proof.
  apply (for_all_ascii (λ c, is_ascii (ascii_lower c))). vm_compute. done.
Qed.

Lemma lower_space c :
  is_ascii c = true → ascii_space (ascii_lower c) = ascii_space c.
Proof.
  intros Hc.
  pose proof (for_all_ascii
                (λ c, bool_decide (ascii_space (ascii_lower c) = ascii_space c))
                ltac:(vm_compute; done) c Hc) as Hp.
  by apply bool_decide_eq_true in Hp.
Qed.

Lemma lower_plain u c : plain u c = true → plain u (ascii_lower c) = true.
Proof.
  intros Hp. assert (is_ascii c = true) as Hc.
  { unfold plain in Hp. by apply andb_true_iff in Hp as [? _]. }
  rewrite ascii_plain in Hp by done.
  rewrite ascii_plain by by apply lower_is_ascii.
  revert Hp.
  pose proof (for_all_ascii
                (λ c, implb
                        (ascii_alnum c || (c =? 95)%N || ascii_space c
                         || (c =? 45)%N)
                        (ascii_alnum (ascii_lower c)
                         || (ascii_lower c =? 95)%N
                         || ascii_space (ascii_lower c)
                         || (ascii_lower c =? 45)%N))
                ltac:(vm_compute; done) c Hc) as Himp.
  intros Hp. cbv beta in Himp. rewrite Hp in Himp. done.
Qed.

Lemma lower_lower c : ascii_lower (ascii_lower c) = ascii_lower c.
Proof.
  unfold ascii_lower, in_range.
  destruct (65 <=? c)%N eqn:H1, (c <=? 90)%N eqn:H2; simpl; try by rewrite H1, ?H2.
  apply N.leb_le in H1, H2.
  destruct (65 <=? c + 32)%N eqn:H3, (c + 32 <=? 90)%N eqn:H4; simpl; try done.
  apply N.leb_le in H4. lia.
Qed.

(** *** [split] and [join] *)

Lemma split_from_word u w : ∀ cur rest,
  Forall (λ c, is_space u c = false) w →
  split_from u cur (w ++ rest) = split_from u (reverse w ++ cur) rest.
Proof.
  induction w as [|c w IH]; intros cur rest Hw; simpl; [done|].
  apply Forall_cons in Hw as [-> Hw]. rewrite IH by done.
  by rewrite reverse_cons, <- app_assoc.
Qed.

Lemma split_join u ws :
  is_space u 32 = true → Forall (word u) ws →
  split u (join (py " ") ws) = ws.
Proof.
  intros Hsp Hws. unfold split.
  induction ws as [|w ws IH]; [done|].
  apply Forall_cons in Hws as [[Hne Hw] Hws]. specialize (IH Hws).
  destruct ws as [|w' ws].
  - simpl. rewrite <- (app_nil_r w) at 1. rewrite split_from_word by done.
    rewrite app_nil_r. simpl.
    destruct (reverse w) eqn:Hr.
    + apply (f_equal reverse) in Hr. rewrite reverse_involutive in Hr. done.
    + by rewrite <- Hr, reverse_involutive.
  - change (join (py " ") (w :: w' :: ws))
      with (w ++ 32%N :: join (py " ") (w' :: ws)).
    rewrite split_from_word by done. rewrite app_nil_r. cbn [split_from].
    rewrite Hsp.
    destruct (reverse w) eqn:Hr.
    + apply (f_equal reverse) in Hr. rewrite reverse_involutive in Hr. done.
    + rewrite <- Hr, reverse_involutive. f_equal. apply IH.
Qed.

(** What [split] returns: words, made of characters of the text. *)
Lemma split_from_words u (P : N → Prop) s : ∀ cur,
  Forall P cur → Forall (λ c, is_space u c = false) cur → Forall P s →
  Forall (λ w, word u w ∧ Forall P w) (split_from u cur s).
Proof.
  assert (∀ cur, cur ≠ [] → Forall P cur →
                 Forall (λ c, is_space u c = false) cur →
                 word u (reverse cur) ∧ Forall P (reverse cur)) as Hrev.
  { intros cur Hne HP Hsp. split; [split|].
    - intros Hr. apply (f_equal reverse) in Hr.
      by rewrite reverse_involutive in Hr.
    - by apply Forall_reverse.
    - by apply Forall_reverse. }
  induction s as [|c s IH]; intros cur HP Hsp Hs; simpl.
  { destruct cur as [|c cur]; [constructor|].
    constructor; [by apply Hrev|constructor]. }
  apply Forall_cons in Hs as [Hc Hs].
  destruct (is_space u c) eqn:Hspace.
  - destruct cur as [|c' cur]; [by apply IH|].
    constructor; [by apply Hrev|by apply IH].
  - apply IH; [by constructor|by constructor|done].
Qed.

Lemma join_all (P : N → Prop) ws :
  P 32%N → Forall (Forall P) ws → Forall P (join (py " ") ws).
Proof.
  intros Hsp Hws. induction ws as [|w ws IH]; [constructor|].
  apply Forall_cons in Hws as [Hw Hws]. specialize (IH Hws).
  destruct ws as [|w' ws]; [done|].
  change (join (py " ") (w :: w' :: ws))
    with (w ++ 32%N :: join (py " ") (w' :: ws)).
  apply Forall_app. split; [done|by constructor].
Qed.

Lemma join_fmap (f : N → N) ws :
  f 32%N = 32%N →
  f <$> join (py " ") ws = join (py " ") (fmap (M := list) f <$> ws).
Proof.
  intros Hf. induction ws as [|w ws IH]; [done|].
  destruct ws as [|w' ws]; [done|].
  change (join (py " ") (w :: w' :: ws))
    with (w ++ 32%N :: join (py " ") (w' :: ws)).
  rewrite fmap_app, fmap_cons, Hf, IH. done.
Qed.

(** A cleaned ASCII title is clean. *)
Lemma clean_title_idempotent u title :
  forallb is_ascii title = true →
  clean_title u (clean_title u title) = clean_title u title.
Proof.
  intros Hascii. rewrite forallb_forall in Hascii.
  assert (is_space u 32 = true) as Hsp by done.
  assert (Forall (λ c, plain u c = true) (blank_special u title)) as Hb.
  { unfold blank_special. apply Forall_fmap, Forall_forall. intros c Hc.
    apply list_elem_of_In, Hascii in Hc. simpl. unfold plain.
    destruct (is_word u c || is_space u c || (c =? 45)%N) eqn:Hk.
    - by rewrite Hc.
    - done. }
  pose proof (split_from_words u (λ c, plain u c = true) (blank_special u title)
                [] ltac:(constructor) ltac:(constructor) Hb) as Hws.
  fold (split u (blank_special u title)) in Hws.
  set (ws := split u (blank_special u title)) in *.
  assert (Forall (λ c, plain u c = true) (join (py " ") ws)) as Hj.
  { apply join_all; [done|]. eapply Forall_impl; [exact Hws|].
    by intros w [_ ?]. }
  assert (∀ s, Forall (λ c, plain u c = true) s → forallb is_ascii s = true)
    as Hpa.
  { intros s Hs. apply forallb_forall. intros c Hc.
    rewrite Forall_forall in Hs. apply list_elem_of_In, Hs in Hc.
    unfold plain in Hc. by apply andb_true_iff in Hc as [? _]. }
  assert (clean_title u title = ascii_lower <$> join (py " ") ws) as ->.
  { unfold clean_title. fold ws. unfold lower. by rewrite (Hpa _ Hj). }
  set (r := ascii_lower <$> join (py " ") ws).
  assert (Forall (λ c, plain u c = true) r) as Hr.
  { unfold r. apply Forall_fmap. eapply Forall_impl; [exact Hj|].
    intros c Hc. simpl. by apply lower_plain. }
  unfold clean_title.
  assert (blank_special u r = r) as ->.
  { unfold blank_special. rewrite <- (list_fmap_id r) at 2.
    apply Forall_fmap_ext. eapply Forall_impl; [exact Hr|].
    intros c Hc. unfold plain in Hc. apply andb_true_iff in Hc as [_ ->].
    done. }
  assert (split u r = fmap (M := list) ascii_lower <$> ws) as ->.
  { unfold r. rewrite join_fmap by done. apply split_join; [done|].
    apply Forall_fmap. eapply Forall_impl; [exact Hws|].
    intros w [[Hne Hw] Hp]. simpl. split.
    - by destruct w.
    - apply Forall_fmap. rewrite Forall_forall in Hw, Hp.
      apply Forall_forall. intros c Hc. simpl.
      assert (is_ascii c = true) as Hca.
      { specialize (Hp c Hc). unfold plain in Hp.
        by apply andb_true_iff in Hp as [? _]. }
      rewrite ascii_is_space by by apply lower_is_ascii.
      rewrite lower_space by done. rewrite <- (ascii_is_space u) by done.
      by apply Hw. }
  rewrite <- join_fmap by done. fold r.
  unfold lower. rewrite (Hpa _ Hr). unfold r.
  rewrite <- list_fmap_compose. apply list_fmap_ext.
  intros i c _. simpl. apply lower_lower.
Qed.

(** X23.  Cleaning is idempotent on ASCII titles: a cleaned title is its
    own cleaned form, so the similarity of two titles is the similarity of
    their cleaned forms, and titles may be cleaned before they are
    compared or stored without changing any score. *)
Theorem cleaning_twice_changes_nothing u title1 title2 :
  forallb is_ascii title1 = true → forallb is_ascii title2 = true →
  clean_title u (clean_title u title1) = clean_title u title1
  ∧ title_similarity u (clean_title u title1) (clean_title u title2)
    = title_similarity u title1 title2.
Proof.
  intros H1 H2. split; [by apply clean_title_idempotent|].
  unfold title_similarity. by rewrite !clean_title_idempotent.
Qed.

End CleanTitleFacts.

Module CleanRuns.
Import Text Matcher Fixtures.

(** A title with capitals, punctuation and a double space. *)
Lemma cleaning_twice_changes_nothing_witness :
  clean_title ascii_only (clean_title ascii_only (py "Deep  Learning!"))
  = clean_title ascii_only (py "Deep  Learning!")
  ∧ title_similarity ascii_only (clean_title ascii_only (py "Deep  Learning!"))
      (clean_title ascii_only (py "deep earning"))
    = title_similarity ascii_only (py "Deep  Learning!") (py "deep earning").
Proof.
  apply (CleanTitleFacts.cleaning_twice_changes_nothing ascii_only
           (py "Deep  Learning!") (py "deep earning")); reflexivity.
Defined.

End CleanRuns.
